(** * Loom: the kind kernel and the protobuf record stream

    A shallow embedding of [src/kind_kernel.cc] (the kind-reassignment
    kernel of the cross-categorization engine) and of
    [src/protobuf_stream.hpp] (the length-prefixed record stream), with the
    properties of the two stated and proved over the embedding.

    Conventions.
    - C++ code that mutates the kernel object is a computation in a small
      state monad over the record [KindKernel]; a failed [LOOM_ASSERT]
      ends the computation in [Fatal], carrying the state the process had
      when it aborted; an access outside a vector's bounds ends it in
      [Undefined].
    - [std::vector] is [list] with stdpp's lookup and insert, the feature
      set of a kind ([std::unordered_set]) is a [gset nat].
    - Indices and counters ([size_t]) are [nat]; where the source converts
      between [int] and [size_t] the arithmetic is done in [Z] with the
      wrap-around written out. *)

From Stdlib Require Import ssreflect ZArith Lia Strings.Byte.
From stdpp Require Import base gmap sets list strings.

#[local] Set Warnings "-rewrite-rw".

Local Open Scope general_if_scope.
Local Open Scope Z_scope.
Local Open Scope nat_scope.

(** ** Computations that may abort *)

Module Abort.

Inductive outcome (S A : Type) : Type :=
| Done (a : A) (s : S)
| Fatal (msg : string) (s : S)
| Undefined (s : S).

Arguments Done {S A} a s.
Arguments Fatal {S A} msg s.
Arguments Undefined {S A} s.

Definition M (S A : Type) : Type := S -> outcome S A.

Definition ret {S A} (a : A) : M S A := fun s => Done a s.

Definition bind {S A B} (c : M S A) (k : A -> M S B) : M S B :=
  fun s =>
    match c s with
    | Done a s' => k a s'
    | Fatal msg s' => Fatal msg s'
    | Undefined s' => Undefined s'
    end.

Definition gets {S A} (f : S -> A) : M S A := fun s => Done (f s) s.
Definition modify {S} (f : S -> S) : M S unit := fun s => Done tt (f s).

(** [LOOM_ASSERT(cond, msg)] *)
Definition loom_assert {S} (cond : bool) (msg : string) : M S unit :=
  fun s => if cond then Done tt s else Fatal msg s.

(** The value of an in-bounds access; anything else is undefined. *)
Definition in_bounds {S A} (o : option A) : M S A :=
  fun s => match o with Some a => Done a s | None => Undefined s end.

Definition final_state {S A} (o : outcome S A) : S :=
  match o with Done _ s | Fatal _ s | Undefined s => s end.

(** Go on from the outcome of a constructor. *)
Definition and_then {S A B} (o : outcome S A) (k : M S B) : outcome S B :=
  match o with
  | Done _ s => k s
  | Fatal msg s => Fatal msg s
  | Undefined s => Undefined s
  end.

End Abort.

Import Abort.

Notation "'let*' x := c 'in' k" := (bind c (fun x => k))
  (at level 10, x name, c at level 100, k at level 200).
Notation "c >> k" := (bind c (fun _ => k))
  (at level 100, k at level 200, right associativity).

(** [for (x : l) body(x)] *)
Fixpoint for_each {S A} (l : list A) (body : A -> M S unit) : M S unit :=
  match l with
  | [] => ret tt
  | x :: l' => body x >> for_each l' body
  end.

(** A loop that carries a local variable. *)
Fixpoint for_fold {S A B} (l : list A) (body : B -> A -> M S B) (b : B) : M S B :=
  match l with
  | [] => ret b
  | x :: l' => let* b' := body b x in for_fold l' body b'
  end.

(** ** Packed vectors *)

(** Modelled from the spec: [packed_add] and [packed_remove] of the packed
    vector type live in a header that is not part of the sources at hand.
    "Removes it by swapping the last kind into [index] (if [index] is not
    already last) and shrinking the store by one"; [append_kind] "assigns
    the new kind the next dense index". *)
Definition packed_remove {A} (pos : nat) (l : list A) : list A :=
  match last l with
  | Some x =>
      if decide (pos = length l - 1) then take (length l - 1) l
      else take (length l - 1) (<[pos := x]> l)
  | None => l
  end.

Definition packed_add {A} (x : A) (l : list A) : list A := l ++ [x].

(** A left fold whose step may fail. *)
Fixpoint fold_opt {A B} (step : B -> A -> option B) (l : list A) (b : B) : option B :=
  match l with
  | [] => Some b
  | x :: l' =>
      match step b x with
      | Some b' => fold_opt step l' b'
      | None => None
      end
  end.

(** Whether a property holds of an element that may be missing is
    decidable when the property is. *)
#[local] Instance from_option_decision {A} (P : A → Prop) `{∀ x, Decision (P x)}
    (o : option A) : Decision (from_option P False o) :=
  match o with
  | Some x => decide (P x)
  | None => right (fun H => H)
  end.

(** The map after [m[featureid] = kindid] for each of the pairs. *)
Definition reassign (calls : list (nat * nat)) (m : list nat) : list nat :=
  fold_left (fun m c => <[c.1 := c.2]> m) calls m.

(** The map after [m[featureid] = kindid] for each of [featureids], all of
    them inside the map. *)
Definition repoint (kindid : nat) (featureids : list nat) (m : list nat) : list nat :=
  fold_left (fun m featureid => <[featureid := kindid]> m) featureids m.

(** The model of a kind: its clustering hyperprior instance and the
    hyperparameters of its features. *)
Record ProductModel (C F : Type) : Type := {
  clustering : C;
  features : F;
}.
Arguments clustering {C F} _.
Arguments features {C F} _.

(** ** External collaborators

    The probability model of a kind, the random source, the routing
    structure and the proposer are outside the kernel; the kernel only
    calls them. *)

Class Collaborators : Type := {
  Clustering : Type;
  FeatureModels : Type;
  ProductMixture : Type;
  GridPoint : Type;
  rng_t : Type;
  ProductValue : Type;
  Splitter : Type;
  ProposerRest : Type;
  (** build-time constant *)
  LOOM_DEBUG_LEVEL : nat;
  (** [Kind()]: the model and mixture of a default-constructed kind *)
  default_model : ProductModel Clustering FeatureModels;
  default_mixture : ProductMixture;
  (** [model.clear()] *)
  model_clear :
    ProductModel Clustering FeatureModels -> ProductModel Clustering FeatureModels;
  sample_clustering_prior : list GridPoint -> rng_t -> Clustering * rng_t;
  sample_assignments : Clustering -> nat -> rng_t -> list Z * rng_t;
  count_rows : ProductMixture -> nat;
  (** [rng_t(seed)] *)
  rng_seed : Z -> rng_t;
  splitter_init : list nat -> nat -> Splitter;
  (** [ProductMixture::init_unobserved(model, counts, rng)] *)
  init_unobserved :
    ProductModel Clustering FeatureModels -> list Z -> rng_t ->
    ProductMixture * rng_t;
  (** [ProductMixture::move_feature_to(featureid, source_model,
      source_mixture, destin_model, destin_mixture, init_cache, rng)],
      called on the proposer's mixture of the destination kind; it may
      update every object it is handed. *)
  move_feature_to :
    ProductMixture -> nat ->
    ProductModel Clustering FeatureModels -> ProductMixture ->
    ProductModel Clustering FeatureModels -> ProductMixture ->
    bool -> rng_t ->
    ProductMixture *
    (ProductModel Clustering FeatureModels * ProductMixture) *
    (ProductModel Clustering FeatureModels * ProductMixture) * rng_t;
}.

Section Kernel.

Context `{Collaborators}.

(** ** Data model *)

Record Kind : Type := {
  model : ProductModel Clustering FeatureModels;
  mixture : ProductMixture;
  featureids : gset nat;
}.

Record CrossCat : Type := {
  hyper_prior_clustering : list GridPoint;
  kinds : list Kind;
  featureid_to_kindid : list nat;
  splitter : Splitter;
}.

(** Modelled from the spec: the row assignment table is declared in a
    header that is not part of the sources at hand. "Index-aligned with
    the Partition; for each kind index, holds one group id per row."
    [keys] has one entry per known row, [values] one column per kind. *)
Record Assignments : Type := {
  keys : list nat;
  values : list (list Z);
}.

Definition row_count (a : Assignments) : nat := length (keys a).

Record ProposerKind : Type := {
  p_model : ProductModel Clustering FeatureModels;
  p_mixture : ProductMixture;
}.

Record KindProposer : Type := {
  p_kinds : list ProposerKind;
  p_rest : ProposerRest;
}.

Record Timers : Type := { tare : Z; score : Z; sample : Z }.

(** The members of [KindKernel]. [timer_] measures wall-clock time and is
    left out. *)
Record KindKernel : Type := {
  empty_group_count_ : Z;
  empty_kind_count_ : nat;
  iterations_ : nat;
  score_parallel_ : bool;
  init_cache_ : bool;
  tare_ : ProductValue;
  cross_cat_ : CrossCat;
  assignments_ : Assignments;
  kind_proposer_ : KindProposer;
  rng_ : rng_t;
  total_count_ : nat;
  change_count_ : nat;
  birth_count_ : nat;
  death_count_ : nat;
  tare_time_ : Z;
  score_time_ : Z;
  sample_time_ : Z;
}.

(** *** Field updates *)

Definition set_kinds (ks : list Kind) (cc : CrossCat) : CrossCat :=
  {| hyper_prior_clustering := hyper_prior_clustering cc;
     kinds := ks;
     featureid_to_kindid := featureid_to_kindid cc;
     splitter := splitter cc |}.

Definition set_featureid_to_kindid (m : list nat) (cc : CrossCat) : CrossCat :=
  {| hyper_prior_clustering := hyper_prior_clustering cc;
     kinds := kinds cc;
     featureid_to_kindid := m;
     splitter := splitter cc |}.

Definition set_splitter (sp : Splitter) (cc : CrossCat) : CrossCat :=
  {| hyper_prior_clustering := hyper_prior_clustering cc;
     kinds := kinds cc;
     featureid_to_kindid := featureid_to_kindid cc;
     splitter := sp |}.

Definition set_values (vs : list (list Z)) (a : Assignments) : Assignments :=
  {| keys := keys a; values := vs |}.

Definition set_clustering (c : Clustering) (k : Kind) : Kind :=
  {| model := {| clustering := c; features := features (model k) |};
     mixture := mixture k;
     featureids := featureids k |}.

Definition set_model (m : ProductModel Clustering FeatureModels) (k : Kind) : Kind :=
  {| model := m; mixture := mixture k; featureids := featureids k |}.

Definition set_mixture (mx : ProductMixture) (k : Kind) : Kind :=
  {| model := model k; mixture := mx; featureids := featureids k |}.

Definition set_featureids (fs : gset nat) (k : Kind) : Kind :=
  {| model := model k; mixture := mixture k; featureids := fs |}.

Definition with_cross_cat (f : CrossCat -> CrossCat) (s : KindKernel) : KindKernel :=
  {| empty_group_count_ := empty_group_count_ s;
     empty_kind_count_ := empty_kind_count_ s;
     iterations_ := iterations_ s;
     score_parallel_ := score_parallel_ s;
     init_cache_ := init_cache_ s;
     tare_ := tare_ s;
     cross_cat_ := f (cross_cat_ s);
     assignments_ := assignments_ s;
     kind_proposer_ := kind_proposer_ s;
     rng_ := rng_ s;
     total_count_ := total_count_ s;
     change_count_ := change_count_ s;
     birth_count_ := birth_count_ s;
     death_count_ := death_count_ s;
     tare_time_ := tare_time_ s;
     score_time_ := score_time_ s;
     sample_time_ := sample_time_ s |}.

Definition with_assignments (f : Assignments -> Assignments) (s : KindKernel) : KindKernel :=
  {| empty_group_count_ := empty_group_count_ s;
     empty_kind_count_ := empty_kind_count_ s;
     iterations_ := iterations_ s;
     score_parallel_ := score_parallel_ s;
     init_cache_ := init_cache_ s;
     tare_ := tare_ s;
     cross_cat_ := cross_cat_ s;
     assignments_ := f (assignments_ s);
     kind_proposer_ := kind_proposer_ s;
     rng_ := rng_ s;
     total_count_ := total_count_ s;
     change_count_ := change_count_ s;
     birth_count_ := birth_count_ s;
     death_count_ := death_count_ s;
     tare_time_ := tare_time_ s;
     score_time_ := score_time_ s;
     sample_time_ := sample_time_ s |}.

Definition set_kind_proposer (p : KindProposer) (s : KindKernel) : KindKernel :=
  {| empty_group_count_ := empty_group_count_ s;
     empty_kind_count_ := empty_kind_count_ s;
     iterations_ := iterations_ s;
     score_parallel_ := score_parallel_ s;
     init_cache_ := init_cache_ s;
     tare_ := tare_ s;
     cross_cat_ := cross_cat_ s;
     assignments_ := assignments_ s;
     kind_proposer_ := p;
     rng_ := rng_ s;
     total_count_ := total_count_ s;
     change_count_ := change_count_ s;
     birth_count_ := birth_count_ s;
     death_count_ := death_count_ s;
     tare_time_ := tare_time_ s;
     score_time_ := score_time_ s;
     sample_time_ := sample_time_ s |}.

Definition set_rng (r : rng_t) (s : KindKernel) : KindKernel :=
  {| empty_group_count_ := empty_group_count_ s;
     empty_kind_count_ := empty_kind_count_ s;
     iterations_ := iterations_ s;
     score_parallel_ := score_parallel_ s;
     init_cache_ := init_cache_ s;
     tare_ := tare_ s;
     cross_cat_ := cross_cat_ s;
     assignments_ := assignments_ s;
     kind_proposer_ := kind_proposer_ s;
     rng_ := r;
     total_count_ := total_count_ s;
     change_count_ := change_count_ s;
     birth_count_ := birth_count_ s;
     death_count_ := death_count_ s;
     tare_time_ := tare_time_ s;
     score_time_ := score_time_ s;
     sample_time_ := sample_time_ s |}.

Definition set_times (t : Timers) (s : KindKernel) : KindKernel :=
  {| empty_group_count_ := empty_group_count_ s;
     empty_kind_count_ := empty_kind_count_ s;
     iterations_ := iterations_ s;
     score_parallel_ := score_parallel_ s;
     init_cache_ := init_cache_ s;
     tare_ := tare_ s;
     cross_cat_ := cross_cat_ s;
     assignments_ := assignments_ s;
     kind_proposer_ := kind_proposer_ s;
     rng_ := rng_ s;
     total_count_ := total_count_ s;
     change_count_ := change_count_ s;
     birth_count_ := birth_count_ s;
     death_count_ := death_count_ s;
     tare_time_ := tare t;
     score_time_ := score t;
     sample_time_ := sample t |}.

Definition set_move_counts (total change : nat) (s : KindKernel) : KindKernel :=
  {| empty_group_count_ := empty_group_count_ s;
     empty_kind_count_ := empty_kind_count_ s;
     iterations_ := iterations_ s;
     score_parallel_ := score_parallel_ s;
     init_cache_ := init_cache_ s;
     tare_ := tare_ s;
     cross_cat_ := cross_cat_ s;
     assignments_ := assignments_ s;
     kind_proposer_ := kind_proposer_ s;
     rng_ := rng_ s;
     total_count_ := total;
     change_count_ := change;
     birth_count_ := birth_count_ s;
     death_count_ := death_count_ s;
     tare_time_ := tare_time_ s;
     score_time_ := score_time_ s;
     sample_time_ := sample_time_ s |}.

Definition set_kind_counts (death birth : nat) (s : KindKernel) : KindKernel :=
  {| empty_group_count_ := empty_group_count_ s;
     empty_kind_count_ := empty_kind_count_ s;
     iterations_ := iterations_ s;
     score_parallel_ := score_parallel_ s;
     init_cache_ := init_cache_ s;
     tare_ := tare_ s;
     cross_cat_ := cross_cat_ s;
     assignments_ := assignments_ s;
     kind_proposer_ := kind_proposer_ s;
     rng_ := rng_ s;
     total_count_ := total_count_ s;
     change_count_ := change_count_ s;
     birth_count_ := birth;
     death_count_ := death;
     tare_time_ := tare_time_ s;
     score_time_ := score_time_ s;
     sample_time_ := sample_time_ s |}.

(** *** The proposer

    "Contract only": the kernel calls [infer_assignments],
    [mixture_init_unobserved] and [clear], and reaches into
    [kind_proposer_.kinds] when it moves a feature. *)
Class Proposer : Type := {
  proposer_new : KindProposer;
  infer_assignments :
    ProductValue -> CrossCat -> list nat -> nat -> bool -> rng_t ->
    KindProposer -> list nat * Timers * KindProposer * rng_t;
  mixture_init_unobserved :
    CrossCat -> rng_t -> KindProposer -> KindProposer * rng_t;
  proposer_clear : KindProposer -> KindProposer;
}.

Context `{Proposer}.

(** ** Access to the members *)

Definition default_kind : Kind :=
  {| model := default_model; mixture := default_mixture; featureids := ∅ |}.

(** [cross_cat_.kinds[kindid]] *)
Definition kind_at (kindid : nat) : M KindKernel Kind :=
  fun s => in_bounds (kinds (cross_cat_ s) !! kindid) s.

Definition update_kind (kindid : nat) (f : Kind -> Kind) : M KindKernel unit :=
  modify (with_cross_cat (fun cc => set_kinds (alter f kindid (kinds cc)) cc)).

(** [cross_cat_.featureid_to_kindid[featureid]] *)
Definition kindid_of (featureid : nat) : M KindKernel nat :=
  fun s => in_bounds (featureid_to_kindid (cross_cat_ s) !! featureid) s.

(** [cross_cat_.featureid_to_kindid[featureid] = kindid] *)
Definition set_kindid (featureid kindid : nat) : M KindKernel unit :=
  kindid_of featureid >>
  modify (with_cross_cat (fun cc =>
    set_featureid_to_kindid (<[featureid := kindid]> (featureid_to_kindid cc)) cc)).

(** [kind_proposer_.kinds[kindid]] *)
Definition proposed_kind_at (kindid : nat) : M KindKernel ProposerKind :=
  fun s => in_bounds (p_kinds (kind_proposer_ s) !! kindid) s.

Definition set_proposed_mixture (kindid : nat) (mx : ProductMixture)
  : M KindKernel unit :=
  modify (fun s =>
    set_kind_proposer
      {| p_kinds :=
           alter (fun pk => {| p_model := p_model pk; p_mixture := mx |})
                 kindid (p_kinds (kind_proposer_ s));
         p_rest := p_rest (kind_proposer_ s) |} s).

(** Modelled from the spec: [CrossCat::update_splitter] is defined outside
    the sources at hand. "Recomputes any derived structure used to
    dispatch a row's values to the subset of features each kind owns." *)
Definition update_splitter : M KindKernel unit :=
  modify (with_cross_cat (fun cc =>
    set_splitter (splitter_init (featureid_to_kindid cc) (length (kinds cc))) cc)).

(** ** Validation *)

(** The map's image is exactly the set of occupied indices. *)
Definition image_is_occupied (cc : CrossCat) : bool :=
  forallb (fun kindid => kindid <? length (kinds cc)) (featureid_to_kindid cc)
  && forallb
       (fun '(kindid, kind) =>
          eqb (bool_decide (kindid ∈ featureid_to_kindid cc))
              (negb (bool_decide (featureids kind = ∅))))
       (imap pair (kinds cc)).

(** Every kind's owned set agrees with the map, in both directions. *)
Definition owned_sets_agree (cc : CrossCat) : bool :=
  forallb
    (fun '(kindid, kind) =>
       forallb (fun featureid =>
                  bool_decide (featureid_to_kindid cc !! featureid = Some kindid))
               (elements (featureids kind))
       && forallb (fun '(featureid, kindid') =>
                     implb (kindid' =? kindid)
                           (bool_decide (featureid ∈ featureids kind)))
                  (imap pair (featureid_to_kindid cc)))
    (imap pair (kinds cc)).

(** Modelled from the spec: [CrossCat::validate] is defined outside the
    sources at hand. "Fails fatally if the map's image does not equal
    exactly the occupied indices, or if any kind's owned set disagrees with
    the map." *)
Definition cross_cat_validate : M KindKernel unit :=
  let* cc := gets cross_cat_ in
  loom_assert (image_is_occupied cc)
    "featureid_to_kindid does not cover exactly the occupied kinds" >>
  loom_assert (owned_sets_agree cc)
    "kind.featureids disagrees with featureid_to_kindid".

(** Modelled from the spec: [Assignments::validate] is defined outside the
    sources at hand. The table "holds one group id per row" for each kind
    index. *)
Definition assignments_validate : M KindKernel unit :=
  let* a := gets assignments_ in
  loom_assert (forallb (fun column => length column =? row_count a) (values a))
    "assignment column does not have one group id per row".

(** Modelled from the spec: [KindKernel::validate] is declared in the
    kernel's header, which is not part of the sources at hand. "Validate
    all invariants": the partition, the row assignment table, and their
    alignment by kind index. *)
Definition validate : M KindKernel unit :=
  cross_cat_validate >>
  assignments_validate >>
  let* s := gets id in
  loom_assert (length (values (assignments_ s)) =? length (kinds (cross_cat_ s)))
    "assignments are not aligned with kinds".

(** ** [KindKernel::remove_featureless_kind] *)

Definition remove_featureless_kind (kindid : nat) : M KindKernel unit :=
  let* kind := kind_at kindid in
  loom_assert (bool_decide (featureids kind = ∅))
    "cannot remove nonempty kind" >>
  modify (with_cross_cat (fun cc =>
    set_kinds (packed_remove kindid (kinds cc)) cc)) >>
  (let* a := gets assignments_ in
   in_bounds (values a !! kindid) >>
   modify (with_assignments (fun a =>
     set_values (packed_remove kindid (values a)) a))) >>
  let* size := gets (fun s => length (kinds (cross_cat_ s))) in
  if decide (kindid < size) then
    let* kind := kind_at kindid in
    for_each (elements (featureids kind))
      (fun featureid => set_kindid featureid kindid)
  else ret tt.

(** The state [remove_featureless_kind kindid] returns in: the kind and its
    column of assignments are gone, and the features of the kind that now
    sits at [kindid], if there is one, map to [kindid]. *)
Definition removed (kindid : nat) (s : KindKernel) : KindKernel :=
  with_cross_cat
    (fun cc =>
       let ks := packed_remove kindid (kinds cc) in
       set_featureid_to_kindid
         (match ks !! kindid with
          | Some kind =>
              repoint kindid (elements (featureids kind)) (featureid_to_kindid cc)
          | None => featureid_to_kindid cc
          end)
         (set_kinds ks cc))
    (with_assignments
       (fun a => set_values (packed_remove kindid (values a)) a) s).

(** ** [KindKernel::add_featureless_kind] *)

(** [int] to [size_t] *)
Definition size_t_of_int (g : Z) : Z := (g mod 2 ^ 64)%Z.

(** [group_count = std::max(group_count, 1 + groupid)] over the sample,
    [groupid] read as [size_t]. *)
Definition max_group_count (assignment_vector : list Z) : Z :=
  fold_left
    (fun group_count groupid =>
       Z.max group_count ((1 + size_t_of_int groupid) mod 2 ^ 64))
    assignment_vector 0%Z.

(** [++counts[groupid]] for each group id of the sample, all of them
    inside [counts]. *)
Definition tallied (assignment_vector : list Z) (counts : list Z) : list Z :=
  fold_left
    (fun counts groupid =>
       alter Z.succ (Z.to_nat (size_t_of_int groupid)) counts)
    assignment_vector counts.

(** [assignments.push(groupid)] on the column added last *)
Definition push_assignment (groupid : Z) : M KindKernel unit :=
  modify (with_assignments (fun a =>
    set_values
      (alter (fun column => column ++ [groupid]) (length (values a) - 1) (values a))
      a)).

(** The body of the loop over the sample: [assignments.push(groupid);
    ++counts[groupid];] *)
Definition push_and_count (counts : list Z) (groupid : Z)
  : M KindKernel (list Z) :=
  push_assignment groupid >>
  let i := Z.to_nat (size_t_of_int groupid) in
  let* c := in_bounds (counts !! i) in
  ret (<[i := (c + 1)%Z]> counts).

Definition add_featureless_kind : M KindKernel unit :=
  modify (with_cross_cat (fun cc =>
    set_kinds (packed_add default_kind (kinds cc)) cc)) >>
  let* kindid := gets (fun s => length (kinds (cross_cat_ s)) - 1) in
  update_kind kindid (fun kind => set_model (model_clear (model kind)) kind) >>
  let* grid_prior := gets (fun s => hyper_prior_clustering (cross_cat_ s)) in
  (if decide (length grid_prior ≠ 0) then
     let* rng := gets rng_ in
     let '(c, rng') := sample_clustering_prior grid_prior rng in
     modify (set_rng rng') >>
     update_kind kindid (set_clustering c)
   else
     let* kind0 := kind_at 0 in
     update_kind kindid (set_clustering (clustering (model kind0)))) >>
  let* row_count := gets (fun s => row_count (assignments_ s)) in
  let* kind := kind_at kindid in
  let* rng := gets rng_ in
  let '(assignment_vector, rng') :=
    sample_assignments (clustering (model kind)) row_count rng in
  modify (set_rng rng') >>
  let* empty_group_count := gets empty_group_count_ in
  let group_count :=
    ((max_group_count assignment_vector + empty_group_count) mod 2 ^ 64)%Z in
  modify (with_assignments (fun a => set_values (packed_add [] (values a)) a)) >>
  let* counts :=
    for_fold assignment_vector push_and_count
      (replicate (Z.to_nat group_count) 0%Z) in
  let* kind := kind_at kindid in
  let* rng := gets rng_ in
  let '(mx, rng') := init_unobserved (model kind) counts rng in
  modify (set_rng rng') >>
  update_kind kindid (set_mixture mx).

(** The state [add_featureless_kind] returns in: one more kind, which owns
    no feature, and one more column of assignments, the sample drawn for
    it. *)
Definition added (s : KindKernel) : KindKernel :=
  let grid_prior := hyper_prior_clustering (cross_cat_ s) in
  let cleared := model_clear default_model in
  let chosen :=
    if decide (length grid_prior ≠ 0)
    then sample_clustering_prior grid_prior (rng_ s)
    else (match kinds (cross_cat_ s) !! 0 with
          | Some kind0 => clustering (model kind0)
          | None => clustering cleared
          end, rng_ s) in
  let sampled :=
    sample_assignments chosen.1 (row_count (assignments_ s)) chosen.2 in
  let group_count :=
    ((max_group_count sampled.1 + empty_group_count_ s) mod 2 ^ 64)%Z in
  let counts := tallied sampled.1 (replicate (Z.to_nat group_count) 0%Z) in
  let m := {| clustering := chosen.1; features := features cleared |} in
  let initialized := init_unobserved m counts sampled.2 in
  set_rng initialized.2
    (with_assignments
       (fun a => set_values (packed_add sampled.1 (values a)) a)
       (with_cross_cat
          (fun cc =>
             set_kinds
               (packed_add
                  {| model := m; mixture := initialized.1; featureids := ∅ |}
                  (kinds cc))
               cc)
          s)).

(** ** [KindKernel::init_featureless_kinds] *)

(** [size_t] to [int] *)
Definition int_of_size_t (n : Z) : Z := ((n + 2 ^ 31) mod 2 ^ 32 - 2 ^ 31)%Z.

(** [for (int i = n - 1; i >= 0; --i)] *)
Fixpoint remove_featureless_from (n : nat) : M KindKernel unit :=
  match n with
  | 0 => ret tt
  | S i =>
      (let* kind := kind_at i in
       if bool_decide (featureids kind = ∅) then remove_featureless_kind i
       else ret tt) >>
      remove_featureless_from i
  end.

Definition init_featureless_kinds (featureless_kind_count : nat)
  : M KindKernel unit :=
  let* size := gets (fun s => length (kinds (cross_cat_ s))) in
  let i := int_of_size_t ((Z.of_nat size - 1) mod 2 ^ 64) in
  remove_featureless_from (Z.to_nat (i + 1)) >>
  for_each (seq 0 featureless_kind_count) (fun _ => add_featureless_kind) >>
  update_splitter >>
  cross_cat_validate >>
  assignments_validate.

(** ** [KindKernel::move_feature_to_kind] *)

Definition move_feature_to_kind (featureid new_kindid : nat) : M KindKernel unit :=
  let* old_kindid := kindid_of featureid in
  loom_assert (bool_decide (new_kindid ≠ old_kindid))
    "expected new_kindid != old_kindid" >>
  let* old_kind := kind_at old_kindid in
  let* new_kind := kind_at new_kindid in
  let* proposed_kind := proposed_kind_at new_kindid in
  let* rng := gets rng_ in
  let* init_cache := gets init_cache_ in
  let '(proposed_mixture, (old_model, old_mixture), (new_model, new_mixture), rng') :=
    move_feature_to (p_mixture proposed_kind) featureid
      (model old_kind) (mixture old_kind)
      (model new_kind) (mixture new_kind) init_cache rng in
  set_proposed_mixture new_kindid proposed_mixture >>
  update_kind old_kindid (fun kind => set_mixture old_mixture (set_model old_model kind)) >>
  update_kind new_kindid (fun kind => set_mixture new_mixture (set_model new_model kind)) >>
  modify (set_rng rng') >>
  update_kind old_kindid (fun kind =>
    set_featureids (featureids kind ∖ {[featureid]}) kind) >>
  update_kind new_kindid (fun kind =>
    set_featureids ({[featureid]} ∪ featureids kind) kind) >>
  set_kindid featureid new_kindid >>
  update_splitter >>
  cross_cat_validate >>
  assignments_validate.

(** ** [KindKernel::try_run] *)

(** The row-count checks made when [LOOM_DEBUG_LEVEL >= 1]. *)
Definition check_row_counts (with_proposer : bool) : M KindKernel unit :=
  if decide (1 ≤ LOOM_DEBUG_LEVEL) then
    let* assigned_row_count := gets (fun s => row_count (assignments_ s)) in
    let* kind0 := kind_at 0 in
    let cross_cat_row_count := count_rows (mixture kind0) in
    if with_proposer then
      let* proposed0 := proposed_kind_at 0 in
      let proposer_row_count := count_rows (p_mixture proposed0) in
      loom_assert (assigned_row_count =? cross_cat_row_count)
        "expected assigned_row_count == cross_cat_row_count" >>
      loom_assert (proposer_row_count =? cross_cat_row_count)
        "expected proposer_row_count == cross_cat_row_count"
    else
      loom_assert (assigned_row_count =? cross_cat_row_count)
        "expected assigned_row_count == cross_cat_row_count"
  else ret tt.

(** [kind_proposer_.infer_assignments(tare_, cross_cat_, new_kindids, ...)] *)
Definition run_proposer (old_kindids : list nat) : M KindKernel (list nat) :=
  fun s =>
    let '(new_kindids, times, proposer, rng) :=
      infer_assignments (tare_ s) (cross_cat_ s) old_kindids
        (iterations_ s) (score_parallel_ s) (rng_ s) (kind_proposer_ s) in
    Done new_kindids (set_times times (set_rng rng (set_kind_proposer proposer s))).

(** [kind_proposer_.mixture_init_unobserved(cross_cat_, rng_)] *)
Definition proposer_init_unobserved : M KindKernel unit :=
  fun s =>
    let '(proposer, rng) :=
      mixture_init_unobserved (cross_cat_ s) (rng_ s) (kind_proposer_ s) in
    Done tt (set_rng rng (set_kind_proposer proposer s)).

(** One call of [move_feature_to_kind], given as the feature and its
    destination. *)
Definition call_move (c : nat * nat) : M KindKernel unit :=
  move_feature_to_kind c.1 c.2.

(** The body of the loop that applies the proposed moves; its local
    variable is [change_count]. *)
Definition move_if_changed (old_kindids new_kindids : list nat)
    (change_count featureid : nat) : M KindKernel nat :=
  let* old_kindid := in_bounds (old_kindids !! featureid) in
  let* new_kindid := in_bounds (new_kindids !! featureid) in
  if decide (new_kindid ≠ old_kindid) then
    move_feature_to_kind featureid new_kindid >>
    ret (S change_count)
  else ret change_count.

Definition apply_moves (old_kindids new_kindids : list nat) : M KindKernel nat :=
  for_fold (seq 0 (length old_kindids))
    (move_if_changed old_kindids new_kindids) 0.

(** [kind_states[kindid] = 1] for the old map, [kind_states[kindid] |= 2]
    for the new one; [None] stands for an access out of bounds. *)
Definition mark_old (kind_states : list nat) (kindid : nat) : option (list nat) :=
  match kind_states !! kindid with
  | Some _ => Some (<[kindid := 1]> kind_states)
  | None => None
  end.

Definition mark_new (kind_states : list nat) (kindid : nat) : option (list nat) :=
  match kind_states !! kindid with
  | Some state => Some (<[kindid := Nat.lor state 2]> kind_states)
  | None => None
  end.

(** [state_counts[state] += 1] *)
Definition tally (state_counts : list nat) (state : nat) : option (list nat) :=
  match state_counts !! state with
  | Some c => Some (<[state := c + 1]> state_counts)
  | None => None
  end.

(** The birth and death statistics: [(death_count, birth_count)]. *)
Definition birth_death (kind_count : nat) (old_kindids new_kindids : list nat)
  : M KindKernel (nat * nat) :=
  let* kind_states :=
    for_fold old_kindids (fun st kindid => in_bounds (mark_old st kindid))
      (replicate kind_count 0) in
  let* kind_states :=
    for_fold new_kindids (fun st kindid => in_bounds (mark_new st kindid))
      kind_states in
  let* state_counts :=
    for_fold kind_states (fun sc state => in_bounds (tally sc state))
      [0; 0; 0; 0] in
  let* death := in_bounds (state_counts !! 1) in
  let* birth := in_bounds (state_counts !! 2) in
  ret (death, birth).

Definition try_run : M KindKernel bool :=
  check_row_counts true >>
  validate >>
  let* old_kindids := gets (fun s => featureid_to_kindid (cross_cat_ s)) in
  let* new_kindids := run_proposer old_kindids in
  let feature_count := length old_kindids in
  let* change_count := apply_moves old_kindids new_kindids in
  modify (set_move_counts feature_count change_count) >>
  let* kind_count := gets (fun s => length (kinds (cross_cat_ s))) in
  let* counts := birth_death kind_count old_kindids new_kindids in
  modify (set_kind_counts (fst counts) (snd counts)) >>
  let* empty_kind_count := gets empty_kind_count_ in
  init_featureless_kinds empty_kind_count >>
  proposer_init_unobserved >>
  validate >>
  ret (bool_decide (0 < change_count)).

(** ** Construction and destruction *)

(** The fields of [protobuf::Config::Kernels] the constructor reads. *)
Record Config : Type := {
  cat_empty_group_count : Z;
  kind_empty_kind_count : nat;
  kind_iterations : nat;
  kind_score_parallel : bool;
  hyper_run : bool;
}.

Definition initial_members (config : Config) (tare : ProductValue)
    (cross_cat : CrossCat) (assignments : Assignments) (seed : Z) : KindKernel :=
  {| empty_group_count_ := cat_empty_group_count config;
     empty_kind_count_ := kind_empty_kind_count config;
     iterations_ := kind_iterations config;
     score_parallel_ := kind_score_parallel config;
     init_cache_ := negb (hyper_run config);
     tare_ := tare;
     cross_cat_ := cross_cat;
     assignments_ := assignments;
     kind_proposer_ := proposer_new;
     rng_ := rng_seed seed;
     total_count_ := 0;
     change_count_ := 0;
     birth_count_ := 0;
     death_count_ := 0;
     tare_time_ := 0;
     score_time_ := 0;
     sample_time_ := 0 |}.

(** [KindKernel::KindKernel] *)
Definition construct (config : Config) (tare : ProductValue)
    (cross_cat : CrossCat) (assignments : Assignments) (seed : Z)
  : outcome KindKernel unit :=
  (let* iterations := gets iterations_ in
   loom_assert (0 <? iterations) "expected 0 < iterations_" >>
   let* empty_kind_count := gets empty_kind_count_ in
   loom_assert (0 <? empty_kind_count) "expected 0 < empty_kind_count_" >>
   check_row_counts false >>
   init_featureless_kinds empty_kind_count >>
   proposer_init_unobserved >>
   validate)
  (initial_members config tare cross_cat assignments seed).

(** [KindKernel::~KindKernel] *)
Definition destruct_kernel : M KindKernel unit :=
  modify (fun s => set_kind_proposer (proposer_clear (kind_proposer_ s)) s) >>
  init_featureless_kinds 0 >>
  validate.

(** ** The properties the kernel maintains *)

(** The bijection between the map and the owned sets: the kind a feature
    maps to owns it, and a feature a kind owns maps to that kind. *)
Definition bijection (cc : CrossCat) : Prop :=
  (∀ featureid kindid,
     featureid_to_kindid cc !! featureid = Some kindid →
     ∃ kind, kinds cc !! kindid = Some kind ∧ featureid ∈ featureids kind)
  ∧ (∀ kindid kind featureid,
       kinds cc !! kindid = Some kind →
       featureid ∈ featureids kind →
       featureid_to_kindid cc !! featureid = Some kindid).

(** The owned sets, by kind index. *)
Definition owned_sets (cc : CrossCat) : list (gset nat) :=
  featureids <$> kinds cc.

(** The bijection, stated on the owned sets alone. *)
Definition bij (sets : list (gset nat)) (m : list nat) : Prop :=
  (∀ f kid, m !! f = Some kid → ∃ X, sets !! kid = Some X ∧ f ∈ X)
  ∧ (∀ kid X f, sets !! kid = Some X → f ∈ X → m !! f = Some kid).

(** What is configured at construction, and the counters and times the
    owner reads after a transition. *)
Definition settings (s : KindKernel) :=
  (empty_group_count_ s, empty_kind_count_ s, iterations_ s,
   score_parallel_ s, init_cache_ s, tare_ s,
   hyper_prior_clustering (cross_cat_ s)).

Definition counters (s : KindKernel) :=
  (total_count_ s, change_count_ s, birth_count_ s, death_count_ s,
   tare_time_ s, score_time_ s, sample_time_ s).

(** Two partitions group the features in the same way: the non-empty
    owned sets of one are those of the other. Kinds that own nothing, and
    the order of the kinds, do not count. *)
Definition same_partition (cc cc' : CrossCat) : Prop :=
  ∀ X : gset nat, X ≠ ∅ → X ∈ owned_sets cc' ↔ X ∈ owned_sets cc.

(** What reservoir maintenance leaves alone in the kernel. *)
Definition same_frame (s s' : KindKernel) : Prop :=
  settings s' = settings s
  ∧ counters s' = counters s
  ∧ kind_proposer_ s' = kind_proposer_ s
  ∧ keys (assignments_ s') = keys (assignments_ s)
  ∧ length (featureid_to_kindid (cross_cat_ s')) =
      length (featureid_to_kindid (cross_cat_ s)).

(** The number of kinds that own no feature. *)
Definition featureless_kind_count (cc : CrossCat) : nat :=
  length (filter (fun kind => featureids kind = ∅) (kinds cc)).

(** The row assignment table has one column per kind and one group id per
    row in each column. *)
Definition aligned (s : KindKernel) : Prop :=
  length (values (assignments_ s)) = length (kinds (cross_cat_ s))
  ∧ Forall (fun column => length column = row_count (assignments_ s))
           (values (assignments_ s)).

(** The features whose proposed kind index differs from the previous one,
    in increasing order, and the calls of [move_feature_to_kind] they
    stand for: the feature and its destination. *)
Definition differing (old_kindids new_kindids : list nat) : list nat :=
  filter (fun featureid => new_kindids !! featureid ≠ old_kindids !! featureid)
         (seq 0 (length old_kindids)).

Definition move_calls (old_kindids new_kindids : list nat) : list (nat * nat) :=
  omap (fun featureid => pair featureid <$> new_kindids !! featureid)
       (differing old_kindids new_kindids).

(** The state [try_run] computes for a kind index: bit 0 when a feature
    mapped to it before, bit 1 when one maps to it after. *)
Definition kind_state (old_kindids new_kindids : list nat) (kindid : nat) : nat :=
  Nat.lor (if decide (kindid ∈ old_kindids) then 1 else 0)
          (if decide (kindid ∈ new_kindids) then 2 else 0).

(** The kind indices that appear in one map and not in the other. *)
Definition only_in (kindids other : list nat) : gset nat :=
  list_to_set kindids ∖ list_to_set other.

(** What the kernel expects of the clustering model's sampler: one group
    id per row, none negative. *)
Definition sampler_contract : Prop :=
  ∀ c n rng,
    length (sample_assignments c n rng).1 = n
    ∧ Forall (fun groupid => (0 ≤ groupid < 2 ^ 31)%Z)
             (sample_assignments c n rng).1.

(** What the kernel expects of the proposal made in state [s]: a kind
    index of the partition for every feature, and a kind in the mirror at
    the destination of every move. *)
Definition proposal_of (s : KindKernel) : list nat * Timers * KindProposer * rng_t :=
  infer_assignments (tare_ s) (cross_cat_ s) (featureid_to_kindid (cross_cat_ s))
    (iterations_ s) (score_parallel_ s) (rng_ s) (kind_proposer_ s).

Definition proposal_contract (s : KindKernel) : Prop :=
  length (proposal_of s).1.1.1 = length (featureid_to_kindid (cross_cat_ s))
  ∧ Forall (fun kindid => kindid < length (kinds (cross_cat_ s)))
           (proposal_of s).1.1.1
  ∧ Forall (fun c => c.2 < length (p_kinds (proposal_of s).1.2))
           (move_calls (featureid_to_kindid (cross_cat_ s))
                       (proposal_of s).1.1.1).

(** The state of the kernel once the proposal is made and before any
    feature is moved. *)
Definition proposed (s : KindKernel) : KindKernel :=
  set_times (proposal_of s).1.1.2
    (set_rng (proposal_of s).2
       (set_kind_proposer (proposal_of s).1.2 s)).

(** The state a kernel operation may be entered in. *)
Record well_formed (s : KindKernel) : Prop := {
  wf_bijection : bijection (cross_cat_ s);
  wf_aligned : aligned s;
  wf_kind_count : (Z.of_nat (length (kinds (cross_cat_ s))) < 2 ^ 31)%Z;
  wf_empty_group_count : (0 ≤ empty_group_count_ s < 2 ^ 32)%Z;
}.

End Kernel.

(** ** The record stream of [protobuf_stream.hpp]

    The bytes behind [stream_] are a [list byte]: what is still unread for
    an input file, what has been written so far for an output file. The
    calls into Google's protobuf library ([CodedInputStream],
    [CodedOutputStream], the message's own parser and serializer) and into
    the operating system are modelled by what they do to those bytes. *)

Module ProtobufStream.

Local Open Scope Z_scope.

(** *** Bytes and fixed-width integers *)

Definition byte_of_Z (z : Z) : byte :=
  match Byte.of_N (Z.to_N (z mod 256)) with
  | Some b => b
  | None => Byte.x00
  end.

Definition Z_of_byte (b : byte) : Z := Z.of_N (Byte.to_N b).

(** [uint32_t] to [int] *)
Definition int_of_uint32 (n : Z) : Z :=
  if decide (n < 2 ^ 31) then n else n - 2 ^ 32.

(** [CodedOutputStream::WriteLittleEndian32(value)]; the argument is
    converted to [uint32_t]. *)
Definition WriteLittleEndian32 (value : Z) : list byte :=
  let v := value mod 2 ^ 32 in
  [byte_of_Z v; byte_of_Z (Z.shiftr v 8);
   byte_of_Z (Z.shiftr v 16); byte_of_Z (Z.shiftr v 24)].

(** [CodedInputStream::ReadLittleEndian32(&value)]: whether four bytes
    were there, the value read (the variable keeps its initial 0
    otherwise), and the rest of the stream; a short stream is used up. *)
Definition ReadLittleEndian32 (stream : list byte) : bool * Z * list byte :=
  match stream with
  | b0 :: b1 :: b2 :: b3 :: rest =>
      (true,
       Z.lor (Z_of_byte b0)
         (Z.lor (Z.shiftl (Z_of_byte b1) 8)
            (Z.lor (Z.shiftl (Z_of_byte b2) 16)
                   (Z.shiftl (Z_of_byte b3) 24))),
       rest)
  | _ => (false, 0, [])
  end.

(** [CodedInputStream::Skip(count)]: whether [count] bytes were skipped,
    and the rest of the stream. A negative count fails at once. When the
    stream ends before [count] bytes, the outcome depends on what is
    behind it: the stream object of a plain file seeks, which succeeds
    beyond the end of the file and leaves nothing to read; a decompressing
    stream, and a descriptor, which is taken to be a pipe, are read to
    their end and the call fails. *)
Definition Skip (seeks : bool) (count : Z) (stream : list byte) : bool * list byte :=
  if decide (count < 0) then (false, stream)
  else if decide (count <= Z.of_nat (length stream))
       then (true, drop (Z.to_nat count) stream)
       else (seeks, []).

(** The bytes a parser sees after [CodedInputStream::PushLimit(byte_limit)]:
    a negative limit is ignored, and no limit reaches past the end of the
    stream. *)
Definition limited (byte_limit : Z) (stream : list byte) : list byte :=
  if decide (0 <= byte_limit) then take (Z.to_nat byte_limit) stream else stream.

(** The format of a record: "a little-endian 32-bit length prefix followed
    by exactly that many serialized bytes". *)
Definition record (payload : list byte) : list byte :=
  WriteLittleEndian32 (Z.of_nat (length payload)) ++ payload.

Definition records (payloads : list (list byte)) : list byte :=
  concat (record <$> payloads).

(** *** Messages, compression, the operating system *)

Class MessageType : Type := {
  Message : Type;
  (** [SerializeWithCachedSizes]; [ByteSizeLong] is the length of its output *)
  serialize : Message -> list byte;
  (** [ParseFromCodedStream] on the bytes up to the limit *)
  parse : list byte -> option Message;
  IsInitialized : Message -> bool;
}.

Class Platform : Type := {
  (** build-time constant *)
  DEBUG_LEVEL : nat;
  (** [GzipOutputStream] and [GzipInputStream] over a whole file *)
  gzip : list byte -> list byte;
  gunzip : list byte -> list byte;
  (** Of the bytes not yet consumed through a stream object on a
      descriptor, how many the object has already taken from the
      descriptor into its buffer. They are gone when the object is
      deleted. *)
  read_ahead : list byte -> nat;
}.

(** The files by name, and what the descriptor behind a stream that is not
    a named file (standard input, or the [fid] handed to the constructor)
    will deliver to a stream object created on it now. *)
Record OS : Type := {
  files : gmap string (list byte);
  fd_pending : list byte;
}.

Definition endswith (filename suffix : string) : bool :=
  (String.length suffix <=? String.length filename)%nat
  && String.eqb
       (String.substring (String.length filename - String.length suffix)
                  (String.length suffix) filename)
       suffix.

Section Stream.

Context `{MessageType} `{Platform}.

(** *** [InFile] *)

Record InFile : Type := {
  filename_ : string;
  is_file_ : bool;
  stream_ : list byte;
  position_ : Z;
}.

Definition position (f : InFile) : Z := position_ f.

(** [InFile::_open]; opening a named file starts at its first byte, a
    descriptor goes on from where it is. *)
Definition _open (os : OS) (filename : string) : outcome InFile unit :=
  let opened (is_file : bool) (raw : list byte) :=
    {| filename_ := filename;
       is_file_ := is_file;
       stream_ := if endswith filename ".gz" then gunzip raw else raw;
       position_ := 0 |} in
  if decide (filename = "") then Done tt (opened false (fd_pending os))
  else if decide (filename = "-" \/ filename = "-.gz")
  then Done tt (opened false (fd_pending os))
  else
    match files os !! filename with
    | Some contents => Done tt (opened true contents)
    | None =>
        Fatal "failed to open input file"
          {| filename_ := filename; is_file_ := true;
             stream_ := []; position_ := 0 |}
    end.

(** [InFile::InFile(int fid)] *)
Definition InFile_of_fid (os : OS) : outcome InFile unit := _open os "".

(** [InFile::InFile(const char * filename)] *)
Definition InFile_of_filename (os : OS) (filename : string) : outcome InFile unit :=
  if decide (filename = "")
  then Fatal "empty filename is not supported"
         {| filename_ := filename; is_file_ := false;
            stream_ := []; position_ := 0 |}
  else _open os filename.

(** [_close(); _open();]: a named file is opened again; a descriptor is
    not closed, and the new stream object goes on with what the
    descriptor has not handed out yet. *)
Definition reopen (fs : gmap string (list byte)) : M InFile unit :=
  fun f =>
    _open {| files := fs;
             fd_pending := drop (read_ahead (stream_ f)) (stream_ f) |}
          (filename_ f).

(** [++position_] on a [uint64_t] *)
Definition next_position : M InFile unit :=
  modify (fun f =>
    {| filename_ := filename_ f; is_file_ := is_file_ f;
       stream_ := stream_ f;
       position_ := (position_ f + 1) mod 2 ^ 64 |}).

Definition set_stream (bytes : list byte) : M InFile unit :=
  modify (fun f =>
    {| filename_ := filename_ f; is_file_ := is_file_ f;
       stream_ := bytes;
       position_ := position_ f |}).

(** Whether [stream_] is the stream object of a plain file: a named file
    that is not decompressed. *)
Definition seekable (f : InFile) : bool :=
  is_file_ f && negb (endswith (filename_ f) ".gz").

(** One turn of the loop of [set_position]: skip one record. *)
Definition skip_record : M InFile unit :=
  let* stream := gets stream_ in
  let* seeks := gets seekable in
  let '(success, message_size, rest) := ReadLittleEndian32 stream in
  set_stream rest >>
  loom_assert success "failed to set position" >>
  let '(success, rest') := Skip seeks (int_of_uint32 message_size) rest in
  set_stream rest' >>
  loom_assert success "failed to set position" >>
  next_position.

(** [while (position_ < target)], as many turns as the distance. *)
Fixpoint skip_records (turns : nat) : M InFile unit :=
  match turns with
  | O => ret tt
  | S turns' => skip_record >> skip_records turns'
  end.

(** [InFile::set_position] *)
Definition set_position (fs : gmap string (list byte)) (target : Z)
  : M InFile unit :=
  (let* p := gets position_ in
   if decide (target < p) then reopen fs else ret tt) >>
  let* p := gets position_ in
  skip_records (Z.to_nat (target - p)).

(** [InFile::try_read_stream(Message &)]: [Some] of the message read when
    the call returns true, [None] when it returns false. *)
Definition try_read_stream : M InFile (option Message) :=
  let* stream := gets stream_ in
  let '(success, message_size, rest) := ReadLittleEndian32 stream in
  if success then
    let visible := limited (int_of_uint32 message_size) rest in
    set_stream (drop (length visible) rest) >>
    match parse visible with
    | Some message => next_position >> ret (Some message)
    | None => loom_assert false "failed to parse message" >> ret None
    end
  else set_stream rest >> ret None.

(** [InFile::try_read_stream(std::vector<char> &)]; [ReadRaw] with a
    negative size is undefined. *)
Definition try_read_stream_raw : M InFile (option (list byte)) :=
  let* stream := gets stream_ in
  let '(success, message_size, rest) := ReadLittleEndian32 stream in
  if success then
    let size := int_of_uint32 message_size in
    if decide (size < 0) then set_stream rest >> (fun f => Undefined f)
    else
      let visible := limited size rest in
      set_stream (drop (length visible) rest) >>
      loom_assert (bool_decide (Z.of_nat (length visible) = size))
        "failed to parse message" >>
      next_position >>
      ret (Some visible)
  else set_stream rest >> ret None.

(** *** [OutFile] *)

Record OutFile : Type := {
  out_filename_ : string;
  out_is_file_ : bool;
  (** what has gone into [stream_] so far *)
  written : list byte;
}.


Definition emit (bytes : list byte) : M OutFile unit :=
  modify (fun f =>
    {| out_filename_ := out_filename_ f; out_is_file_ := out_is_file_ f;
       written := written f ++ bytes |}).

(** [LOOM_ASSERT1(cond, msg)] *)
Definition loom_assert1 {S} (cond : bool) (msg : string) : M S unit :=
  if decide (1 <= DEBUG_LEVEL)%nat then loom_assert cond msg else ret tt.

(** [OutFile::write_stream(Message &)] *)
Definition write_stream (message : Message) : M OutFile unit :=
  loom_assert1 (IsInitialized message) "message not initialized" >>
  let message_size := Z.of_nat (length (serialize message)) in
  emit (WriteLittleEndian32 message_size) >>
  emit (serialize message).

(** [OutFile::write_stream(const std::vector<char> &)] *)
Definition write_stream_raw (raw : list byte) : M OutFile unit :=
  emit (WriteLittleEndian32 (Z.of_nat (length raw))) >>
  emit raw.


(** *** [protobuf_stream_load] and [protobuf_stream_dump] *)

(** [while (stream.try_read_stream(messages.back())) ...]; a turn that
    reads a record uses up at least its four-byte prefix, so as many turns
    as there are unread bytes, and one more, always reach the end. *)
Fixpoint read_messages (turns : nat) : M InFile (list Message) :=
  let* got := try_read_stream in
  match got with
  | None => ret []
  | Some message =>
      match turns with
      | O => fun f => Undefined f
      | S turns' =>
          let* messages := read_messages turns' in
          ret (message :: messages)
      end
  end.

(** A message the stream is meant for: initialized, read back by the
    parser from its own serialization, and shorter than 2 GiB, which is
    the limit of a protobuf message. *)
Definition well_formed_message (message : Message) : Prop :=
  IsInitialized message = true
  ∧ parse (serialize message) = Some message
  ∧ Z.of_nat (length (serialize message)) < 2 ^ 31.

(** A file name that stands for a file, not for a standard stream. *)
Definition names_a_file (filename : string) : Prop :=
  filename ≠ "" ∧ filename ≠ "-" ∧ filename ≠ "-.gz".

(** The input file after [n] more records have been passed: [stream_] is
    what follows them, [position_] has advanced by [n]. *)
Definition advanced (n : nat) (rest : list byte) (f : InFile) : InFile :=
  {| filename_ := filename_ f;
     is_file_ := is_file_ f;
     stream_ := rest;
     position_ := Nat.iter n (fun p => (p + 1) mod 2 ^ 64) (position_ f) |}.

Definition protobuf_stream_load (os : OS) (filename : string)
  : outcome InFile (list Message) :=
  and_then (InFile_of_filename os filename)
    (let* stream := gets stream_ in
     read_messages (length stream)).


(** The input file stands after [p] of the records [payloads]: [p]
    records have been consumed and the rest are what is unread. *)
Definition stands_at (payloads : list (list byte)) (p : nat) (f : InFile) : Prop :=
  position_ f = Z.of_nat p
  ∧ stream_ f = records (drop p payloads)
  ∧ (p <= length payloads)%nat.

(** The input file is a named file that holds the records [payloads]. *)
Definition file_of (fs : gmap string (list byte)) (payloads : list (list byte))
    (f : InFile) : Prop :=
  names_a_file (filename_ f)
  ∧ ∃ contents,
      fs !! filename_ f = Some contents
      ∧ (if endswith (filename_ f) ".gz" then gunzip contents else contents)
        = records payloads.

(** *** [InFile::read], [OutFile::write] and [protobuf_load] *)




(** *** [InFile::cyclic_read_stream] *)

(** [LOOM_ASSERT2(cond, msg)] *)
Definition loom_assert2 {S} (cond : bool) (msg : string) : M S unit :=
  if decide (2 <= DEBUG_LEVEL)%nat then loom_assert cond msg else ret tt.

Definition cyclic_read_stream (fs : gmap string (list byte)) : M InFile Message :=
  let* is_file := gets is_file_ in
  loom_assert2 is_file "only files support cyclic_read_stream" >>
  let* got := try_read_stream in
  match got with
  | Some message => ret message
  | None =>
      reopen fs >>
      let* again := try_read_stream in
      match again with
      | Some message => ret message
      | None => fun f => Fatal "stream is empty" f
      end
  end.

(** *** [InFile::stream_stats] *)

Record StreamStats : Type := {
  is_file : bool;
  message_count : Z;
  max_message_size : Z;
}.

(** [while (true)] of [stream_stats]; a turn that counts a record uses up
    at least its four-byte prefix, so as many turns as there are unread
    bytes, and one more, always reach the [break]. [after] is what the turn
    does once the record is counted. *)
Definition count_record (stats : StreamStats)
    (after : StreamStats -> M InFile StreamStats) : M InFile StreamStats :=
  let* stream := gets stream_ in
  let* seeks := gets seekable in
  let '(readable, message_size, rest) := ReadLittleEndian32 stream in
  if readable then
    let '(success, rest') := Skip seeks (int_of_uint32 message_size) rest in
    set_stream rest' >>
    loom_assert success "failed to count" >>
    after {| is_file := is_file stats;
             message_count := (message_count stats + 1) mod 2 ^ 64;
             max_message_size := Z.max (max_message_size stats) message_size |}
  else set_stream rest >> ret stats.

Fixpoint count_records (turns : nat) (stats : StreamStats) : M InFile StreamStats :=
  count_record stats
    (match turns with
     | O => fun _ f => Undefined f
     | S turns' => count_records turns'
     end).

Definition stream_stats (os : OS) (filename : string) : outcome InFile StreamStats :=
  and_then (InFile_of_filename os filename)
    (let* file_is_file := gets is_file_ in
     let* stream := gets stream_ in
     count_records (length stream)
       {| is_file := file_is_file; message_count := 0; max_message_size := 0 |}).

(** The largest length among [payloads], 0 when there is none. *)
Definition max_size (payloads : list (list byte)) : Z :=
  foldr (fun payload m => Z.max (Z.of_nat (length payload)) m) 0 payloads.

(** The named file [filename] holds the records [payloads], followed by
    [trailer]. *)
Definition holds (os : OS) (filename : string) (payloads : list (list byte))
    (trailer : list byte) : Prop :=
  names_a_file filename
  ∧ ∃ contents,
      files os !! filename = Some contents
      ∧ (if endswith filename ".gz" then gunzip contents else contents)
        = records payloads ++ trailer.

End Stream.

(** Messages that are their own serialization, and a platform without
    compression, to run the stream on concrete bytes. *)
Module StreamExample.

#[local] Instance raw_messages : MessageType := {|
  Message := list byte;
  serialize := fun m => m;
  parse := Some;
  IsInitialized := fun _ => true;
|}.

#[local] Instance plain : Platform := {|
  DEBUG_LEVEL := 1;
  gzip := fun bytes => bytes;
  gunzip := fun bytes => bytes;
  read_ahead := fun _ => 0%nat;
|}.

Definition two_records : list (list byte) :=
  [[Byte.x01]; [Byte.x02; Byte.x03]].

(** A descriptor that will deliver the two records. *)
Definition pipe : OS := {| files := ∅; fd_pending := records two_records |}.

(** A file system with the file [name] holding the two records. *)
Definition disk (name : string) : OS :=
  {| files := {[ name := records two_records ]}; fd_pending := [] |}.

(** The input file on ["records.pbs"] after both of its records. *)
Definition at_end : InFile :=
  {| filename_ := "records.pbs"; is_file_ := true; stream_ := []; position_ := 2 |}.



(** A platform that checks the assertions of debug level 2. *)
#[local] Instance strict : Platform := {|
  DEBUG_LEVEL := 2;
  gzip := fun bytes => bytes;
  gunzip := fun bytes => bytes;
  read_ahead := fun _ => 0%nat;
|}.

(** The input file on ["records.pbs"] before its first record. *)
Definition at_start : InFile :=
  {| filename_ := "records.pbs"; is_file_ := true;
     stream_ := records two_records; position_ := 0 |}.


(** A file with the two records and one stray byte after them. *)
Definition stray : OS :=
  {| files := {[ "records.pbs" := records two_records ++ [Byte.x07] ]};
     fd_pending := [] |}.

(** A file that ends in the middle of its second record. *)
Definition cut_short : OS :=
  {| files := {[ "records.pbs" := record [Byte.x01] ++ [Byte.x02; Byte.x00; Byte.x00; Byte.x00; Byte.x03] ]};
     fd_pending := [] |}.

End StreamExample.

End ProtobufStream.

(** ** A small instance

    Collaborators without statistics, to run the kernel on concrete
    partitions: the sampler alternates between groups 0 and 1, and the
    proposer follows a fixed plan. *)

Module Example.

#[local] Instance collaborators : Collaborators := {|
  Clustering := unit;
  FeatureModels := unit;
  ProductMixture := list Z;
  GridPoint := unit;
  rng_t := nat;
  ProductValue := unit;
  Splitter := list nat * nat;
  ProposerRest := unit;
  LOOM_DEBUG_LEVEL := 0;
  default_model := {| clustering := tt; features := tt |};
  default_mixture := [];
  model_clear := fun m => m;
  sample_clustering_prior := fun _ rng => (tt, S rng);
  sample_assignments := fun _ n rng =>
    ((fun row => Z.of_nat (row mod 2)) <$> seq 0 n, S rng);
  count_rows := fun counts => Z.to_nat (foldr Z.add 0%Z counts);
  rng_seed := Z.to_nat;
  splitter_init := pair;
  init_unobserved := fun _ counts rng => (counts, S rng);
  move_feature_to := fun proposed _ source_model source destin_model destin _ rng =>
    (proposed, (source_model, source), (destin_model, destin), S rng);
|}.

(** A proposer that answers with [plan old_kindids kind_count]. *)
Definition planned (plan : list nat -> nat -> list nat) : Proposer := {|
  proposer_new := {| p_kinds := []; p_rest := tt |};
  infer_assignments := fun _ cc old_kindids _ _ rng _ =>
    (plan old_kindids (length (kinds cc)),
     {| tare := 0; score := 0; sample := 0 |},
     {| p_kinds :=
          (fun kind => {| p_model := model kind; p_mixture := mixture kind |})
            <$> kinds cc;
        p_rest := tt |},
     S rng);
  mixture_init_unobserved := fun cc rng p =>
    ({| p_kinds :=
          (fun kind => {| p_model := model kind; p_mixture := mixture kind |})
            <$> kinds cc;
        p_rest := tt |},
     S rng);
  proposer_clear := fun _ => {| p_kinds := []; p_rest := tt |};
|}.

(** The plans: propose what is there; move the last feature into kind 1;
    move the first feature into the last kind. *)
Definition stay (old_kindids : list nat) (kind_count : nat) : list nat :=
  old_kindids.

Definition last_feature_to_1 (old_kindids : list nat) (kind_count : nat) : list nat :=
  <[length old_kindids - 1 := 1]> old_kindids.

Definition first_feature_to_last (old_kindids : list nat) (kind_count : nat)
  : list nat :=
  <[0 := kind_count - 1]> old_kindids.

Definition config : Config := {|
  cat_empty_group_count := 1;
  kind_empty_kind_count := 2;
  kind_iterations := 1;
  kind_score_parallel := false;
  hyper_run := false;
|}.

Definition kind_of (featureids : list nat) : Kind := {|
  model := default_model;
  mixture := [2; 1]%Z;
  featureids := list_to_set featureids;
|}.

(** One kind that owns the features 0, 1 and 2, over three rows. *)
Definition one_kind : CrossCat := {|
  hyper_prior_clustering := [];
  kinds := [kind_of [0; 1; 2]];
  featureid_to_kindid := [0; 0; 0];
  splitter := ([0; 0; 0], 1);
|}.

Definition three_rows : Assignments := {|
  keys := [10; 11; 12];
  values := [[0; 1; 0]%Z];
|}.

(** An empty kind, a kind that owns the features 0 and 1, an empty kind. *)
Definition empty_full_empty : CrossCat := {|
  hyper_prior_clustering := [tt];
  kinds := [kind_of []; kind_of [0; 1]; kind_of []];
  featureid_to_kindid := [1; 1];
  splitter := ([1; 1], 3);
|}.

(** A kind that owns the features 0, 1 and 2, and two empty kinds. *)
Definition full_empty_empty : CrossCat := {|
  hyper_prior_clustering := [];
  kinds := [kind_of [0; 1; 2]; kind_of []; kind_of []];
  featureid_to_kindid := [0; 0; 0];
  splitter := ([0; 0; 0], 3);
|}.

(** Three kinds: two that own one feature each, and an empty one. *)
Definition one_one_empty : CrossCat := {|
  hyper_prior_clustering := [];
  kinds := [kind_of [0]; kind_of [1]; kind_of []];
  featureid_to_kindid := [0; 1];
  splitter := ([0; 1], 3);
|}.

Definition three_columns : Assignments := {|
  keys := [10; 11; 12];
  values := [[0; 1; 0]; [0; 0; 0]; [0; 1; 0]]%Z;
|}.

(** The members of a kernel over a partition, before the constructor's
    body runs. *)
Definition members (proposer : Proposer) (cc : CrossCat) (a : Assignments)
  : KindKernel :=
  initial_members config tt cc a 0.

(** A configuration that asks for no iteration. *)
Definition no_iterations : Config := {|
  cat_empty_group_count := 1;
  kind_empty_kind_count := 2;
  kind_iterations := 0;
  kind_score_parallel := false;
  hyper_run := false;
|}.

(** The same collaborators with the assertions of debug level 1 compiled
    in, a proposer that mirrors one kind and proposes what is there, and a
    kernel whose table knows two rows while the mixture of kind 0 counts
    three. *)
Definition checked : Collaborators := {|
  Clustering := unit;
  FeatureModels := unit;
  ProductMixture := list Z;
  GridPoint := unit;
  rng_t := nat;
  ProductValue := unit;
  Splitter := list nat * nat;
  ProposerRest := unit;
  LOOM_DEBUG_LEVEL := 1;
  default_model := {| clustering := tt; features := tt |};
  default_mixture := [];
  model_clear := fun m => m;
  sample_clustering_prior := fun _ rng => (tt, S rng);
  sample_assignments := fun _ n rng =>
    ((fun row => Z.of_nat (row mod 2)) <$> seq 0 n, S rng);
  count_rows := fun counts => Z.to_nat (foldr Z.add 0%Z counts);
  rng_seed := Z.to_nat;
  splitter_init := pair;
  init_unobserved := fun _ counts rng => (counts, S rng);
  move_feature_to := fun proposed _ source_model source destin_model destin _ rng =>
    (proposed, (source_model, source), (destin_model, destin), S rng);
|}.

Definition watched : @Proposer checked := {|
  proposer_new :=
    {| p_kinds := [{| p_model := @default_model checked; p_mixture := [2; 1]%Z |}];
       p_rest := tt |};
  infer_assignments := fun _ _ old_kindids _ _ rng proposer =>
    (old_kindids, {| tare := 0; score := 0; sample := 0 |}, proposer, rng);
  mixture_init_unobserved := fun _ rng proposer => (proposer, rng);
  proposer_clear := fun proposer => proposer;
|}.

Definition miscounted : @KindKernel checked :=
  @initial_members checked watched config tt
    {| hyper_prior_clustering := [];
       kinds := [{| model := @default_model checked; mixture := [2; 1]%Z;
                    featureids := list_to_set [0; 1; 2] |}];
       featureid_to_kindid := [0; 0; 0];
       splitter := ([0; 0; 0], 1) |}
    {| keys := [10; 11]; values := [[0; 1]%Z] |} 0.

End Example.

(** * Properties of the kind kernel *)

Section KernelProofs.

Context `{Collaborators} `{!Proposer}.

(** ** Packed vectors *)

Lemma length_packed_remove {A} (pos : nat) (l : list A) :
  length (packed_remove pos l) = length l - 1.
Proof.
  unfold packed_remove. destruct (last l) eqn:Hlast.
  - case_decide; rewrite length_take ?length_insert; lia.
  - apply last_None in Hlast. by subst.
Qed.

Lemma lookup_packed_remove {A} (pos i : nat) (l : list A) :
  pos < length l →
  packed_remove pos l !! i =
    if decide (i < length l - 1)
    then if decide (i = pos) then last l else l !! i
    else None.
Proof.
  intros Hpos. unfold packed_remove.
  destruct (last l) as [x|] eqn:Hlast.
  - destruct (decide (i < length l - 1)) as [Hi|Hi].
    + destruct (decide (pos = length l - 1)) as [->|Hp].
      * rewrite lookup_take_lt; [lia|]. destruct (decide (i = length l - 1)); [lia|done].
      * rewrite lookup_take_lt; [lia|]. destruct (decide (i = pos)) as [->|Hne].
        -- by rewrite list_lookup_insert_eq.
        -- by rewrite list_lookup_insert_ne.
    + destruct (decide (pos = length l - 1));
        rewrite lookup_take_ge ?length_insert; (lia || done).
  - apply last_None in Hlast. subst. simpl in Hpos. lia.
Qed.

Lemma packed_remove_last {A} (l : list A) :
  packed_remove (length l - 1) l = take (length l - 1) l.
Proof.
  unfold packed_remove. destruct (last l) eqn:Hlast.
  - by rewrite decide_True.
  - apply last_None in Hlast. by subst.
Qed.

Lemma lookup_packed_add {A} (x : A) (l : list A) (i : nat) :
  packed_add x l !! i =
    if decide (i = length l) then Some x else l !! i.
Proof.
  unfold packed_add. case_decide; subst.
  - by rewrite lookup_app_r ?Nat.sub_diag.
  - destruct (decide (i < length l)).
    + by rewrite lookup_app_l.
    + rewrite !lookup_ge_None_2 ?length_app; simpl; try lia. done.
Qed.

(** ** Repointing the map *)

Lemma length_repoint kindid fs m : length (repoint kindid fs m) = length m.
Proof.
  revert m. induction fs as [|f fs IH]; intros m; simpl; [done|].
  unfold repoint in *. simpl. by rewrite IH length_insert.
Qed.

Lemma lookup_repoint kindid fs (m : list nat) (g : nat) :
  repoint kindid fs m !! g =
    if decide (g ∈ fs ∧ g < length m) then Some kindid else m !! g.
Proof.
  revert m. induction fs as [|f fs IH]; intros m.
  - done.
  - change (repoint kindid (f :: fs) m) with (repoint kindid fs (<[f:=kindid]> m)).
    rewrite IH length_insert.
    destruct (decide (g ∈ fs ∧ g < length m)) as [[Hin Hlt]|Hn].
    + rewrite decide_True; [split; [by right|done]|done].
    + destruct (decide (g = f)) as [->|Hne].
      * destruct (decide (f < length m)).
        -- rewrite list_lookup_insert_eq; [done|].
           rewrite decide_True; [split; [left|done] | done].
        -- rewrite list_insert_ge; [lia|].
           rewrite decide_False; [intros [_ ?]; lia | done].
      * rewrite list_lookup_insert_ne; [done|]. rewrite decide_False; [|done].
        intros [Hin ?]. apply elem_of_cons in Hin as [?|?]; [done|]. by apply Hn.
Qed.

(** ** Stepping through a computation *)

Lemma bind_Done {S A B} (c : M S A) (k : A → M S B) s a s' :
  c s = Done a s' → bind c k s = k a s'.
Proof. unfold bind. by intros ->. Qed.

Lemma bind_Fatal {S A B} (c : M S A) (k : A → M S B) s msg s' :
  c s = Fatal msg s' → bind c k s = Fatal msg s'.
Proof. unfold bind. by intros ->. Qed.

Lemma kind_at_Some kindid kind s :
  kinds (cross_cat_ s) !! kindid = Some kind → kind_at kindid s = Done kind s.
Proof. unfold kind_at, in_bounds. by intros ->. Qed.

(** ** Features a kind owns are inside the map *)

Lemma owned_in_map cc kindid kind :
  bijection cc →
  kinds cc !! kindid = Some kind →
  Forall (fun featureid => featureid < length (featureid_to_kindid cc))
         (elements (featureids kind)).
Proof.
  intros [_ Hown] Hkind. apply Forall_forall. intros f Hf.
  apply elem_of_elements in Hf.
  eapply lookup_lt_Some, Hown; eauto.
Qed.

Lemma set_kindid_Done featureid kindid s :
  featureid < length (featureid_to_kindid (cross_cat_ s)) →
  set_kindid featureid kindid s =
    Done tt
      (with_cross_cat
         (fun cc =>
            set_featureid_to_kindid
              (<[featureid := kindid]> (featureid_to_kindid cc)) cc)
         s).
Proof.
  intros Hf. apply lookup_lt_is_Some in Hf as [k0 Hk0].
  unfold set_kindid, bind, kindid_of, in_bounds, modify. by rewrite Hk0.
Qed.

Lemma for_each_set_kindid kindid fs s :
  Forall (fun f => f < length (featureid_to_kindid (cross_cat_ s))) fs →
  for_each fs (fun f => set_kindid f kindid) s =
    Done tt
      (with_cross_cat
         (fun cc =>
            set_featureid_to_kindid (repoint kindid fs (featureid_to_kindid cc)) cc)
         s).
Proof.
  revert s. induction fs as [|f fs IH]; intros s Hfs.
  - simpl. unfold ret. f_equal. by destruct s as [? ? ? ? ? ? [] ? ? ? ? ? ? ? ? ? ?].
  - apply Forall_cons in Hfs as [Hf Hfs].
    simpl. rewrite (bind_Done _ _ _ _ _ (set_kindid_Done _ _ _ Hf)).
    rewrite IH; [by simpl; rewrite length_insert|]. done.
Qed.

(** ** Removing a featureless kind *)

Lemma remove_featureless_kind_Done kindid kind s :
  bijection (cross_cat_ s) →
  kinds (cross_cat_ s) !! kindid = Some kind →
  featureids kind = ∅ →
  kindid < length (values (assignments_ s)) →
  remove_featureless_kind kindid s = Done tt (removed kindid s).
Proof.
  intros Hbij Hkind Hempty Hcol.
  apply lookup_lt_is_Some in Hcol as [col Hcol].
  unfold remove_featureless_kind.
  rewrite (bind_Done _ _ _ _ _ (kind_at_Some _ _ _ Hkind)).
  unfold loom_assert. rewrite bool_decide_eq_true_2; [done|].
  unfold bind at 1. unfold bind at 1. unfold modify at 1.
  unfold bind at 1. unfold bind at 1. unfold bind at 1. unfold gets at 1.
  unfold in_bounds. simpl. rewrite Hcol. unfold modify at 1.
  unfold bind, gets. simpl.
  pose proof (lookup_lt_Some _ _ _ Hkind) as Hlt.
  rewrite length_packed_remove.
  unfold removed.
  destruct (decide (kindid < length (kinds (cross_cat_ s)) - 1)) as [Hin|Hout].
  - assert (is_Some (packed_remove kindid (kinds (cross_cat_ s)) !! kindid)) as [k' Hk'].
    { apply lookup_lt_is_Some. by rewrite length_packed_remove. }
    unfold kind_at, in_bounds. simpl. rewrite Hk'.
    rewrite for_each_set_kindid.
    { simpl. rewrite lookup_packed_remove in Hk'; [done|].
      rewrite !decide_True in Hk'; [done..|].
      rewrite last_lookup in Hk'.
      eapply owned_in_map; eauto. }
    unfold with_cross_cat, with_assignments. simpl. by rewrite Hk'.
  - unfold ret, with_cross_cat, with_assignments. simpl.
    rewrite lookup_ge_None_2; [rewrite length_packed_remove; lia|]. done.
Qed.

Lemma last_kind_lookup {A} (l : list A) (pos : nat) :
  pos < length l → ∃ x, last l = Some x ∧ l !! (length l - 1) = Some x.
Proof.
  intros Hpos. destruct (last l) as [x|] eqn:Hlast.
  - exists x. split; [done|]. rewrite last_lookup in Hlast.
    by replace (length l - 1) with (Nat.pred (length l)) by lia.
  - apply last_None in Hlast. subst. simpl in Hpos. lia.
Qed.

Lemma removed_bijection kindid kind s :
  bijection (cross_cat_ s) →
  kinds (cross_cat_ s) !! kindid = Some kind →
  featureids kind = ∅ →
  bijection (cross_cat_ (removed kindid s)).
Proof.
  intros [Hmap Hown] Hkind Hempty.
  pose proof (lookup_lt_Some _ _ _ Hkind) as Hlt.
  destruct (last_kind_lookup _ _ Hlt) as (lk & Hlast & Hlk).
  unfold removed, with_cross_cat, with_assignments; simpl.
  set (ks := kinds (cross_cat_ s)) in *.
  set (m := featureid_to_kindid (cross_cat_ s)) in *.
  assert (Hne : ∀ kid k f, ks !! kid = Some k → f ∈ featureids k → kid ≠ kindid).
  { intros kid k f Hk Hf ->. rewrite Hkind in Hk. injection Hk as <-.
    rewrite Hempty in Hf. set_solver. }
  destruct (decide (kindid < length ks - 1)) as [Hin|Hout].
  - assert (Hrel : packed_remove kindid ks !! kindid = Some lk).
    { rewrite lookup_packed_remove; [done|]. by rewrite !decide_True. }
    rewrite Hrel. split; simpl.
    + intros f kid. rewrite lookup_repoint. case_decide as Hd.
      * intros [= <-]. exists lk. split; [done|]. apply elem_of_elements. tauto.
      * intros Hf. destruct (Hmap _ _ Hf) as (k & Hk & Hfk).
        exists k. split; [|done].
        rewrite lookup_packed_remove; [done|].
        assert (kid ≠ length ks - 1).
        { intros ->. apply Hd. split.
          - apply elem_of_elements. congruence.
          - eapply lookup_lt_Some; eauto. }
        pose proof (lookup_lt_Some _ _ _ Hk).
        rewrite decide_True; [lia|]. rewrite decide_False; [by eapply Hne|done].
    + intros kid k f. rewrite lookup_packed_remove; [done|].
      case_decide; [|done]. case_decide.
      * subst. rewrite Hlast. intros [= <-] Hf.
        rewrite lookup_repoint decide_True; [|done].
        split; [by apply elem_of_elements|]. eapply lookup_lt_Some, Hown; eauto.
      * intros Hk Hf. rewrite lookup_repoint decide_False; [|by eapply Hown].
        intros [Hin' _]. apply elem_of_elements in Hin'.
        pose proof (Hown _ _ _ Hlk Hin') as E1.
        pose proof (Hown _ _ _ Hk Hf) as E2.
        rewrite E1 in E2. injection E2. lia.
  - rewrite lookup_ge_None_2; [rewrite length_packed_remove; lia|].
    split; simpl.
    + intros f kid Hf. destruct (Hmap _ _ Hf) as (k & Hk & Hfk).
      exists k. split; [|done].
      rewrite lookup_packed_remove; [done|].
      pose proof (lookup_lt_Some _ _ _ Hk).
      pose proof (Hne _ _ _ Hk Hfk).
      rewrite decide_True; [lia|]. by rewrite decide_False.
    + intros kid k f. rewrite lookup_packed_remove; [done|].
      case_decide; [|done]. rewrite decide_False; [lia|]. apply Hown.
Qed.

Lemma removed_aligned kindid s :
  aligned s →
  kindid < length (kinds (cross_cat_ s)) →
  aligned (removed kindid s).
Proof.
  intros [Hlen Hcols] Hlt. unfold aligned, removed, with_cross_cat, with_assignments.
  simpl. rewrite !length_packed_remove. split; [lia|].
  apply Forall_lookup. intros i col.
  rewrite lookup_packed_remove; [lia|].
  rewrite Forall_lookup in Hcols.
  case_decide; [|done]. case_decide.
  - rewrite last_lookup. apply Hcols.
  - apply Hcols.
Qed.

(** ** Validation decides the bijection *)

Lemma forallb_imap_pair {A} (f : nat * A → bool) (l : list A) :
  forallb f (imap pair l) = true ↔ ∀ i x, l !! i = Some x → f (i, x) = true.
Proof.
  rewrite forallb_forall. split.
  - intros Hall i x Hix. apply Hall, list_elem_of_In.
    by apply (elem_of_lookup_imap_2 pair).
  - intros Hall [i x] Hin. apply list_elem_of_In, elem_of_lookup_imap_1 in Hin.
    destruct Hin as (j & y & [= -> ->] & Hjy). by apply Hall.
Qed.

Lemma image_is_occupied_spec cc :
  image_is_occupied cc = true ↔
  (∀ kindid, kindid ∈ featureid_to_kindid cc → kindid < length (kinds cc))
  ∧ (∀ kindid kind, kinds cc !! kindid = Some kind →
       kindid ∈ featureid_to_kindid cc ↔ featureids kind ≠ ∅).
Proof.
  unfold image_is_occupied. rewrite andb_true_iff forallb_forall forallb_imap_pair.
  split; intros [Hrange Himg]; split.
  - intros kid Hkid. apply Nat.ltb_lt, Hrange. by apply list_elem_of_In.
  - intros kid kind Hk. specialize (Himg _ _ Hk). apply eqb_prop in Himg.
    destruct (decide (featureids kind = ∅)) as [He|He].
    + rewrite (bool_decide_eq_true_2 _ He) in Himg.
      apply bool_decide_eq_false in Himg. tauto.
    + rewrite (bool_decide_eq_false_2 _ He) in Himg.
      apply bool_decide_eq_true in Himg. tauto.
  - intros kid Hkid. apply Nat.ltb_lt, Hrange. by apply list_elem_of_In.
  - intros kid kind Hk. specialize (Himg _ _ Hk).
    destruct (decide (featureids kind = ∅)) as [He|He].
    + rewrite (bool_decide_eq_true_2 _ He) bool_decide_eq_false_2; [tauto|done].
    + rewrite (bool_decide_eq_false_2 _ He) bool_decide_eq_true_2; [tauto|done].
Qed.

Lemma owned_sets_agree_spec cc :
  owned_sets_agree cc = true ↔
  ∀ kindid kind, kinds cc !! kindid = Some kind →
    (∀ featureid, featureid ∈ featureids kind →
       featureid_to_kindid cc !! featureid = Some kindid)
    ∧ (∀ featureid, featureid_to_kindid cc !! featureid = Some kindid →
         featureid ∈ featureids kind).
Proof.
  unfold owned_sets_agree. rewrite forallb_imap_pair.
  split; intros Hall kid kind Hk; specialize (Hall _ _ Hk).
  - apply andb_true_iff in Hall as [Hown Hmap].
    rewrite forallb_forall in Hown. rewrite forallb_imap_pair in Hmap. split.
    + intros f Hf. eapply bool_decide_eq_true, Hown, list_elem_of_In.
      by apply elem_of_elements.
    + intros f Hf. specialize (Hmap _ _ Hf). simpl in Hmap.
      rewrite Nat.eqb_refl in Hmap. by apply bool_decide_eq_true in Hmap.
  - destruct Hall as [Hown Hmap]. apply andb_true_iff. split.
    + apply forallb_forall. intros f Hf. apply bool_decide_eq_true, Hown.
      by apply elem_of_elements, list_elem_of_In.
    + apply forallb_imap_pair. intros f kid' Hf.
      destruct (Nat.eqb_spec kid' kid) as [->|]; [|done]. simpl.
      by apply bool_decide_eq_true, Hmap.
Qed.

Lemma validate_complete cc :
  bijection cc → image_is_occupied cc = true ∧ owned_sets_agree cc = true.
Proof.
  intros [Hmap Hown]. split.
  - apply image_is_occupied_spec. split.
    + intros kid Hkid. apply list_elem_of_lookup in Hkid as [f Hf].
      destruct (Hmap _ _ Hf) as (k & Hk & _). by eapply lookup_lt_Some.
    + intros kid kind Hk. split.
      * intros Hkid. apply list_elem_of_lookup in Hkid as [f Hf].
        destruct (Hmap _ _ Hf) as (k & Hk' & Hfk). set_solver.
      * intros Hne. apply set_choose_L in Hne as [f Hf].
        apply list_elem_of_lookup. exists f. eauto.
  - apply owned_sets_agree_spec. intros kid kind Hk. split.
    + intros f Hf. eauto.
    + intros f Hf. destruct (Hmap _ _ Hf) as (k & Hk' & Hfk). congruence.
Qed.

Lemma validate_sound cc :
  image_is_occupied cc = true → owned_sets_agree cc = true → bijection cc.
Proof.
  intros Himg Hown.
  apply image_is_occupied_spec in Himg as [Hrange _].
  pose proof (proj1 (owned_sets_agree_spec cc) Hown) as Hown'.
  clear Hown. rename Hown' into Hown. split.
  - intros f kid Hf.
    assert (kid < length (kinds cc)) as [k Hk]%lookup_lt_is_Some.
    { apply Hrange, list_elem_of_lookup. eauto. }
    exists k. split; [done|]. by apply (Hown _ _ Hk).
  - intros kid k f Hk Hf. by apply (Hown _ _ Hk).
Qed.

Lemma cross_cat_validate_Done s :
  bijection (cross_cat_ s) → cross_cat_validate s = Done tt s.
Proof.
  intros [Himg Hown]%validate_complete.
  unfold cross_cat_validate, bind, gets, loom_assert. by rewrite Himg Hown.
Qed.

Lemma cross_cat_validate_inv s a s' :
  cross_cat_validate s = Done a s' → s' = s ∧ bijection (cross_cat_ s).
Proof.
  unfold cross_cat_validate, bind, gets, loom_assert.
  destruct (image_is_occupied _) eqn:Himg; [|done].
  destruct (owned_sets_agree _) eqn:Hown; [|done].
  intros [= _ <-]. split; [done|]. by apply validate_sound.
Qed.

Lemma assignments_validate_Done s :
  Forall (fun column => length column = row_count (assignments_ s))
         (values (assignments_ s)) →
  assignments_validate s = Done tt s.
Proof.
  intros Hcols. unfold assignments_validate, bind, gets, loom_assert.
  rewrite (proj2 (forallb_forall _ _)); [|done].
  intros col Hcol%list_elem_of_In. rewrite Forall_forall in Hcols.
  by apply Nat.eqb_eq, Hcols.
Qed.

Lemma assignments_validate_inv s a s' :
  assignments_validate s = Done a s' →
  s' = s ∧ Forall (fun column => length column = row_count (assignments_ s))
                  (values (assignments_ s)).
Proof.
  unfold assignments_validate, bind, gets, loom_assert.
  destruct (forallb _ _) eqn:Hall; [|done]. intros [= _ <-]. split; [done|].
  rewrite forallb_forall in Hall. apply Forall_forall.
  intros col Hcol%list_elem_of_In. by apply Nat.eqb_eq, Hall.
Qed.

(** ** The bijection in terms of the owned sets *)

Lemma bijection_bij cc :
  bijection cc ↔ bij (owned_sets cc) (featureid_to_kindid cc).
Proof.
  unfold bijection, bij, owned_sets. split; intros [Hmap Hown]; split.
  - intros f kid Hf. destruct (Hmap _ _ Hf) as (k & Hk & Hfk).
    exists (featureids k). by rewrite list_lookup_fmap Hk.
  - intros kid X f. rewrite list_lookup_fmap.
    destruct (kinds cc !! kid) as [k|] eqn:Hk; [|done].
    intros [= <-]. eauto.
  - intros f kid Hf. destruct (Hmap _ _ Hf) as (X & HX & HfX).
    rewrite list_lookup_fmap in HX.
    destruct (kinds cc !! kid) as [k|] eqn:Hk; [|done].
    injection HX as <-. eauto.
  - intros kid k f Hk Hf. apply (Hown kid (featureids k)); [|done].
    by rewrite list_lookup_fmap Hk.
Qed.

Lemma bij_move sets m f old_kindid new_kindid :
  bij sets m →
  m !! f = Some old_kindid →
  new_kindid ≠ old_kindid →
  new_kindid < length sets →
  bij (alter (fun X => {[f]} ∪ X) new_kindid
         (alter (fun X => X ∖ {[f]}) old_kindid sets))
      (<[f := new_kindid]> m).
Proof.
  intros [Hmap Hown] Hf Hne Hnew.
  pose proof (lookup_lt_Some _ _ _ Hf) as Hflt.
  split.
  - intros g kid. destruct (decide (g = f)) as [->|Hgf].
    + rewrite list_lookup_insert_eq; [done|]. intros [= <-].
      apply lookup_lt_is_Some in Hnew as [X HX].
      exists ({[f]} ∪ X). split; [|set_solver].
      by rewrite list_lookup_alter_eq list_lookup_alter_ne ?HX.
    + rewrite list_lookup_insert_ne; [done|]. intros Hg.
      destruct (Hmap _ _ Hg) as (X & HX & HgX).
      rewrite !list_lookup_alter.
      repeat case_decide; subst; rewrite ?list_lookup_alter_eq ?HX; simpl;
        eexists; (split; [done|]); set_solver.
  - intros kid X g. rewrite !list_lookup_alter.
    assert (Hcase : ∀ Y, sets !! kid = Some Y → g ∈ Y → g ≠ f →
                         <[f:=new_kindid]> m !! g = Some kid).
    { intros Y HY HgY Hgf. rewrite list_lookup_insert_ne; [done|]. eauto. }
    destruct (decide (new_kindid = kid)) as [->|Hnk].
    + rewrite decide_False; [done|].
      destruct (sets !! kid) as [Y|] eqn:HY; [|done]. simpl.
      intros [= <-] [->%elem_of_singleton|HgY]%elem_of_union.
      * by rewrite list_lookup_insert_eq.
      * destruct (decide (g = f)) as [->|Hgf]; [|by eapply Hcase].
        by rewrite list_lookup_insert_eq.
    + destruct (decide (old_kindid = kid)) as [->|Hok].
      * destruct (sets !! kid) as [Y|] eqn:HY; [|done]. simpl.
        intros [= <-] [HgY Hgf%not_elem_of_singleton]%elem_of_difference.
        by eapply Hcase.
      * intros HX HgX. eapply Hcase; [done..|].
        intros ->. pose proof (Hown _ _ _ HX HgX). congruence.
Qed.

(** ** Moving a feature *)

Lemma move_feature_to_kind_Done featureid new_kindid old_kindid s :
  bijection (cross_cat_ s) →
  Forall (fun column => length column = row_count (assignments_ s))
         (values (assignments_ s)) →
  featureid_to_kindid (cross_cat_ s) !! featureid = Some old_kindid →
  new_kindid ≠ old_kindid →
  new_kindid < length (kinds (cross_cat_ s)) →
  new_kindid < length (p_kinds (kind_proposer_ s)) →
  ∃ s', move_feature_to_kind featureid new_kindid s = Done tt s'
    ∧ featureid_to_kindid (cross_cat_ s') =
        <[featureid := new_kindid]> (featureid_to_kindid (cross_cat_ s))
    ∧ owned_sets (cross_cat_ s') =
        alter (fun X => {[featureid]} ∪ X) new_kindid
          (alter (fun X => X ∖ {[featureid]}) old_kindid
             (owned_sets (cross_cat_ s)))
    ∧ assignments_ s' = assignments_ s
    ∧ length (p_kinds (kind_proposer_ s')) = length (p_kinds (kind_proposer_ s))
    ∧ settings s' = settings s
    ∧ counters s' = counters s
    ∧ bijection (cross_cat_ s').
Proof.
  intros Hbij Hcols Hf Hne Hnew Hprop.
  destruct (proj1 Hbij _ _ Hf) as (old_kind & Hold & _).
  destruct (lookup_lt_is_Some_2 _ _ Hnew) as [new_kind Hnewk].
  destruct (lookup_lt_is_Some_2 _ _ Hprop) as [pk Hpk].
  unfold move_feature_to_kind.
  unfold bind at 1. unfold kindid_of at 1, in_bounds at 1. rewrite Hf.
  unfold bind at 1. unfold loom_assert at 1. rewrite bool_decide_eq_true_2; [done|].
  rewrite (bind_Done _ _ _ _ _ (kind_at_Some _ _ _ Hold)).
  rewrite (bind_Done _ _ _ _ _ (kind_at_Some _ _ _ Hnewk)).
  unfold bind at 1. unfold proposed_kind_at at 1, in_bounds at 1. rewrite Hpk.
  unfold bind at 1. unfold gets at 1. unfold bind at 1. unfold gets at 1.
  destruct (move_feature_to _ _ _ _ _ _ _ _) as [[[pm [om omx]] [nm nmx]] rng'].
  cbv [bind set_proposed_mixture update_kind modify update_splitter].
  rewrite set_kindid_Done.
  { simpl. by eapply lookup_lt_Some. }
  match goal with
  | |- ∃ s', match cross_cat_validate ?s1 with _ => _ end = _ ∧ _ =>
      set (moved := s1)
  end.
  assert (Hmap : featureid_to_kindid (cross_cat_ moved) =
                 <[featureid := new_kindid]> (featureid_to_kindid (cross_cat_ s)))
    by done.
  assert (Hsets : owned_sets (cross_cat_ moved) =
                  alter (fun X => {[featureid]} ∪ X) new_kindid
                    (alter (fun X => X ∖ {[featureid]}) old_kindid
                       (owned_sets (cross_cat_ s)))).
  { unfold owned_sets, moved. simpl.
    rewrite (list_fmap_alter featureids _ (fun X => {[featureid]} ∪ X));
      [by apply Forall_true|].
    rewrite (list_fmap_alter featureids _ (fun X => X ∖ {[featureid]}));
      [by apply Forall_true|].
    rewrite !(list_fmap_alter featureids _ id); [by apply Forall_true..|].
    by rewrite !(list_alter_id id). }
  assert (Hbij' : bijection (cross_cat_ moved)).
  { apply bijection_bij. rewrite Hmap Hsets. apply bij_move; try done.
    - by apply bijection_bij.
    - unfold owned_sets. by rewrite length_fmap. }
  rewrite (cross_cat_validate_Done _ Hbij').
  rewrite assignments_validate_Done; [done|].
  exists moved. repeat split; try done.
  - unfold moved. simpl. by rewrite length_alter.
  - apply Hbij'.
  - apply Hbij'.
Qed.

(** ** Adding a featureless kind *)

Lemma with_assignments_id s :
  with_assignments (fun a => set_values (values a) a) s = s.
Proof. by destruct s as [? ? ? ? ? ? ? [] ? ? ? ? ? ? ? ? ?]. Qed.

Lemma length_tallied av counts : length (tallied av counts) = length counts.
Proof.
  revert counts. induction av as [|g av IH]; intros counts; [done|].
  unfold tallied in *. simpl. by rewrite IH length_alter.
Qed.

Lemma size_t_of_int_nonneg g : (0 ≤ g < 2 ^ 31)%Z → size_t_of_int g = g.
Proof. intros Hg. unfold size_t_of_int. apply Z.mod_small. lia. Qed.

Lemma max_group_count_from av : ∀ acc r,
  (0 ≤ acc ≤ 2 ^ 31)%Z →
  Forall (fun g => (0 ≤ g < 2 ^ 31)%Z) av →
  r = fold_left
        (fun group_count groupid =>
           Z.max group_count ((1 + size_t_of_int groupid) mod 2 ^ 64))
        av acc →
  (acc ≤ r ≤ 2 ^ 31)%Z
  ∧ Forall (fun g => (g + 1 ≤ r)%Z) av
  ∧ (r = acc ∨ ∃ g, g ∈ av ∧ r = (g + 1)%Z).
Proof.
  induction av as [|g av IH]; intros acc r Hacc Hav ->; simpl.
  - split; [lia|]. split; [constructor|by left].
  - apply Forall_cons in Hav as [Hg Hav].
    rewrite size_t_of_int_nonneg; [done|].
    rewrite (Z.mod_small (1 + g)); [lia|].
    destruct (IH (Z.max acc (1 + g)) _ ltac:(lia) Hav eq_refl) as (Hr & Hall & Hor).
    split; [lia|]. split.
    + constructor; [lia|done].
    + destruct Hor as [Hor|(g' & Hg' & Hr')].
      * destruct (decide (acc ≤ 1 + g)%Z).
        -- right. exists g. split; [by left|lia].
        -- left. lia.
      * right. exists g'. split; [by right|done].
Qed.

(** One more than the largest sampled group id, zero without a sample. *)
Lemma max_group_count_spec av :
  Forall (fun g => (0 ≤ g < 2 ^ 31)%Z) av →
  (0 ≤ max_group_count av ≤ 2 ^ 31)%Z
  ∧ Forall (fun g => (g + 1 ≤ max_group_count av)%Z) av
  ∧ (av = [] → max_group_count av = 0%Z)
  ∧ (av ≠ [] → ∃ g, g ∈ av ∧ max_group_count av = (g + 1)%Z).
Proof.
  intros Hav. unfold max_group_count.
  destruct (max_group_count_from av 0 _ ltac:(lia) Hav eq_refl) as (Hr & Hall & Hor).
  split; [done|]. split; [done|]. split.
  - by intros ->.
  - intros Hne. destruct Hor as [Hz|?]; [|done].
    destruct av as [|g av]; [done|].
    apply Forall_cons in Hall as [Hg _]. apply Forall_cons in Hav as [Hg' _].
    unfold max_group_count in *. lia.
Qed.

Lemma push_and_tally av : ∀ counts s,
  Forall (fun g => (0 ≤ g < 2 ^ 31)%Z ∧ Z.to_nat g < length counts) av →
  for_fold av push_and_count counts s =
  Done (tallied av counts)
    (with_assignments
       (fun a =>
          set_values
            (alter (fun column => column ++ av) (length (values a) - 1) (values a))
            a)
       s).
Proof.
  induction av as [|g av IH]; intros counts s Hav.
  - simpl. unfold ret. f_equal.
    rewrite -{1}(with_assignments_id s). unfold with_assignments. simpl.
    do 2 f_equal. f_equal.
    rewrite list_alter_id; [|done]. intros col. by rewrite app_nil_r.
  - apply Forall_cons in Hav as [[Hg Hlt] Hav].
    apply lookup_lt_is_Some in Hlt as [c Hc].
    simpl. unfold bind at 1. unfold push_and_count at 1.
    unfold bind at 1. unfold push_assignment at 1, modify at 1.
    rewrite size_t_of_int_nonneg; [done|].
    unfold bind at 1. unfold in_bounds at 1. rewrite Hc. unfold ret at 1.
    rewrite IH.
    { rewrite length_insert. done. }
    f_equal.
    + f_equal. apply list_eq. intros i.
      rewrite list_lookup_alter. case_decide; subst.
      * by rewrite list_lookup_insert_eq ?Hc; [eapply lookup_lt_Some|].
      * by rewrite list_lookup_insert_ne.
    + unfold with_assignments, set_values. simpl.
      rewrite length_alter list_alter_alter_eq.
      set (i := length (values (assignments_ s)) - 1).
      assert (alter ((fun column => column ++ av) ∘ (fun column => column ++ [g]))
                i (values (assignments_ s)) =
              alter (fun column => column ++ g :: av) i (values (assignments_ s)))
        as ->; [|done].
      apply list_alter_ext; [|done]. intros col _. simpl. by rewrite -app_assoc.
Qed.

Lemma alter_last {A} (f : A → A) (l : list A) (x y : A) :
  alter f (length (l ++ [y]) - 1) (l ++ [x]) = l ++ [f x].
Proof.
  rewrite length_app. simpl.
  replace (length l + 1 - 1) with (length l + 0) by lia.
  by rewrite alter_app_r.
Qed.

Lemma lookup_last_app {A} (l : list A) (x y : A) :
  (l ++ [x]) !! (length (l ++ [y]) - 1) = Some x.
Proof.
  rewrite length_app. simpl.
  replace (length l + 1 - 1) with (length l) by lia.
  by rewrite lookup_app_r ?Nat.sub_diag.
Qed.

(** The part of [add_featureless_kind] after the sample is drawn:
    counting the groups, recording the assignments, initializing the
    mixture. *)
Lemma add_featureless_kind_tail s (c : Clustering) (av : list Z) (rng1 rng2 : rng_t)
    (k0 k1 k2 : Kind) :
  (0 ≤ empty_group_count_ s < 2 ^ 32)%Z →
  Forall (fun g => (0 ≤ g < 2 ^ 31)%Z) av →
  let m := {| clustering := c; features := features (model_clear default_model) |} in
  let counts :=
    tallied av
      (replicate
         (Z.to_nat ((max_group_count av + empty_group_count_ s) mod 2 ^ 64)) 0%Z) in
  match
    for_fold av push_and_count
      (replicate
         (Z.to_nat ((max_group_count av + empty_group_count_ s) mod 2 ^ 64)) 0%Z)
      {| empty_group_count_ := empty_group_count_ s;
         empty_kind_count_ := empty_kind_count_ s;
         iterations_ := iterations_ s;
         score_parallel_ := score_parallel_ s;
         init_cache_ := init_cache_ s;
         tare_ := tare_ s;
         cross_cat_ :=
           set_kinds
             (kinds (cross_cat_ s) ++
                [set_clustering c (set_model (model_clear default_model) default_kind)])
             (set_kinds (kinds (cross_cat_ s) ++ [k1])
                (set_kinds (kinds (cross_cat_ s) ++ [k2]) (cross_cat_ s)));
         assignments_ :=
           set_values (values (assignments_ s) ++ [[]]) (assignments_ s);
         kind_proposer_ := kind_proposer_ s;
         rng_ := rng2;
         total_count_ := total_count_ s;
         change_count_ := change_count_ s;
         birth_count_ := birth_count_ s;
         death_count_ := death_count_ s;
         tare_time_ := tare_time_ s;
         score_time_ := score_time_ s;
         sample_time_ := sample_time_ s |}
  with
  | Done a s' =>
      match
        match kinds (cross_cat_ s') !!
                (length (kinds (cross_cat_ s) ++ [k0]) - 1) with
        | Some a0 => Done a0 s'
        | None => Undefined s'
        end
      with
      | Done a0 s'0 =>
          (let '(mx, rng'0) := init_unobserved (model a0) a (rng_ s'0) in
           fun s1 : KindKernel =>
             Done tt
               {| empty_group_count_ := empty_group_count_ s1;
                  empty_kind_count_ := empty_kind_count_ s1;
                  iterations_ := iterations_ s1;
                  score_parallel_ := score_parallel_ s1;
                  init_cache_ := init_cache_ s1;
                  tare_ := tare_ s1;
                  cross_cat_ :=
                    set_kinds
                      (alter (set_mixture mx)
                         (length (kinds (cross_cat_ s) ++ [k0]) - 1)
                         (kinds (cross_cat_ s1)))
                      (cross_cat_ s1);
                  assignments_ := assignments_ s1;
                  kind_proposer_ := kind_proposer_ s1;
                  rng_ := rng'0;
                  total_count_ := total_count_ s1;
                  change_count_ := change_count_ s1;
                  birth_count_ := birth_count_ s1;
                  death_count_ := death_count_ s1;
                  tare_time_ := tare_time_ s1;
                  score_time_ := score_time_ s1;
                  sample_time_ := sample_time_ s1 |})
            s'0
      | Fatal msg s'0 => Fatal msg s'0
      | Undefined s'0 => Undefined s'0
      end
  | Fatal msg s' => Fatal msg s'
  | Undefined s' => Undefined s'
  end =
  Done tt
    {| empty_group_count_ := empty_group_count_ s;
       empty_kind_count_ := empty_kind_count_ s;
       iterations_ := iterations_ s;
       score_parallel_ := score_parallel_ s;
       init_cache_ := init_cache_ s;
       tare_ := tare_ s;
       cross_cat_ :=
         set_kinds
           (kinds (cross_cat_ s) ++
              [{| model := m;
                  mixture := (init_unobserved m counts rng2).1;
                  featureids := ∅ |}])
           (cross_cat_ s);
       assignments_ := set_values (values (assignments_ s) ++ [av]) (assignments_ s);
       kind_proposer_ := kind_proposer_ s;
       rng_ := (init_unobserved m counts rng2).2;
       total_count_ := total_count_ s;
       change_count_ := change_count_ s;
       birth_count_ := birth_count_ s;
       death_count_ := death_count_ s;
       tare_time_ := tare_time_ s;
       score_time_ := score_time_ s;
       sample_time_ := sample_time_ s |}.
Proof.
  intros Hegc Hav m counts.
  destruct (max_group_count_spec av Hav) as (Hmax & Hall & _).
  rewrite push_and_tally.
  { rewrite length_replicate Z.mod_small; [lia|].
    rewrite Forall_forall in Hav. rewrite Forall_forall in Hall.
    apply Forall_forall. intros g Hg.
    specialize (Hav _ Hg). specialize (Hall _ Hg). split; [done|lia]. }
  unfold with_assignments. simpl.
  rewrite alter_last lookup_last_app. simpl.
  fold m. fold counts.
  destruct (init_unobserved m counts rng2) as [mx rng3]. simpl.
  by rewrite alter_last.
Qed.

Lemma add_featureless_kind_Done s :
  sampler_contract →
  (0 ≤ empty_group_count_ s < 2 ^ 32)%Z →
  add_featureless_kind s = Done tt (added s).
Proof.
  intros Hsampler Hegc.
  unfold add_featureless_kind, added.
  cbv [bind modify gets update_kind packed_add]. simpl.
  destruct (decide (length (hyper_prior_clustering (cross_cat_ s)) ≠ 0))
    as [Hgrid|Hgrid].
  - destruct (sample_clustering_prior _ _) as [c rng1].
    unfold kind_at, in_bounds, with_cross_cat, with_assignments, set_rng. simpl.
    rewrite !alter_last. rewrite lookup_last_app. simpl.
    destruct (Hsampler c (row_count (assignments_ s)) rng1) as [_ Hav].
    destruct (sample_assignments c _ rng1) as [av rng2]. simpl in *.
    by apply add_featureless_kind_tail.
  - unfold kind_at at 1, in_bounds at 1.
    unfold with_cross_cat, with_assignments, set_rng. simpl.
    rewrite !alter_last.
    set (k1 := set_model (model_clear (model default_kind)) default_kind).
    set (c := match kinds (cross_cat_ s) !! 0 with
              | Some kind0 => clustering (model kind0)
              | None => clustering (model_clear default_model)
              end).
    assert ((kinds (cross_cat_ s) ++ [k1]) !! 0 =
            Some (match kinds (cross_cat_ s) !! 0 with
                  | Some kind0 => kind0
                  | None => k1
                  end)) as ->.
    { by destruct (kinds (cross_cat_ s)). }
    assert (clustering (model (match kinds (cross_cat_ s) !! 0 with
                               | Some kind0 => kind0
                               | None => k1
                               end)) = c) as Hc.
    { unfold c. by destruct (kinds (cross_cat_ s) !! 0). }
    unfold kind_at, in_bounds. simpl.
    rewrite !alter_last. rewrite lookup_last_app. simpl. rewrite Hc.
    destruct (Hsampler c (row_count (assignments_ s)) (rng_ s)) as [_ Hav].
    destruct (sample_assignments c _ (rng_ s)) as [av rng2]. simpl in *.
    by apply add_featureless_kind_tail.
Qed.

(** ** Reservoir maintenance, phase 1 *)

Lemma same_partition_refl cc : same_partition cc cc.
Proof. by intros X _. Qed.

Lemma same_partition_trans cc1 cc2 cc3 :
  same_partition cc1 cc2 → same_partition cc2 cc3 → same_partition cc1 cc3.
Proof. intros H12 H23 X HX. by rewrite (H23 X HX) (H12 X HX). Qed.

Lemma same_frame_refl s : same_frame s s.
Proof. by repeat split. Qed.

Lemma same_frame_trans s1 s2 s3 :
  same_frame s1 s2 → same_frame s2 s3 → same_frame s1 s3.
Proof.
  intros (?&?&?&?&?) (?&?&?&?&?). repeat split; congruence.
Qed.

Lemma removed_frame kindid s : same_frame s (removed kindid s).
Proof.
  unfold same_frame, removed, with_cross_cat, with_assignments. simpl.
  repeat split.
  destruct (packed_remove kindid (kinds (cross_cat_ s)) !! kindid); [|done].
  by rewrite length_repoint.
Qed.

Lemma removed_partition kindid kind s :
  kinds (cross_cat_ s) !! kindid = Some kind →
  featureids kind = ∅ →
  same_partition (cross_cat_ s) (cross_cat_ (removed kindid s)).
Proof.
  intros Hkind Hempty X HX.
  pose proof (lookup_lt_Some _ _ _ Hkind) as Hlt.
  unfold owned_sets, removed, with_cross_cat, with_assignments. simpl.
  rewrite !list_elem_of_lookup. split.
  - intros [i Hi]. rewrite list_lookup_fmap lookup_packed_remove in Hi; [done|].
    case_decide; [|done]. case_decide.
    + rewrite last_lookup in Hi. eexists. by rewrite list_lookup_fmap.
    + exists i. by rewrite list_lookup_fmap.
  - intros [i Hi]. rewrite list_lookup_fmap in Hi.
    destruct (kinds (cross_cat_ s) !! i) as [k|] eqn:Hk; [|done].
    injection Hi as <-.
    assert (i ≠ kindid) by (intros ->; congruence).
    pose proof (lookup_lt_Some _ _ _ Hk).
    destruct (decide (i = length (kinds (cross_cat_ s)) - 1)) as [->|].
    + exists kindid. rewrite list_lookup_fmap lookup_packed_remove; [done|].
      rewrite !decide_True; [lia|done|].
      rewrite last_lookup.
      replace (Nat.pred (length (kinds (cross_cat_ s))))
        with (length (kinds (cross_cat_ s)) - 1) by lia.
      by rewrite Hk.
    + exists i. rewrite list_lookup_fmap lookup_packed_remove; [done|].
      rewrite decide_True; [lia|]. rewrite decide_False; [done|]. by rewrite Hk.
Qed.

Lemma remove_featureless_from_Done n : ∀ s,
  bijection (cross_cat_ s) →
  aligned s →
  n ≤ length (kinds (cross_cat_ s)) →
  (∀ i k, n ≤ i → kinds (cross_cat_ s) !! i = Some k → featureids k ≠ ∅) →
  ∃ s', remove_featureless_from n s = Done tt s'
    ∧ bijection (cross_cat_ s')
    ∧ aligned s'
    ∧ (∀ i k, kinds (cross_cat_ s') !! i = Some k → featureids k ≠ ∅)
    ∧ same_partition (cross_cat_ s) (cross_cat_ s')
    ∧ length (kinds (cross_cat_ s')) ≤ length (kinds (cross_cat_ s))
    ∧ same_frame s s'
    ∧ rng_ s' = rng_ s.
Proof.
  induction n as [|i IH]; intros s Hbij Hal Hn Hinv.
  - exists s. simpl.
    split_and!;
      first [done | apply same_frame_refl | by (intros j k; apply Hinv; lia)].
  - assert (is_Some (kinds (cross_cat_ s) !! i)) as [kind Hkind]
      by (apply lookup_lt_is_Some; lia).
    simpl. unfold bind at 1. unfold bind at 1.
    rewrite (kind_at_Some _ _ _ Hkind).
    destruct (decide (featureids kind = ∅)) as [Hempty|Hne].
    + rewrite bool_decide_eq_true_2; [done|].
      rewrite (remove_featureless_kind_Done _ kind); try done.
      { destruct Hal as [-> _]. lia. }
      destruct (IH (removed i s)) as (s' & Hrun & Hb & Ha & Hall & Hpart & Hlen & Hfr & Hrng).
      * by eapply removed_bijection.
      * apply removed_aligned; [done|lia].
      * unfold removed, with_cross_cat. simpl. rewrite length_packed_remove. lia.
      * intros j k Hj. unfold removed, with_cross_cat. simpl.
        rewrite lookup_packed_remove; [lia|].
        case_decide; [|done]. case_decide.
        -- rewrite last_lookup. apply Hinv. lia.
        -- apply Hinv. lia.
      * exists s'. split_and!; try done.
        -- eapply same_partition_trans; [by eapply removed_partition|done].
        -- revert Hlen. unfold removed, with_cross_cat. simpl.
           rewrite length_packed_remove. lia.
        -- eapply same_frame_trans; [apply removed_frame|done].
    + rewrite bool_decide_eq_false_2; [done|]. unfold ret.
      destruct (IH s) as (s' & Hrun & Hrest); try done; [lia| |].
      * intros j k Hj Hk. destruct (decide (j = i)) as [->|].
        -- congruence.
        -- eapply Hinv; [|done]. lia.
      * by exists s'.
Qed.

(** ** Reservoir maintenance, phase 2 *)

Lemma added_kinds s :
  ∃ kind, kinds (cross_cat_ (added s)) = kinds (cross_cat_ s) ++ [kind]
          ∧ featureids kind = ∅.
Proof. eexists. split; [reflexivity|done]. Qed.

Lemma added_map s :
  featureid_to_kindid (cross_cat_ (added s)) = featureid_to_kindid (cross_cat_ s).
Proof. done. Qed.

Lemma added_bijection s :
  bijection (cross_cat_ s) → bijection (cross_cat_ (added s)).
Proof.
  intros [Hmap Hown]. destruct (added_kinds s) as (kind & Hk & Hempty).
  split; rewrite added_map Hk.
  - intros f kid Hf. destruct (Hmap _ _ Hf) as (k & Hkid & Hfk).
    exists k. split; [|done]. rewrite lookup_app_l; [|done].
    by eapply lookup_lt_Some.
  - intros kid k f Hkid Hf.
    apply lookup_app_Some in Hkid as [Hkid|[_ Hkid]]; [by eapply Hown|].
    apply list_lookup_singleton_Some in Hkid as [_ <-].
    rewrite Hempty in Hf. set_solver.
Qed.

Lemma added_aligned s :
  sampler_contract → aligned s → aligned (added s).
Proof.
  intros Hsampler [Hlen Hcols]. unfold aligned, added, packed_add. simpl.
  rewrite !length_app Hlen. split; [done|].
  apply Forall_app. split; [done|]. apply Forall_singleton.
  apply Hsampler.
Qed.

Lemma added_count s :
  featureless_kind_count (cross_cat_ (added s)) =
    S (featureless_kind_count (cross_cat_ s)).
Proof.
  unfold featureless_kind_count. destruct (added_kinds s) as (kind & -> & Hempty).
  rewrite filter_app length_app filter_cons_True; [done|]. simpl. lia.
Qed.

Lemma added_partition s : same_partition (cross_cat_ s) (cross_cat_ (added s)).
Proof.
  intros X HX. unfold owned_sets. destruct (added_kinds s) as (kind & -> & Hempty).
  rewrite fmap_app elem_of_app. simpl. rewrite Hempty list_elem_of_singleton.
  naive_solver.
Qed.

Lemma added_frame s : same_frame s (added s).
Proof. by repeat split. Qed.

Lemma add_featureless_kinds_Done n : ∀ start s,
  sampler_contract →
  (0 ≤ empty_group_count_ s < 2 ^ 32)%Z →
  bijection (cross_cat_ s) →
  aligned s →
  ∃ s', for_each (seq start n) (fun _ => add_featureless_kind) s = Done tt s'
    ∧ bijection (cross_cat_ s')
    ∧ aligned s'
    ∧ featureless_kind_count (cross_cat_ s') =
        n + featureless_kind_count (cross_cat_ s)
    ∧ length (kinds (cross_cat_ s')) = n + length (kinds (cross_cat_ s))
    ∧ same_partition (cross_cat_ s) (cross_cat_ s')
    ∧ same_frame s s'.
Proof.
  induction n as [|n IH]; intros start s Hsampler Hegc Hbij Hal.
  - exists s. simpl. split_and!; first [done | apply same_frame_refl].
  - simpl. unfold bind.
    rewrite add_featureless_kind_Done; [done..|].
    destruct (IH (S start) (added s)) as (s' & Hrun & Hb & Ha & Hcount & Hlen & Hpart & Hfr);
      try done.
    { by apply added_bijection. }
    { by apply added_aligned. }
    assert (length (kinds (cross_cat_ (added s))) =
            S (length (kinds (cross_cat_ s)))) as Hlen'.
    { destruct (added_kinds s) as (kind & -> & _).
      rewrite length_app. simpl. lia. }
    exists s'. split_and!;
      first [ done
            | by rewrite Hcount added_count; lia
            | by rewrite Hlen Hlen'; lia
            | by eapply same_partition_trans; [apply added_partition|]
            | by eapply same_frame_trans; [apply added_frame|] ].
Qed.

(** ** Reservoir maintenance *)

Lemma int_loop_start (size : nat) :
  (Z.of_nat size < 2 ^ 31)%Z →
  Z.to_nat (int_of_size_t ((Z.of_nat size - 1) mod 2 ^ 64) + 1) = size.
Proof.
  intros Hsize. unfold int_of_size_t. destruct size as [|size].
  - done.
  - rewrite (Z.mod_small (Z.of_nat (S size) - 1)); [lia|].
    rewrite Z.mod_small; lia.
Qed.

Lemma featureless_kind_count_zero cc :
  (∀ i k, kinds cc !! i = Some k → featureids k ≠ ∅) →
  featureless_kind_count cc = 0.
Proof.
  intros Hall. unfold featureless_kind_count.
  destruct (filter _ (kinds cc)) as [|k l] eqn:Hfilter; [done|].
  assert (k ∈ filter (fun kind => featureids kind = ∅) (kinds cc)) as Hk
    by (rewrite Hfilter; left).
  apply list_elem_of_filter in Hk as [Hempty Hk].
  apply list_elem_of_lookup in Hk as [i Hi]. by apply Hall in Hi.
Qed.

Lemma init_featureless_kinds_Done n s :
  sampler_contract →
  well_formed s →
  ∃ s', init_featureless_kinds n s = Done tt s'
    ∧ bijection (cross_cat_ s')
    ∧ aligned s'
    ∧ featureless_kind_count (cross_cat_ s') = n
    ∧ length (kinds (cross_cat_ s')) ≤ n + length (kinds (cross_cat_ s))
    ∧ same_partition (cross_cat_ s) (cross_cat_ s')
    ∧ same_frame s s'.
Proof.
  intros Hsampler [Hbij Hal Hsize Hegc].
  unfold init_featureless_kinds. unfold bind at 1. unfold gets at 1.
  rewrite int_loop_start; [done|].
  destruct (remove_featureless_from_Done (length (kinds (cross_cat_ s))) s)
    as (s1 & Hrun1 & Hb1 & Ha1 & Hall1 & Hpart1 & Hlen1 & Hfr1 & Hrng1);
    try done.
  { intros i k Hi Hk. apply lookup_lt_Some in Hk. lia. }
  rewrite (bind_Done _ _ _ _ _ Hrun1).
  assert (empty_group_count_ s1 = empty_group_count_ s) as Hegc1.
  { destruct Hfr1 as (Hset & _). by injection Hset. }
  destruct (add_featureless_kinds_Done n 0 s1)
    as (s2 & Hrun2 & Hb2 & Ha2 & Hcount2 & Hlen2 & Hpart2 & Hfr2);
    try done.
  { by rewrite Hegc1. }
  rewrite (bind_Done _ _ _ _ _ Hrun2).
  unfold bind at 1. unfold update_splitter at 1, modify at 1.
  rewrite (bind_Done _ _ _ tt _ (cross_cat_validate_Done _ _)); [done|].
  rewrite assignments_validate_Done; [by destruct Ha2|].
  eexists. split; [done|]. split_and!.
  - done.
  - done.
  - change (featureless_kind_count (cross_cat_ s2) = n).
    rewrite Hcount2 featureless_kind_count_zero; [done|lia].
  - simpl. lia.
  - by eapply same_partition_trans.
  - eapply same_frame_trans; [done|]. eapply same_frame_trans; [done|].
    by repeat split.
Qed.

(** ** Applying the proposed moves *)

Lemma omap_cons_Some {A B} (f : A → option B) x y l :
  f x = Some y → omap f (x :: l) = y :: omap f l.
Proof. intros Hx. change (omap f (x :: l)) with
  (match f x with Some y => y :: omap f l | None => omap f l end). by rewrite Hx. Qed.

Lemma apply_moves_from old new n : ∀ a acc s,
  a + n ≤ length old →
  a + n ≤ length new →
  for_fold (seq a n) (move_if_changed old new) acc s =
    (for_each
       (omap (fun f => pair f <$> new !! f)
             (filter (fun f => new !! f ≠ old !! f) (seq a n)))
       call_move >>
     ret (acc + length (filter (fun f => new !! f ≠ old !! f) (seq a n)))) s.
Proof.
  induction n as [|n IH]; intros a acc s Hold Hnew.
  - simpl. unfold bind, ret. by rewrite Nat.add_0_r.
  - assert (is_Some (old !! a)) as [o Ho] by (apply lookup_lt_is_Some; lia).
    assert (is_Some (new !! a)) as [nw Hnw] by (apply lookup_lt_is_Some; lia).
    simpl. unfold bind at 1. unfold move_if_changed at 1.
    rewrite Ho Hnw. unfold bind at 1. unfold in_bounds at 1.
    unfold bind at 1. unfold in_bounds at 1.
    destruct (decide (nw ≠ o)) as [Hne|Heq].
    + rewrite filter_cons_True; [congruence|].
      rewrite (omap_cons_Some _ a (a, nw)); [by rewrite Hnw|].
      change (for_each ((a, nw) :: ?l) call_move)
        with (call_move (a, nw) >> for_each l call_move).
      unfold bind at 1. unfold bind at 1. unfold bind at 1.
      unfold call_move at 1. simpl.
      destruct (move_feature_to_kind a nw s) as [[] s1|msg s1|s1]; try done.
      unfold ret at 1. rewrite IH; [lia..|].
      unfold bind.
      replace (S acc + length (filter (fun f => new !! f ≠ old !! f) (seq (S a) n)))
        with (acc + S (length
          (filter (fun f => new !! f ≠ old !! f) (seq (S a) n)))) by lia.
      done.
    + apply dec_stable in Heq as ->.
      rewrite filter_cons_False; [intros Hc; apply Hc; congruence|].
      unfold ret at 1. rewrite IH; [lia..|]. done.
Qed.

(** The loop over the features makes exactly the calls [move_calls]
    lists, and counts them. *)
Lemma apply_moves_calls old new s :
  length new = length old →
  apply_moves old new s =
    (for_each (move_calls old new) call_move >>
     ret (length (differing old new))) s.
Proof.
  intros Hlen. unfold apply_moves. rewrite apply_moves_from; [lia..|]. done.
Qed.

Lemma length_reassign calls m : length (reassign calls m) = length m.
Proof.
  revert m. induction calls as [|c calls IH]; intros m; [done|].
  unfold reassign in *. simpl. by rewrite IH length_insert.
Qed.

Lemma lookup_reassign_other calls (m : list nat) (f : nat) :
  f ∉ calls.*1 → reassign calls m !! f = m !! f.
Proof.
  revert m. induction calls as [|[g n] calls IH]; intros m Hf; [done|].
  apply not_elem_of_cons in Hf as [Hne Hf].
  unfold reassign in *. simpl. rewrite IH; [done|].
  by rewrite list_lookup_insert_ne.
Qed.

Lemma lookup_reassign_called calls (m : list nat) (f n : nat) :
  NoDup calls.*1 → (f, n) ∈ calls → f < length m →
  reassign calls m !! f = Some n.
Proof.
  revert m. induction calls as [|[g k] calls IH]; intros m Hnd Hin Hf.
  - by apply elem_of_nil in Hin.
  - apply NoDup_cons in Hnd as [Hg Hnd].
    unfold reassign in *. simpl.
    apply elem_of_cons in Hin as [[= <- <-]|Hin].
    + fold (reassign calls (<[f:=n]> m)).
      rewrite lookup_reassign_other; [done|]. by rewrite list_lookup_insert_eq.
    + apply IH; [done..|]. by rewrite length_insert.
Qed.

Lemma for_each_move_Done calls : ∀ s,
  NoDup calls.*1 →
  bijection (cross_cat_ s) →
  Forall (fun column => length column = row_count (assignments_ s))
         (values (assignments_ s)) →
  (∀ f n, (f, n) ∈ calls →
     n < length (kinds (cross_cat_ s))
     ∧ n < length (p_kinds (kind_proposer_ s))
     ∧ ∃ o, featureid_to_kindid (cross_cat_ s) !! f = Some o ∧ n ≠ o) →
  ∃ s', for_each calls call_move s = Done tt s'
    ∧ featureid_to_kindid (cross_cat_ s') =
        reassign calls (featureid_to_kindid (cross_cat_ s))
    ∧ bijection (cross_cat_ s')
    ∧ assignments_ s' = assignments_ s
    ∧ length (kinds (cross_cat_ s')) = length (kinds (cross_cat_ s))
    ∧ length (p_kinds (kind_proposer_ s')) = length (p_kinds (kind_proposer_ s))
    ∧ settings s' = settings s
    ∧ counters s' = counters s.
Proof.
  induction calls as [|[f n] calls IH]; intros s Hnd Hbij Hcols Hcalls.
  - exists s. by split_and!.
  - apply NoDup_cons in Hnd as [Hf Hnd].
    destruct (Hcalls f n ltac:(left)) as (Hn & Hp & o & Ho & Hne).
    destruct (move_feature_to_kind_Done f n o s)
      as (s1 & Hrun & Hmap & Hsets & Has & Hpk & Hset & Hcnt & Hbij1); try done.
    assert (length (kinds (cross_cat_ s1)) = length (kinds (cross_cat_ s))) as Hlen.
    { rewrite -(length_fmap featureids) -(length_fmap featureids (kinds (cross_cat_ s))).
      fold (owned_sets (cross_cat_ s1)). rewrite Hsets !length_alter. done. }
    destruct (IH s1) as (s2 & Hrun2 & Hmap2 & Hbij2 & Has2 & Hlen2 & Hpk2 & Hset2 & Hcnt2);
      try done.
    { by rewrite Has. }
    { intros g k Hin. destruct (Hcalls g k ltac:(by right)) as (? & ? & o' & Ho' & ?).
      rewrite Hlen Hpk Hmap. split_and!; try done.
      exists o'. split; [|done]. rewrite list_lookup_insert_ne; [|done].
      intros <-. apply Hf. apply list_elem_of_fmap. by exists (f, k). }
    exists s2. split_and!.
    + simpl. unfold bind. unfold call_move at 1. simpl. by rewrite Hrun.
    + by rewrite Hmap2 Hmap.
    + done.
    + congruence.
    + congruence.
    + congruence.
    + congruence.
    + congruence.
Qed.

Lemma omap_lookup_fst (new : list nat) (l : list nat) :
  Forall (fun f => f < length new) l →
  (omap (fun f => pair f <$> new !! f) l).*1 = l.
Proof.
  induction 1 as [|f l Hf _ IH]; [done|].
  apply lookup_lt_is_Some in Hf as [n Hn].
  rewrite (omap_cons_Some _ f (f, n)); [by rewrite Hn|].
  rewrite fmap_cons IH. done.
Qed.

Lemma differing_lt old new f : f ∈ differing old new → f < length old.
Proof.
  intros [_ Hf%elem_of_seq]%list_elem_of_filter. lia.
Qed.

Lemma move_calls_fst old new :
  length new = length old → (move_calls old new).*1 = differing old new.
Proof.
  intros Hlen. apply omap_lookup_fst, Forall_forall.
  intros f Hf%differing_lt. lia.
Qed.

Lemma NoDup_differing old new : NoDup (differing old new).
Proof. apply NoDup_filter, NoDup_seq. Qed.

Lemma elem_of_move_calls old new f n :
  (f, n) ∈ move_calls old new ↔
  f < length old ∧ new !! f = Some n ∧ old !! f ≠ Some n.
Proof.
  unfold move_calls. rewrite list_elem_of_omap. split.
  - intros (g & Hg & Hfn). pose proof (differing_lt _ _ _ Hg).
    apply list_elem_of_filter in Hg as [Hne _].
    destruct (new !! g) as [k|] eqn:Hk; [|done]. injection Hfn as <- <-.
    split_and!; [done..|]. congruence.
  - intros (Hf & Hn & Hne). exists f. split; [|by rewrite Hn].
    apply list_elem_of_filter. split; [congruence|]. apply elem_of_seq. lia.
Qed.

Lemma reassign_move_calls old new :
  length new = length old → reassign (move_calls old new) old = new.
Proof.
  intros Hlen. apply list_eq. intros f.
  destruct (decide (f ∈ differing old new)) as [Hin|Hout].
  - pose proof (differing_lt _ _ _ Hin) as Hf.
    assert (is_Some (new !! f)) as [n Hn] by (apply lookup_lt_is_Some; lia).
    rewrite Hn. apply lookup_reassign_called; [| |done].
    + rewrite move_calls_fst; [done|]. apply NoDup_differing.
    + apply elem_of_move_calls. split_and!; [done..|].
      apply list_elem_of_filter in Hin as [Hne _]. congruence.
  - rewrite lookup_reassign_other; [by rewrite move_calls_fst|].
    destruct (decide (f < length old)) as [Hf|Hf].
    + destruct (decide (new !! f = old !! f)) as [->|Hne]; [done|].
      exfalso. apply Hout, list_elem_of_filter. split; [done|].
      apply elem_of_seq. lia.
    + rewrite !lookup_ge_None_2; [lia..|done].
Qed.

(** The loop over the features returns, having moved each differing
    feature once; the map is then the proposed one. *)
Lemma apply_moves_Done s new :
  bijection (cross_cat_ s) →
  Forall (fun column => length column = row_count (assignments_ s))
         (values (assignments_ s)) →
  length new = length (featureid_to_kindid (cross_cat_ s)) →
  Forall (fun kindid => kindid < length (kinds (cross_cat_ s))) new →
  Forall (fun c => c.2 < length (p_kinds (kind_proposer_ s)))
         (move_calls (featureid_to_kindid (cross_cat_ s)) new) →
  ∃ s', apply_moves (featureid_to_kindid (cross_cat_ s)) new s =
          Done (length (differing (featureid_to_kindid (cross_cat_ s)) new)) s'
    ∧ featureid_to_kindid (cross_cat_ s') = new
    ∧ bijection (cross_cat_ s')
    ∧ assignments_ s' = assignments_ s
    ∧ length (kinds (cross_cat_ s')) = length (kinds (cross_cat_ s))
    ∧ length (p_kinds (kind_proposer_ s')) = length (p_kinds (kind_proposer_ s))
    ∧ settings s' = settings s
    ∧ counters s' = counters s.
Proof.
  intros Hbij Hcols Hlen Hnew Hprop.
  set (old := featureid_to_kindid (cross_cat_ s)) in *.
  destruct (for_each_move_Done (move_calls old new) s)
    as (s' & Hrun & Hmap & Hrest); try done.
  { rewrite move_calls_fst; [done|]. apply NoDup_differing. }
  { intros f n Hcall. pose proof Hcall as (Hf & Hn & Hne)%elem_of_move_calls.
    assert (n < length (kinds (cross_cat_ s))).
    { rewrite Forall_forall in Hnew. apply Hnew. by eapply list_elem_of_lookup_2. }
    rewrite Forall_forall in Hprop. specialize (Hprop _ Hcall).
    split_and!; [done|done|].
    apply lookup_lt_is_Some in Hf as [o Ho]. exists o. split; [done|]. congruence. }
  exists s'. split.
  - rewrite apply_moves_calls; [done|]. unfold bind. by rewrite Hrun.
  - split; [|done]. rewrite Hmap. by apply reassign_move_calls.
Qed.

(** ** Birth and death statistics *)

Lemma for_fold_in_bounds {A B} (g : B → A → option B) l : ∀ b b' (s : KindKernel),
  fold_opt g l b = Some b' →
  for_fold l (fun b x => in_bounds (g b x)) b s = Done b' s.
Proof.
  induction l as [|x l IH]; intros b b' s; simpl.
  - by intros [= ->].
  - destruct (g b x) as [b1|] eqn:Hg; [|done]. intros Hfold.
    unfold bind, in_bounds. by apply IH.
Qed.

Lemma fold_mark_old l : ∀ st,
  Forall (fun k => k < length st) l →
  ∃ st', fold_opt mark_old l st = Some st'
    ∧ length st' = length st
    ∧ ∀ k, st' !! k =
           if decide (k ∈ l) then (fun _ => 1) <$> st !! k else st !! k.
Proof.
  induction l as [|x l IH]; intros st Hl.
  - exists st. split_and!; [done..|]. intros k.
    first [done | case_decide as Hin; [by apply elem_of_nil in Hin|done]].
  - apply Forall_cons in Hl as [Hx Hl].
    apply lookup_lt_is_Some in Hx as [y Hy].
    destruct (IH (<[x:=1]> st)) as (st' & Hfold & Hlen & Hst').
    { by rewrite length_insert. }
    exists st'. simpl. unfold mark_old at 1. rewrite Hy.
    split_and!; [done|by rewrite Hlen length_insert|].
    intros k. rewrite Hst'.
    destruct (decide (k = x)) as [->|Hne].
    + rewrite list_lookup_insert_eq; [by eapply lookup_lt_Some|].
      rewrite (decide_True (P := x ∈ x :: l)); [by left|].
      rewrite Hy. by case_decide.
    + rewrite list_lookup_insert_ne; [done|].
      destruct (decide (k ∈ l)) as [Hin|Hout].
      * rewrite decide_True; [by right|done].
      * rewrite decide_False; [|done].
        intros [?|?]%elem_of_cons; done.
Qed.

Lemma fold_mark_new l : ∀ st,
  Forall (fun k => k < length st) l →
  ∃ st', fold_opt mark_new l st = Some st'
    ∧ length st' = length st
    ∧ ∀ k, st' !! k =
           (fun x => if decide (k ∈ l) then Nat.lor x 2 else x) <$> st !! k.
Proof.
  induction l as [|x l IH]; intros st Hl.
  - exists st. split_and!; [done..|]. intros k.
    destruct (st !! k); [|done]. simpl.
    first [done | case_decide as Hin; [by apply elem_of_nil in Hin|done]].
  - apply Forall_cons in Hl as [Hx Hl].
    apply lookup_lt_is_Some in Hx as [y Hy].
    destruct (IH (<[x:=Nat.lor y 2]> st)) as (st' & Hfold & Hlen & Hst').
    { by rewrite length_insert. }
    exists st'. simpl. unfold mark_new at 1. rewrite Hy.
    split_and!; [done|by rewrite Hlen length_insert|].
    intros k. rewrite Hst'.
    destruct (decide (k = x)) as [->|Hne].
    + rewrite list_lookup_insert_eq; [by eapply lookup_lt_Some|].
      rewrite Hy. simpl. rewrite (decide_True (P := x ∈ x :: l)); [by left|].
      case_decide; [|done]. f_equal.
      rewrite -Nat.lor_assoc. by rewrite Nat.lor_diag.
    + rewrite list_lookup_insert_ne; [done|].
      destruct (st !! k); [|done]. simpl. f_equal.
      destruct (decide (k ∈ l)) as [Hin|Hout].
      * rewrite decide_True; [by right|done].
      * rewrite decide_False; [|done].
        intros [?|?]%elem_of_cons; done.
Qed.

Lemma fold_tally states : ∀ sc,
  Forall (fun state => state < length sc) states →
  ∃ sc', fold_opt tally states sc = Some sc'
    ∧ ∀ j, sc' !! j =
           (fun c => c + length (filter (fun state => state = j) states))
             <$> sc !! j.
Proof.
  induction states as [|x states IH]; intros sc Hst.
  - exists sc. split; [done|]. intros j. destruct (sc !! j); [|done].
    simpl. by rewrite Nat.add_0_r.
  - apply Forall_cons in Hst as [Hx Hst].
    apply lookup_lt_is_Some in Hx as [c Hc].
    destruct (IH (<[x:=c + 1]> sc)) as (sc' & Hfold & Hsc').
    { by rewrite length_insert. }
    exists sc'. simpl. unfold tally at 1. rewrite Hc. split; [done|].
    intros j. rewrite Hsc'.
    destruct (decide (j = x)) as [->|Hne].
    + rewrite list_lookup_insert_eq; [by eapply lookup_lt_Some|].
      rewrite Hc filter_cons_True; [done|]. simpl. f_equal. lia.
    + rewrite list_lookup_insert_ne; [done|].
      by rewrite filter_cons_False.
Qed.

Lemma kind_state_lt old new k : kind_state old new k < 4.
Proof.
  unfold kind_state.
  destruct (decide (k ∈ old)), (decide (k ∈ new));
    change (Nat.lor 1 2) with 3; change (Nat.lor 1 0) with 1;
    change (Nat.lor 0 2) with 2; change (Nat.lor 0 0) with 0; lia.
Qed.

Lemma kind_state_1 old new k :
  kind_state old new k = 1 ↔ k ∈ old ∧ k ∉ new.
Proof.
  unfold kind_state.
  destruct (decide (k ∈ old)), (decide (k ∈ new));
    change (Nat.lor 1 2) with 3; change (Nat.lor 1 0) with 1;
    change (Nat.lor 0 2) with 2; change (Nat.lor 0 0) with 0;
    (split; [intros ?; try lia; done | intros [? ?]; done]).
Qed.

Lemma kind_state_2 old new k :
  kind_state old new k = 2 ↔ k ∈ new ∧ k ∉ old.
Proof.
  unfold kind_state.
  destruct (decide (k ∈ old)), (decide (k ∈ new));
    change (Nat.lor 1 2) with 3; change (Nat.lor 1 0) with 1;
    change (Nat.lor 0 2) with 2; change (Nat.lor 0 0) with 0;
    (split; [intros ?; try lia; done | intros [? ?]; done]).
Qed.

Lemma length_filter_fmap {A B} (f : A → B) (P : B → Prop)
    `{∀ y, Decision (P y)} (l : list A) :
  length (filter P (f <$> l)) = length (filter (fun x => P (f x)) l).
Proof.
  induction l as [|x l IH]; [done|]. rewrite fmap_cons.
  destruct (decide (P (f x))).
  - rewrite !filter_cons_True; [done..|]. simpl. by rewrite IH.
  - by rewrite !filter_cons_False.
Qed.

(** Counting the kind indices below [n] that are in [l] and not in [l']
    counts the set [only_in l l']. *)
Lemma count_only_in (l l' : list nat) (n : nat) :
  Forall (fun k => k < n) l →
  length (filter (fun k => k ∈ l ∧ k ∉ l') (seq 0 n)) = size (only_in l l').
Proof.
  intros Hl. rewrite -(size_list_to_set (C := gset nat)).
  { apply NoDup_filter, NoDup_seq. }
  f_equal. apply set_eq. intros k. unfold only_in.
  rewrite elem_of_list_to_set list_elem_of_filter elem_of_seq elem_of_difference
          !elem_of_list_to_set.
  rewrite Forall_forall in Hl. split.
  - tauto.
  - intros [Hk Hk']. split_and!; [done..|lia|]. simpl. by apply Hl.
Qed.

Lemma birth_death_Done kind_count old new (s : KindKernel) :
  Forall (fun k => k < kind_count) old →
  Forall (fun k => k < kind_count) new →
  birth_death kind_count old new s =
    Done (size (only_in old new), size (only_in new old)) s.
Proof.
  intros Hold Hnew.
  destruct (fold_mark_old old (replicate kind_count 0)) as (st1 & Hf1 & Hl1 & Hst1).
  { by rewrite length_replicate. }
  destruct (fold_mark_new new st1) as (st2 & Hf2 & Hl2 & Hst2).
  { by rewrite Hl1 length_replicate. }
  assert (st2 = kind_state old new <$> seq 0 kind_count) as Hstates.
  { apply list_eq. intros k. rewrite Hst2 Hst1 list_lookup_fmap.
    destruct (decide (k < kind_count)) as [Hk|Hk].
    - rewrite lookup_replicate_2; [done|]. rewrite lookup_seq_lt; [done|].
      unfold kind_state. simpl.
      by destruct (decide (k ∈ old)), (decide (k ∈ new)).
    - rewrite (proj1 (lookup_replicate_None _ _ _)); [lia|].
      rewrite lookup_seq_ge; [lia|]. by destruct (decide (k ∈ old)). }
  destruct (fold_tally st2 [0; 0; 0; 0]) as (sc & Hf3 & Hsc).
  { rewrite Hstates. apply Forall_fmap, Forall_forall. intros k _. simpl.
    apply kind_state_lt. }
  unfold birth_death.
  rewrite (bind_Done _ _ _ _ _ (for_fold_in_bounds _ _ _ _ _ Hf1)).
  rewrite (bind_Done _ _ _ _ _ (for_fold_in_bounds _ _ _ _ _ Hf2)).
  rewrite (bind_Done _ _ _ _ _ (for_fold_in_bounds _ _ _ _ _ Hf3)).
  assert (length (filter (fun k => kind_state old new k = 1) (seq 0 kind_count))
          = size (only_in old new)) as Hdeath.
  { rewrite -(count_only_in old new kind_count); [done|]. f_equal.
    apply list_filter_iff. intros k. apply kind_state_1. }
  assert (length (filter (fun k => kind_state old new k = 2) (seq 0 kind_count))
          = size (only_in new old)) as Hbirth.
  { rewrite -(count_only_in new old kind_count); [done|]. f_equal.
    apply list_filter_iff. intros k. apply kind_state_2. }
  unfold bind, in_bounds, ret. rewrite !Hsc. simpl.
  by rewrite Hstates !length_filter_fmap Hdeath Hbirth.
Qed.

(** ** A transition *)

Lemma validate_Done s :
  bijection (cross_cat_ s) → aligned s → validate s = Done tt s.
Proof.
  intros Hbij [Hlen Hcols]. unfold validate.
  rewrite (bind_Done _ _ _ _ _ (cross_cat_validate_Done _ Hbij)).
  rewrite (bind_Done _ _ _ _ _ (assignments_validate_Done _ Hcols)).
  unfold bind, gets, loom_assert. simpl. by rewrite Hlen Nat.eqb_refl.
Qed.

Lemma validate_inv s a s' :
  validate s = Done a s' → s' = s ∧ bijection (cross_cat_ s) ∧ aligned s.
Proof.
  unfold validate. unfold bind at 1.
  destruct (cross_cat_validate s) as [[] s1|?|?] eqn:H1; [|done..].
  apply cross_cat_validate_inv in H1 as [-> Hbij].
  unfold bind at 1.
  destruct (assignments_validate s) as [[] s1|?|?] eqn:H2; [|done..].
  apply assignments_validate_inv in H2 as [-> Hcols].
  unfold bind, gets, loom_assert. simpl.
  destruct (Nat.eqb_spec (length (values (assignments_ s)))
                         (length (kinds (cross_cat_ s)))) as [Hlen|]; [|done].
  intros [= _ <-]. by split_and!.
Qed.

Lemma run_proposer_Done s :
  run_proposer (featureid_to_kindid (cross_cat_ s)) s =
    Done (proposal_of s).1.1.1 (proposed s).
Proof.
  unfold run_proposer, proposed, proposal_of.
  by destruct (infer_assignments _ _ _ _ _ _ _) as [[[new times] proposer] rng].
Qed.

Lemma map_in_range cc :
  bijection cc →
  Forall (fun kindid => kindid < length (kinds cc)) (featureid_to_kindid cc).
Proof.
  intros [Hmap _]. apply Forall_lookup. intros f kid Hf.
  destruct (Hmap _ _ Hf) as (k & Hk & _). by eapply lookup_lt_Some.
Qed.

Lemma proposer_init_unobserved_Done s :
  ∃ s', proposer_init_unobserved s = Done tt s'
    ∧ cross_cat_ s' = cross_cat_ s
    ∧ assignments_ s' = assignments_ s
    ∧ settings s' = settings s
    ∧ counters s' = counters s.
Proof.
  unfold proposer_init_unobserved.
  destruct (mixture_init_unobserved _ _ _) as [proposer rng].
  eexists. by split_and!.
Qed.

(** What a transition does, given a proposal that keeps the proposer's
    contract: it returns, the moves bring the map to the proposed one, the
    counters report them, and the reservoir is rebuilt. *)
Lemma try_run_Done s :
  sampler_contract →
  well_formed s →
  check_row_counts true s = Done tt s →
  proposal_contract s →
  let old := featureid_to_kindid (cross_cat_ s) in
  let new := (proposal_of s).1.1.1 in
  ∃ moved s',
    apply_moves old new (proposed s) = Done (length (differing old new)) moved
    ∧ featureid_to_kindid (cross_cat_ moved) = new
    ∧ bijection (cross_cat_ moved)
    ∧ try_run s = Done (bool_decide (0 < length (differing old new))) s'
    ∧ total_count_ s' = length old
    ∧ change_count_ s' = length (differing old new)
    ∧ death_count_ s' = size (only_in old new)
    ∧ birth_count_ s' = size (only_in new old)
    ∧ bijection (cross_cat_ s')
    ∧ aligned s'
    ∧ featureless_kind_count (cross_cat_ s') = empty_kind_count_ s
    ∧ same_partition (cross_cat_ moved) (cross_cat_ s').
Proof.
  intros Hsampler [Hbij Hal Hsize Hegc] Hrows (Hlen & Hnew & Hprop) old new.
  destruct (apply_moves_Done (proposed s) new)
    as (moved & Hmoves & Hmap & Hbij1 & Has1 & Hlen1 & Hpk1 & Hset1 & Hcnt1);
    try done.
  { by destruct Hal. }
  exists moved.
  set (s2 := set_kind_counts (size (only_in old new)) (size (only_in new old))
               (set_move_counts (length old) (length (differing old new)) moved)).
  destruct (init_featureless_kinds_Done (empty_kind_count_ s) s2)
    as (s3 & Hinit & Hbij3 & Hal3 & Hcount3 & _ & Hpart3 & Hfr3); [done| |].
  { split; simpl.
    - done.
    - destruct Hal as [Hv Hcols]. split; simpl; rewrite Has1; [|done].
      by rewrite Hlen1.
    - by rewrite Hlen1.
    - injection Hset1 as -> _. done. }
  destruct (proposer_init_unobserved_Done s3) as (s4 & Hprop4 & Hcc4 & Has4 & Hset4 & Hcnt4).
  assert (Hal4 : aligned s4).
  { destruct Hal3 as [? ?]. unfold aligned. by rewrite Hcc4 Has4. }
  exists s4. split_and!; try done.
  - unfold try_run.
    rewrite (bind_Done _ _ _ _ _ Hrows).
    rewrite (bind_Done _ _ _ _ _ (validate_Done _ Hbij Hal)).
    unfold bind at 1. unfold gets at 1.
    rewrite (bind_Done _ _ _ _ _ (run_proposer_Done s)).
    fold old. fold new.
    rewrite (bind_Done _ _ _ _ _ Hmoves).
    unfold bind at 1. unfold modify at 1. unfold bind at 1. unfold gets at 1.
    rewrite (bind_Done _ _ _ (size (only_in old new), size (only_in new old)) _
               (birth_death_Done _ _ _ _ _ _)).
    { simpl. rewrite Hlen1. by apply map_in_range. }
    { simpl. by rewrite Hlen1. }
    unfold bind at 1. unfold modify at 1. unfold bind at 1. unfold gets at 1.
    simpl fst. simpl snd.
    change (featureid_to_kindid (cross_cat_ (proposed s))) with old.
    fold s2.
    assert (empty_kind_count_ s2 = empty_kind_count_ s) as ->.
    { simpl. by injection Hset1. }
    rewrite (bind_Done _ _ _ _ _ Hinit).
    rewrite (bind_Done _ _ _ _ _ Hprop4).
    rewrite (bind_Done _ _ _ tt s4 (validate_Done _ _ _)); [by rewrite Hcc4|done|].
    done.
  - destruct Hfr3 as (_ & Hc3 & _). injection Hcnt4. injection Hc3. simpl.
    congruence.
  - destruct Hfr3 as (_ & Hc3 & _). injection Hcnt4. injection Hc3. simpl.
    congruence.
  - destruct Hfr3 as (_ & Hc3 & _). injection Hcnt4. injection Hc3. simpl.
    congruence.
  - destruct Hfr3 as (_ & Hc3 & _). injection Hcnt4. injection Hc3. simpl.
    congruence.
  - by rewrite Hcc4.
  - rewrite Hcc4 Hcount3. simpl. by injection Hset1.
  - by rewrite Hcc4.
Qed.

(** ** Construction and destruction *)

Lemma construct_Done config tare cc a seed :
  sampler_contract →
  0 < kind_iterations config →
  0 < kind_empty_kind_count config →
  let s0 := initial_members config tare cc a seed in
  well_formed s0 →
  check_row_counts false s0 = Done tt s0 →
  ∃ s, construct config tare cc a seed = Done tt s
    ∧ bijection (cross_cat_ s)
    ∧ aligned s
    ∧ featureless_kind_count (cross_cat_ s) = kind_empty_kind_count config
    ∧ same_partition cc (cross_cat_ s).
Proof.
  intros Hsampler Hiter Hekc s0 Hwf Hrows.
  destruct (init_featureless_kinds_Done (kind_empty_kind_count config) s0)
    as (s1 & Hinit & Hbij1 & Hal1 & Hcount1 & _ & Hpart1 & _); [done..|].
  destruct (proposer_init_unobserved_Done s1) as (s2 & Hprop2 & Hcc2 & Has2 & _).
  assert (Hal2 : aligned s2).
  { destruct Hal1 as [? ?]. unfold aligned. by rewrite Hcc2 Has2. }
  exists s2. split_and!; try (by rewrite Hcc2).
  - unfold construct. fold s0.
    unfold bind at 1. unfold gets at 1. unfold bind at 1. unfold loom_assert at 1.
    rewrite (proj2 (Nat.ltb_lt _ _)); [done|].
    unfold bind at 1. unfold gets at 1. unfold bind at 1. unfold loom_assert at 1.
    rewrite (proj2 (Nat.ltb_lt _ _)); [done|].
    rewrite (bind_Done _ _ _ _ _ Hrows).
    rewrite (bind_Done _ _ _ _ _ Hinit).
    rewrite (bind_Done _ _ _ _ _ Hprop2).
    apply validate_Done; [by rewrite Hcc2|done].
  - done.
Qed.

Lemma destruct_kernel_Done s :
  sampler_contract →
  well_formed s →
  ∃ s', destruct_kernel s = Done tt s'
    ∧ bijection (cross_cat_ s')
    ∧ aligned s'
    ∧ featureless_kind_count (cross_cat_ s') = 0
    ∧ same_partition (cross_cat_ s) (cross_cat_ s').
Proof.
  intros Hsampler [Hbij Hal Hsize Hegc].
  set (s0 := set_kind_proposer (proposer_clear (kind_proposer_ s)) s).
  destruct (init_featureless_kinds_Done 0 s0)
    as (s1 & Hinit & Hbij1 & Hal1 & Hcount1 & _ & Hpart1 & _); [done..|].
  exists s1. split_and!; try done.
  unfold destruct_kernel. unfold bind at 1. unfold modify at 1. fold s0.
  rewrite (bind_Done _ _ _ _ _ Hinit). by apply validate_Done.
Qed.

(** ** A transition, step by step *)

Lemma try_run_steps s :
  sampler_contract →
  well_formed s →
  check_row_counts true s = Done tt s →
  proposal_contract s →
  let old := featureid_to_kindid (cross_cat_ s) in
  let new := (proposal_of s).1.1.1 in
  ∃ moved s3 s',
    try_run s = Done (bool_decide (0 < length (differing old new))) s'
    ∧ featureid_to_kindid (cross_cat_ moved) = new
    ∧ bijection (cross_cat_ moved)
    ∧ length (kinds (cross_cat_ moved)) = length (kinds (cross_cat_ s))
    ∧ assignments_ moved = assignments_ s
    ∧ settings moved = settings s
    ∧ bijection (cross_cat_ s3)
    ∧ aligned s3
    ∧ length (kinds (cross_cat_ s3)) ≤
        empty_kind_count_ s + length (kinds (cross_cat_ s))
    ∧ same_partition (cross_cat_ moved) (cross_cat_ s3)
    ∧ settings s3 = settings s
    ∧ keys (assignments_ s3) = keys (assignments_ s)
    ∧ length (featureid_to_kindid (cross_cat_ s3)) = length old
    ∧ cross_cat_ s' = cross_cat_ s3
    ∧ assignments_ s' = assignments_ s3
    ∧ settings s' = settings s3
    ∧ change_count_ s' = length (differing old new)
    ∧ death_count_ s' = size (only_in old new)
    ∧ birth_count_ s' = size (only_in new old)
    ∧ total_count_ s' = length old
    ∧ featureless_kind_count (cross_cat_ s3) = empty_kind_count_ s.
Proof.
  intros Hsampler [Hbij Hal Hsize Hegc] Hrows (Hlen & Hnew & Hprop) old new.
  destruct (apply_moves_Done (proposed s) new)
    as (moved & Hmoves & Hmap & Hbij1 & Has1 & Hlen1 & Hpk1 & Hset1 & Hcnt1);
    try done.
  { by destruct Hal. }
  set (s2 := set_kind_counts (size (only_in old new)) (size (only_in new old))
               (set_move_counts (length old) (length (differing old new)) moved)).
  assert (Hekc : empty_kind_count_ s2 = empty_kind_count_ s).
  { simpl. by injection Hset1. }
  destruct (init_featureless_kinds_Done (empty_kind_count_ s) s2)
    as (s3 & Hinit & Hbij3 & Hal3 & Hcount3 & Hlen3 & Hpart3 & Hfr3); [done| |].
  { split; simpl.
    - done.
    - destruct Hal as [Hv Hcols]. split; simpl; rewrite Has1; [|done].
      by rewrite Hlen1.
    - by rewrite Hlen1.
    - injection Hset1 as -> _. done. }
  destruct (proposer_init_unobserved_Done s3)
    as (s4 & Hprop4 & Hcc4 & Has4 & Hset4 & Hcnt4).
  assert (Hal4 : aligned s4).
  { destruct Hal3 as [? ?]. unfold aligned. by rewrite Hcc4 Has4. }
  destruct Hfr3 as (Hset3 & Hc3 & _ & Hkeys3 & Hmaplen3).
  exists moved, s3, s4. split_and!.
  - unfold try_run.
    rewrite (bind_Done _ _ _ _ _ Hrows).
    rewrite (bind_Done _ _ _ _ _ (validate_Done _ Hbij Hal)).
    unfold bind at 1. unfold gets at 1.
    rewrite (bind_Done _ _ _ _ _ (run_proposer_Done s)).
    fold old. fold new.
    rewrite (bind_Done _ _ _ _ _ Hmoves).
    unfold bind at 1. unfold modify at 1. unfold bind at 1. unfold gets at 1.
    rewrite (bind_Done _ _ _ (size (only_in old new), size (only_in new old)) _
               (birth_death_Done _ _ _ _ _ _)).
    { simpl. rewrite Hlen1. by apply map_in_range. }
    { simpl. by rewrite Hlen1. }
    unfold bind at 1. unfold modify at 1. unfold bind at 1. unfold gets at 1.
    simpl fst. simpl snd.
    change (featureid_to_kindid (cross_cat_ (proposed s))) with old.
    fold s2. rewrite Hekc.
    rewrite (bind_Done _ _ _ _ _ Hinit).
    rewrite (bind_Done _ _ _ _ _ Hprop4).
    rewrite (bind_Done _ _ _ tt s4 (validate_Done _ _ _)); [by rewrite Hcc4|done|].
    done.
  - done.
  - done.
  - done.
  - done.
  - done.
  - done.
  - done.
  - etrans; [exact Hlen3|]. simpl. rewrite Hlen1. done.
  - done.
  - rewrite Hset3. exact Hset1.
  - rewrite Hkeys3. simpl. by rewrite Has1.
  - rewrite Hmaplen3. simpl. rewrite Hmap. done.
  - done.
  - done.
  - done.
  - injection Hcnt4. injection Hc3. simpl. congruence.
  - injection Hcnt4. injection Hc3. simpl. congruence.
  - injection Hcnt4. injection Hc3. simpl. congruence.
  - injection Hcnt4. injection Hc3. simpl. congruence.
  - by rewrite Hcount3.
Qed.

(** Two partitions with the same non-empty owned sets group the features
    in the same way. *)
Lemma same_partition_same_groups (cc cc' : CrossCat) :
  bijection cc →
  bijection cc' →
  same_partition cc cc' →
  length (featureid_to_kindid cc') = length (featureid_to_kindid cc) →
  ∀ f g kf kg,
    featureid_to_kindid cc !! f = Some kf →
    featureid_to_kindid cc !! g = Some kg →
    ∃ kf' kg',
      featureid_to_kindid cc' !! f = Some kf'
      ∧ featureid_to_kindid cc' !! g = Some kg'
      ∧ (kf' = kg' ↔ kf = kg).
Proof.
  intros Hbij Hbij' Hpart Hlen.
  assert (Hsame : ∀ f kf, featureid_to_kindid cc !! f = Some kf →
            ∃ kf' kind kind',
              featureid_to_kindid cc' !! f = Some kf'
              ∧ kinds cc !! kf = Some kind
              ∧ kinds cc' !! kf' = Some kind'
              ∧ featureids kind' = featureids kind
              ∧ f ∈ featureids kind).
  { intros f kf Hf.
    destruct (lookup_lt_is_Some_2 (featureid_to_kindid cc') f) as [kf' Hf'].
    { rewrite Hlen. by eapply lookup_lt_Some. }
    destruct (proj1 Hbij' _ _ Hf') as (kind' & Hkind' & Hin').
    assert (featureids kind' ∈ owned_sets cc) as Hold.
    { apply Hpart; [set_solver|]. unfold owned_sets.
      apply list_elem_of_fmap. exists kind'. split; [done|].
      by eapply list_elem_of_lookup_2. }
    unfold owned_sets in Hold. apply list_elem_of_fmap in Hold as (kind & Heq & Hkind).
    apply list_elem_of_lookup in Hkind as [k Hk].
    assert (k = kf) as ->.
    { assert (featureid_to_kindid cc !! f = Some k) as Hfk.
      { apply (proj2 Hbij _ kind); [done|]. by rewrite -Heq. }
      rewrite Hf in Hfk. by injection Hfk. }
    exists kf', kind, kind'. split_and!; try done. by rewrite -Heq. }
  intros f g kf kg Hf Hg.
  destruct (Hsame f kf Hf) as (kf' & kindf & kindf' & Hf' & Hkf & Hkf' & Heqf & Hinf).
  destruct (Hsame g kg Hg) as (kg' & kindg & kindg' & Hg' & Hkg & Hkg' & Heqg & Hing).
  exists kf', kg'. split_and!; [done|done|]. split.
  - intros ->. rewrite Hkf' in Hkg'. injection Hkg' as ->.
    assert (featureid_to_kindid cc !! g = Some kf) as Hgk.
    { apply (proj2 Hbij _ kindf); [done|]. rewrite -Heqf Heqg. done. }
    rewrite Hg in Hgk. by injection Hgk.
  - intros ->. rewrite Hkf in Hkg. injection Hkg as ->.
    assert (featureid_to_kindid cc' !! g = Some kf') as Hgk.
    { apply (proj2 Hbij' _ kindf'); [done|]. by rewrite Heqf. }
    rewrite Hg' in Hgk. by injection Hgk.
Qed.

(** * The claims about the kind kernel *)

Lemma set_kindid_not_Fatal featureid kindid s msg s' :
  set_kindid featureid kindid s ≠ Fatal msg s'.
Proof.
  unfold set_kindid, bind, kindid_of, in_bounds, modify.
  by destruct (featureid_to_kindid (cross_cat_ s) !! featureid).
Qed.

Lemma for_each_set_kindid_not_Fatal kindid fs : ∀ s msg s',
  for_each fs (fun f => set_kindid f kindid) s ≠ Fatal msg s'.
Proof.
  induction fs as [|f fs IH]; intros s msg s'; [done|].
  simpl. unfold bind.
  destruct (set_kindid f kindid s) as [[] s1|msg1 s1|s1] eqn:Hset; [|by apply set_kindid_not_Fatal in Hset|done].
  apply IH.
Qed.

(** C6: [remove_featureless_kind kindid] fails fatally whenever the kind at
    [kindid] owns a feature, in the state it was called in, so that neither
    the partition nor the row assignment table has changed; it fails
    fatally in no other case, and it returns only when the kind owns no
    feature. *)
Theorem remove_nonempty_kind_is_fatal (s : KindKernel) (kindid : nat) (kind : Kind) :
  kinds (cross_cat_ s) !! kindid = Some kind →
  (featureids kind ≠ ∅ →
     remove_featureless_kind kindid s = Fatal "cannot remove nonempty kind" s)
  ∧ (∀ msg s', remove_featureless_kind kindid s = Fatal msg s' →
       featureids kind ≠ ∅ ∧ s' = s)
  ∧ (∀ s', remove_featureless_kind kindid s = Done tt s' →
       featureids kind = ∅).
Proof.
  intros Hkind.
  unfold remove_featureless_kind.
  rewrite (bind_Done _ _ _ _ _ (kind_at_Some _ _ _ Hkind)).
  unfold bind at 1. unfold loom_assert at 1.
  destruct (decide (featureids kind = ∅)) as [Hempty|Hne].
  - rewrite bool_decide_eq_true_2; [done|].
    split_and!; [done| |done].
    intros msg s'. cbv [bind modify gets in_bounds]. simpl.
    destruct (values (assignments_ s) !! kindid); [|done].
    case_decide; [|done].
    destruct (kind_at kindid _) as [k1 s1|?|?] eqn:Hk1.
    + intros Hfatal. by apply for_each_set_kindid_not_Fatal in Hfatal.
    + revert Hk1. unfold kind_at, in_bounds. by case_match.
    + done.
  - rewrite bool_decide_eq_false_2; [done|].
    split_and!; [done| |done].
    by intros msg s' [= _ <-].
Qed.

(** C7: on a kind that owns no feature, [remove_featureless_kind kindid]
    returns; the kind store and the row assignment table are one shorter;
    when [kindid] is not the last index the last kind now sits at [kindid]
    and every feature it owns maps to [kindid], the other kinds stay where
    they are and the features they own map as before; when [kindid] is
    the last index the map is unchanged. *)
Theorem remove_featureless_kind_renumbers (s : KindKernel) (kindid : nat) (kind : Kind) :
  bijection (cross_cat_ s) →
  aligned s →
  kinds (cross_cat_ s) !! kindid = Some kind →
  featureids kind = ∅ →
  let ks := kinds (cross_cat_ s) in
  let m := featureid_to_kindid (cross_cat_ s) in
  let last_index := length ks - 1 in
  ∃ s', remove_featureless_kind kindid s = Done tt s'
    ∧ kinds (cross_cat_ s') = packed_remove kindid ks
    ∧ values (assignments_ s') = packed_remove kindid (values (assignments_ s))
    ∧ length (kinds (cross_cat_ s')) = length ks - 1
    ∧ length (values (assignments_ s')) = length (values (assignments_ s)) - 1
    ∧ (kindid ≠ last_index →
         kinds (cross_cat_ s') !! kindid = ks !! last_index
         ∧ ∀ relocated f,
             ks !! last_index = Some relocated →
             f ∈ featureids relocated →
             featureid_to_kindid (cross_cat_ s') !! f = Some kindid)
    ∧ (∀ i, i ≠ kindid → i < last_index →
         kinds (cross_cat_ s') !! i = ks !! i)
    ∧ (∀ i other f,
         i ≠ last_index → ks !! i = Some other → f ∈ featureids other →
         featureid_to_kindid (cross_cat_ s') !! f = m !! f)
    ∧ (kindid = last_index → featureid_to_kindid (cross_cat_ s') = m).
Proof.
  intros Hbij [Hlen Hcols] Hkind Hempty ks m last_index.
  pose proof (lookup_lt_Some _ _ _ Hkind) as Hlt.
  destruct (last_kind_lookup _ _ Hlt) as (lk & Hlast & Hlk).
  exists (removed kindid s). split.
  { apply (remove_featureless_kind_Done _ kind); try done. by rewrite Hlen. }
  unfold removed, with_cross_cat, with_assignments. simpl.
  fold ks. fold m. fold ks in Hlt, Hlast, Hlk.
  split_and!.
  - done.
  - done.
  - by rewrite length_packed_remove.
  - by rewrite length_packed_remove.
  - intros Hne.
    assert (packed_remove kindid ks !! kindid = Some lk) as Hrel.
    { rewrite lookup_packed_remove; [done|].
      rewrite !decide_True; [unfold last_index in Hne; lia|done|done]. }
    split; [by rewrite Hrel Hlk|].
    intros relocated f Hr Hf. rewrite Hrel lookup_repoint.
    unfold last_index in Hr. rewrite Hlk in Hr. injection Hr as <-.
    rewrite decide_True; [|done]. split; [by apply elem_of_elements|].
    eapply lookup_lt_Some. by eapply (proj2 Hbij).
  - intros i Hi Hil. rewrite lookup_packed_remove; [done|].
    rewrite decide_True; [done|]. by rewrite decide_False.
  - intros i other f Hi Hother Hf.
    destruct (packed_remove kindid ks !! kindid) as [k1|] eqn:Hk1; [|done].
    rewrite lookup_repoint decide_False; [|done].
    intros [Hin _]. apply elem_of_elements in Hin.
    rewrite lookup_packed_remove in Hk1; [done|].
    case_decide; [|done]. rewrite decide_True in Hk1; [done|].
    rewrite Hlast in Hk1. injection Hk1 as <-.
    pose proof (proj2 Hbij _ _ _ Hlk Hin) as E1.
    pose proof (proj2 Hbij _ _ _ Hother Hf) as E2.
    rewrite E1 in E2. injection E2. done.
  - intros ->. rewrite lookup_ge_None_2; [|done].
    rewrite length_packed_remove. unfold last_index. lia.
Qed.

Lemma bind_Done_inv {S A B} (c : M S A) (k : A → M S B) s b s' :
  bind c k s = Done b s' → ∃ a s1, c s = Done a s1 ∧ k a s1 = Done b s'.
Proof. unfold bind. destruct (c s) as [a s1|?|?]; [|done..]. eauto. Qed.

Lemma construct_inv config tare cc a seed s :
  construct config tare cc a seed = Done tt s →
  bijection (cross_cat_ s) ∧ aligned s.
Proof.
  unfold construct. intros Hrun.
  do 7 (apply bind_Done_inv in Hrun as (? & ? & _ & Hrun)).
  by apply validate_inv in Hrun as (-> & ? & ?).
Qed.

Lemma try_run_inv s b s' :
  try_run s = Done b s' → bijection (cross_cat_ s') ∧ aligned s'.
Proof.
  unfold try_run. intros Hrun.
  do 12 (apply bind_Done_inv in Hrun as (? & ? & _ & Hrun)).
  apply bind_Done_inv in Hrun as (? & ? & Hval & Hret).
  injection Hret as _ <-.
  by apply validate_inv in Hval as (-> & ? & ?).
Qed.

Lemma destruct_kernel_inv s s' :
  destruct_kernel s = Done tt s' → bijection (cross_cat_ s') ∧ aligned s'.
Proof.
  unfold destruct_kernel. intros Hrun.
  do 2 (apply bind_Done_inv in Hrun as (? & ? & _ & Hrun)).
  by apply validate_inv in Hrun as (-> & ? & ?).
Qed.

(** C1: the bijection between the map and the owned sets holds in the
    state the constructor, every [try_run] and the destructor return in,
    and each of the three, entered in a well-formed state with
    collaborators that keep their contracts, does return; and each of
    [move_feature_to_kind], [remove_featureless_kind],
    [add_featureless_kind] and [init_featureless_kinds], entered with the
    bijection and its own precondition, returns with the bijection. *)
Theorem bijection_invariant :
  (∀ config tare cc a seed s,
     construct config tare cc a seed = Done tt s → bijection (cross_cat_ s))
  ∧ (∀ s b s', try_run s = Done b s' → bijection (cross_cat_ s'))
  ∧ (∀ s s', destruct_kernel s = Done tt s' → bijection (cross_cat_ s'))
  ∧ (∀ config tare cc a seed,
       sampler_contract →
       0 < kind_iterations config →
       0 < kind_empty_kind_count config →
       well_formed (initial_members config tare cc a seed) →
       check_row_counts false (initial_members config tare cc a seed) =
         Done tt (initial_members config tare cc a seed) →
       ∃ s, construct config tare cc a seed = Done tt s
            ∧ bijection (cross_cat_ s))
  ∧ (∀ s,
       sampler_contract →
       well_formed s →
       check_row_counts true s = Done tt s →
       proposal_contract s →
       ∃ b s', try_run s = Done b s' ∧ bijection (cross_cat_ s'))
  ∧ (∀ s,
       sampler_contract →
       well_formed s →
       ∃ s', destruct_kernel s = Done tt s' ∧ bijection (cross_cat_ s'))
  ∧ (∀ s featureid new_kindid old_kindid,
       bijection (cross_cat_ s) →
       Forall (fun column => length column = row_count (assignments_ s))
              (values (assignments_ s)) →
       featureid_to_kindid (cross_cat_ s) !! featureid = Some old_kindid →
       new_kindid ≠ old_kindid →
       new_kindid < length (kinds (cross_cat_ s)) →
       new_kindid < length (p_kinds (kind_proposer_ s)) →
       ∃ s', move_feature_to_kind featureid new_kindid s = Done tt s'
             ∧ bijection (cross_cat_ s'))
  ∧ (∀ s kindid kind,
       bijection (cross_cat_ s) →
       aligned s →
       kinds (cross_cat_ s) !! kindid = Some kind →
       featureids kind = ∅ →
       ∃ s', remove_featureless_kind kindid s = Done tt s'
             ∧ bijection (cross_cat_ s'))
  ∧ (∀ s,
       sampler_contract →
       (0 ≤ empty_group_count_ s < 2 ^ 32)%Z →
       bijection (cross_cat_ s) →
       ∃ s', add_featureless_kind s = Done tt s' ∧ bijection (cross_cat_ s'))
  ∧ (∀ s featureless_kind_count,
       sampler_contract →
       well_formed s →
       ∃ s', init_featureless_kinds featureless_kind_count s = Done tt s'
             ∧ bijection (cross_cat_ s')).
Proof.
  split_and!.
  - intros config tare cc a seed s Hrun. by apply construct_inv in Hrun as [? _].
  - intros s b s' Hrun. by apply try_run_inv in Hrun as [? _].
  - intros s s' Hrun. by apply destruct_kernel_inv in Hrun as [? _].
  - intros config tare cc a seed Hsampler Hiter Hekc Hwf Hrows.
    destruct (construct_Done config tare cc a seed) as (s & ? & ? & _); eauto.
  - intros s Hsampler Hwf Hrows Hcontract.
    destruct (try_run_Done s Hsampler Hwf Hrows Hcontract)
      as (moved & s' & _ & _ & _ & ? & _ & _ & _ & _ & ? & _).
    eauto.
  - intros s Hsampler Hwf.
    destruct (destruct_kernel_Done s) as (s' & ? & ? & _); eauto.
  - intros s f new_kindid old_kindid Hbij Hcols Hf Hne Hnew Hprop.
    destruct (move_feature_to_kind_Done f new_kindid old_kindid s)
      as (s' & Hrun & _ & _ & _ & _ & _ & _ & Hbij'); eauto.
  - intros s kindid kind Hbij [Hlen Hcols] Hkind Hempty.
    exists (removed kindid s). split.
    + apply (remove_featureless_kind_Done _ kind); try done.
      rewrite Hlen. by eapply lookup_lt_Some.
    + by eapply removed_bijection.
  - intros s Hsampler Hegc Hbij. exists (added s). split.
    + by apply add_featureless_kind_Done.
    + by apply added_bijection.
  - intros s n Hsampler Hwf.
    destruct (init_featureless_kinds_Done n s) as (s' & Hrun & Hbij & _); eauto.
Qed.

(** C2: [init_featureless_kinds target_count], entered in a well-formed
    state, returns in a state in which exactly [target_count] kinds own no
    feature: the scan from the highest index down leaves no kind without
    a feature, and the second phase appends [target_count] kinds that own
    none. This is the state of affairs after construction and after every
    [try_run], with [empty_kind_count_] such kinds, and after destruction,
    with none. *)
Theorem reservoir_invariant :
  sampler_contract →
  (∀ s target_count,
     well_formed s →
     ∃ s', init_featureless_kinds target_count s = Done tt s'
           ∧ featureless_kind_count (cross_cat_ s') = target_count)
  ∧ (∀ s,
       bijection (cross_cat_ s) → aligned s →
       ∃ s1, remove_featureless_from (length (kinds (cross_cat_ s))) s = Done tt s1
             ∧ featureless_kind_count (cross_cat_ s1) = 0
             ∧ same_partition (cross_cat_ s) (cross_cat_ s1))
  ∧ (∀ s target_count,
       (0 ≤ empty_group_count_ s < 2 ^ 32)%Z →
       bijection (cross_cat_ s) → aligned s →
       ∃ s2, for_each (seq 0 target_count) (fun _ => add_featureless_kind) s
               = Done tt s2
             ∧ featureless_kind_count (cross_cat_ s2) =
                 target_count + featureless_kind_count (cross_cat_ s)
             ∧ length (kinds (cross_cat_ s2)) =
                 target_count + length (kinds (cross_cat_ s)))
  ∧ (∀ config tare cc a seed,
       0 < kind_iterations config →
       0 < kind_empty_kind_count config →
       well_formed (initial_members config tare cc a seed) →
       check_row_counts false (initial_members config tare cc a seed) =
         Done tt (initial_members config tare cc a seed) →
       ∃ s, construct config tare cc a seed = Done tt s
            ∧ featureless_kind_count (cross_cat_ s) = kind_empty_kind_count config)
  ∧ (∀ s,
       well_formed s →
       check_row_counts true s = Done tt s →
       proposal_contract s →
       ∃ b s', try_run s = Done b s'
               ∧ featureless_kind_count (cross_cat_ s') = empty_kind_count_ s)
  ∧ (∀ s,
       well_formed s →
       ∃ s', destruct_kernel s = Done tt s'
             ∧ featureless_kind_count (cross_cat_ s') = 0).
Proof.
  intros Hsampler. split_and!.
  - intros s n Hwf.
    destruct (init_featureless_kinds_Done n s) as (s' & ? & _ & _ & ? & _); eauto.
  - intros s Hbij Hal.
    destruct (remove_featureless_from_Done (length (kinds (cross_cat_ s))) s)
      as (s1 & ? & _ & _ & Hall & ? & _); try done.
    { intros i k Hi Hk. apply lookup_lt_Some in Hk. lia. }
    exists s1. split_and!; [done| |done]. by apply featureless_kind_count_zero.
  - intros s n Hegc Hbij Hal.
    destruct (add_featureless_kinds_Done n 0 s) as (s2 & ? & _ & _ & ? & ? & _);
      eauto.
  - intros config tare cc a seed Hiter Hekc Hwf Hrows.
    destruct (construct_Done config tare cc a seed) as (s & ? & _ & _ & ? & _); eauto.
  - intros s Hwf Hrows Hprop.
    destruct (try_run_Done s) as (moved & s' & _ & _ & _ & ? & _ & _ & _ & _ & _ & _ & ? & _);
      eauto.
  - intros s Hwf.
    destruct (destruct_kernel_Done s) as (s' & ? & _ & _ & ? & _); eauto.
Qed.

(** C8: [add_featureless_kind] appends one kind, which owns no feature.
    Its clustering model is sampled from the grid prior when that is not
    empty, and is otherwise the one of the kind at index 0. One group id is
    drawn for every known row and recorded as the kind's column of
    assignments. The mixture is initialized from a vector of counts whose
    length is one more than the largest sampled group id (zero without
    rows) plus [empty_group_count_]. *)
Theorem add_featureless_kind_spec (s : KindKernel) :
  sampler_contract →
  (0 ≤ empty_group_count_ s < 2 ^ 32)%Z →
  ∃ s' kind rng1 counts,
    let grid_prior := hyper_prior_clustering (cross_cat_ s) in
    let sampled :=
      sample_assignments (clustering (model kind))
                         (row_count (assignments_ s)) rng1 in
    add_featureless_kind s = Done tt s'
    ∧ kinds (cross_cat_ s') = kinds (cross_cat_ s) ++ [kind]
    ∧ featureids kind = ∅
    ∧ (grid_prior ≠ [] →
         (clustering (model kind), rng1) =
           sample_clustering_prior grid_prior (rng_ s))
    ∧ (grid_prior = [] →
         rng1 = rng_ s
         ∧ (∃ kind0, kinds (cross_cat_ s') !! 0 = Some kind0
                     ∧ clustering (model kind) = clustering (model kind0))
         ∧ (∀ kind0, kinds (cross_cat_ s) !! 0 = Some kind0 →
                     clustering (model kind) = clustering (model kind0)))
    ∧ length sampled.1 = row_count (assignments_ s)
    ∧ values (assignments_ s') = values (assignments_ s) ++ [sampled.1]
    ∧ (mixture kind, rng_ s') = init_unobserved (model kind) counts sampled.2
    ∧ counts = tallied sampled.1 (replicate (length counts) 0%Z)
    ∧ Z.of_nat (length counts) =
        (max_group_count sampled.1 + empty_group_count_ s)%Z
    ∧ (sampled.1 = [] → max_group_count sampled.1 = 0%Z)
    ∧ (sampled.1 ≠ [] →
         ∃ g, g ∈ sampled.1
              ∧ (∀ g', g' ∈ sampled.1 → (g' ≤ g)%Z)
              ∧ max_group_count sampled.1 = (g + 1)%Z).
Proof.
  intros Hsampler Hegc.
  pose proof (add_featureless_kind_Done s Hsampler Hegc) as Hrun.
  set (grid_prior := hyper_prior_clustering (cross_cat_ s)).
  set (chosen :=
         if decide (length grid_prior ≠ 0)
         then sample_clustering_prior grid_prior (rng_ s)
         else (match kinds (cross_cat_ s) !! 0 with
               | Some kind0 => clustering (model kind0)
               | None => clustering (model_clear default_model)
               end, rng_ s)).
  set (sampled := sample_assignments chosen.1 (row_count (assignments_ s)) chosen.2).
  destruct (Hsampler chosen.1 (row_count (assignments_ s)) chosen.2) as [Hlen Hav].
  fold sampled in Hlen, Hav.
  destruct (max_group_count_spec sampled.1 Hav) as (Hmax & Hall & Hnil & Hcons).
  set (group_count := (max_group_count sampled.1 + empty_group_count_ s)%Z).
  set (counts := tallied sampled.1 (replicate (Z.to_nat group_count) 0%Z)).
  set (m := {| clustering := chosen.1;
               features := features (model_clear default_model) |}).
  set (initialized := init_unobserved m counts sampled.2).
  assert (length counts = Z.to_nat group_count) as Hcounts.
  { unfold counts. by rewrite length_tallied length_replicate. }
  assert (added s =
          set_rng initialized.2
            (with_assignments
               (fun a => set_values (packed_add sampled.1 (values a)) a)
               (with_cross_cat
                  (fun cc =>
                     set_kinds
                       (packed_add
                          {| model := m; mixture := initialized.1;
                             featureids := ∅ |}
                          (kinds cc))
                       cc)
                  s))) as Hadded.
  { unfold added. fold grid_prior. fold chosen. fold sampled.
    rewrite (Z.mod_small (max_group_count sampled.1 + empty_group_count_ s));
      [lia|]. done. }
  exists (added s), {| model := m; mixture := initialized.1; featureids := ∅ |},
         chosen.2, counts.
  cbv zeta. rewrite Hadded.
  change (clustering (model {| model := m; mixture := initialized.1;
                               featureids := ∅ |})) with chosen.1.
  fold sampled.
  split_and!.
  - by rewrite -Hadded.
  - done.
  - done.
  - intros Hgrid. unfold chosen. rewrite decide_True; [|by destruct (sample_clustering_prior _ _)].
    by destruct grid_prior.
  - intros Hgrid.
    assert (chosen =
            (match kinds (cross_cat_ s) !! 0 with
             | Some kind0 => clustering (model kind0)
             | None => clustering (model_clear default_model)
             end, rng_ s)) as Hchosen.
    { unfold chosen. rewrite decide_False; [by rewrite Hgrid; simpl; lia|done]. }
    split_and!.
    + by rewrite Hchosen.
    + unfold with_cross_cat, set_rng, with_assignments, packed_add. simpl.
      destruct (kinds (cross_cat_ s)) as [|k0 ks] eqn:Hks.
      * eexists. split; [done|]. done.
      * exists k0. split; [done|]. by rewrite Hchosen.
    + intros kind0 Hk0. by rewrite Hchosen Hk0.
  - done.
  - done.
  - change (init_unobserved _ counts sampled.2) with initialized.
    by destruct initialized.
  - unfold counts at 1. by rewrite Hcounts.
  - rewrite Hcounts. unfold group_count. lia.
  - done.
  - intros Hne. destruct (Hcons Hne) as (g & Hg & Hgmax). exists g.
    split_and!; [done| |done]. intros g' Hg'.
    rewrite Forall_forall in Hall. specialize (Hall _ Hg'). lia.
Qed.

Lemma differing_same (m : list nat) : differing m m = [].
Proof.
  unfold differing. destruct (filter _ _) as [|f l] eqn:Hfilter; [done|].
  assert (f ∈ filter (fun f => m !! f ≠ m !! f) (seq 0 (length m))) as Hf
    by (rewrite Hfilter; left).
  by apply list_elem_of_filter in Hf as [Hne _].
Qed.

Lemma only_in_same (m : list nat) : only_in m m = ∅.
Proof. unfold only_in. set_solver. Qed.

Lemma elem_of_differing old new f :
  f ∈ differing old new ↔ f < length old ∧ new !! f ≠ old !! f.
Proof.
  unfold differing. rewrite list_elem_of_filter elem_of_seq. naive_solver lia.
Qed.

(** C3: when the proposer returns the map it was given, [try_run] returns
    false, no feature is moved and no call of [move_feature_to_kind] is
    made, [change_count_], [birth_count_] and [death_count_] are 0, and the
    partition groups the features as before; what has changed is the
    reservoir of kinds that own nothing, which is rebuilt to
    [empty_kind_count_] kinds. *)
Theorem noop_transition (s : KindKernel) :
  sampler_contract →
  well_formed s →
  check_row_counts true s = Done tt s →
  (proposal_of s).1.1.1 = featureid_to_kindid (cross_cat_ s) →
  let old := featureid_to_kindid (cross_cat_ s) in
  let new := (proposal_of s).1.1.1 in
  ∃ s', try_run s = Done false s'
    ∧ move_calls old new = []
    ∧ apply_moves old new (proposed s) = Done 0 (proposed s)
    ∧ change_count_ s' = 0
    ∧ birth_count_ s' = 0
    ∧ death_count_ s' = 0
    ∧ same_partition (cross_cat_ s) (cross_cat_ s')
    ∧ featureless_kind_count (cross_cat_ s') = empty_kind_count_ s.
Proof.
  intros Hsampler Hwf Hrows Hsame old new.
  assert (Hcalls : move_calls old new = []).
  { unfold move_calls, new. by rewrite Hsame differing_same. }
  assert (Hcontract : proposal_contract s).
  { unfold proposal_contract. fold old. fold new. rewrite Hcalls.
    unfold new. rewrite Hsame. split_and!; [done| |done].
    apply map_in_range, Hwf. }
  destruct (try_run_Done s Hsampler Hwf Hrows Hcontract)
    as (moved & s' & Hmoves & _ & _ & Hrun & _ & Hchange & Hdeath & Hbirth
        & _ & _ & Hcount & Hpart).
  fold old in Hmoves, Hrun, Hchange, Hdeath, Hbirth.
  fold new in Hmoves, Hrun, Hchange, Hdeath, Hbirth.
  assert (Hdiff : differing old new = []).
  { unfold new. by rewrite Hsame differing_same. }
  assert (Hmoved : moved = proposed s).
  { rewrite apply_moves_calls in Hmoves; [by unfold new; rewrite Hsame|].
    rewrite Hcalls in Hmoves. by injection Hmoves. }
  subst moved. rewrite Hdiff in Hrun, Hchange, Hmoves.
  exists s'. split_and!; try done.
  - rewrite Hbirth. unfold new. by rewrite Hsame only_in_same.
  - rewrite Hdeath. unfold new. by rewrite Hsame only_in_same.
Qed.

(** C4: [try_run] returns true exactly when some feature's proposed kind
    index differs from its previous one; [change_count_] is then the number
    of such features and [total_count_] the number of features; the loop
    over the features makes one call of [move_feature_to_kind] for each
    differing feature, to its proposed kind, and no other call. Each call
    moves its feature: it sets the feature's entry of the map and takes
    the feature from the owned set of its old kind into that of the new
    one. When the loop is through, the map is the proposed one, every
    differing feature is owned by its proposed kind and no longer by its
    previous one, and in the state [try_run] returns in two features are
    in the same kind exactly when their proposed kind indices are equal. *)
Theorem try_run_moves (s : KindKernel) :
  sampler_contract →
  well_formed s →
  check_row_counts true s = Done tt s →
  proposal_contract s →
  let old := featureid_to_kindid (cross_cat_ s) in
  let new := (proposal_of s).1.1.1 in
  ∃ b s', try_run s = Done b s'
    ∧ (b = true ↔ ∃ f, f < length old ∧ new !! f ≠ old !! f)
    ∧ change_count_ s' = length (differing old new)
    ∧ (∀ f, f ∈ differing old new ↔ f < length old ∧ new !! f ≠ old !! f)
    ∧ NoDup (differing old new)
    ∧ total_count_ s' = length old
    ∧ (∀ s0, apply_moves old new s0 =
             (for_each (move_calls old new) call_move >>
              ret (length (differing old new))) s0)
    ∧ (move_calls old new).*1 = differing old new
    ∧ (∀ f n, (f, n) ∈ move_calls old new → new !! f = Some n)
    ∧ (∃ moved,
         for_each (move_calls old new) call_move (proposed s) = Done tt moved
         ∧ featureid_to_kindid (cross_cat_ moved) = new
         ∧ (∀ f n, (f, n) ∈ move_calls old new →
              ∃ kind, kinds (cross_cat_ moved) !! n = Some kind
                      ∧ f ∈ featureids kind)
         ∧ (∀ f o kind, f ∈ differing old new → old !! f = Some o →
              kinds (cross_cat_ moved) !! o = Some kind → f ∉ featureids kind)
         ∧ same_partition (cross_cat_ moved) (cross_cat_ s'))
    ∧ (∀ s0 f n o,
         bijection (cross_cat_ s0) →
         Forall (fun column => length column = row_count (assignments_ s0))
                (values (assignments_ s0)) →
         featureid_to_kindid (cross_cat_ s0) !! f = Some o →
         n ≠ o →
         n < length (kinds (cross_cat_ s0)) →
         n < length (p_kinds (kind_proposer_ s0)) →
         ∃ s1, call_move (f, n) s0 = Done tt s1
               ∧ featureid_to_kindid (cross_cat_ s1) =
                   <[f := n]> (featureid_to_kindid (cross_cat_ s0))
               ∧ owned_sets (cross_cat_ s1) =
                   alter (fun X => {[f]} ∪ X) n
                     (alter (fun X => X ∖ {[f]}) o (owned_sets (cross_cat_ s0))))
    ∧ (∀ f g kf kg,
         new !! f = Some kf → new !! g = Some kg →
         ∃ kf' kg',
           featureid_to_kindid (cross_cat_ s') !! f = Some kf'
           ∧ featureid_to_kindid (cross_cat_ s') !! g = Some kg'
           ∧ (kf' = kg' ↔ kf = kg)).
Proof.
  intros Hsampler Hwf Hrows Hcontract old new.
  destruct (try_run_Done s Hsampler Hwf Hrows Hcontract)
    as (moved & s' & Hmoves & Hmap & Hbij1 & Hrun & Htotal & Hchange & _ & _
        & Hbij' & _ & _ & Hpart).
  destruct (try_run_steps s Hsampler Hwf Hrows Hcontract)
    as (moved2 & s3 & s'2 & Hrun2 & Hmap2 & Hbij2 & _ & _ & _ & Hbij3 & _ & _
        & Hpart2 & _ & _ & Hmap3 & Hcc & _).
  destruct Hcontract as (Hlen & _ & _).
  fold old in Hmoves, Hrun, Htotal, Hchange, Hlen, Hrun2, Hmap3.
  fold new in Hmoves, Hmap, Hrun, Hchange, Hlen, Hrun2, Hmap2.
  rewrite Hrun in Hrun2. injection Hrun2 as <-.
  eexists _, s'. split_and!; try done.
  - rewrite bool_decide_eq_true. split.
    + intros Hpos. destruct (differing old new) as [|f l] eqn:Hd; [simpl in Hpos; lia|].
      exists f. apply elem_of_differing. rewrite Hd. left.
    + intros (f & Hf). apply elem_of_differing in Hf.
      destruct (differing old new); [by apply elem_of_nil in Hf|simpl; lia].
  - apply elem_of_differing.
  - apply NoDup_differing.
  - intros s0. by apply apply_moves_calls.
  - by apply move_calls_fst.
  - by intros f n (_ & ? & _)%elem_of_move_calls.
  - exists moved. split_and!.
    + rewrite apply_moves_calls in Hmoves; [done|].
      unfold bind in Hmoves.
      destruct (for_each (move_calls old new) call_move (proposed s))
        as [[] m|?|?]; [|done..].
      by injection Hmoves as <-.
    + done.
    + intros f n (_ & Hn & _)%elem_of_move_calls.
      apply (proj1 Hbij1). by rewrite Hmap.
    + intros f o kind Hf Ho Hkind Hin.
      apply elem_of_differing in Hf as [_ Hne]. apply Hne.
      rewrite Ho -Hmap. by apply (proj2 Hbij1 _ kind).
    + done.
  - intros s0 f n o Hbij0 Hcols Hf Hne Hn Hp.
    destruct (move_feature_to_kind_Done f n o s0)
      as (s1 & Hcall & Hmap1 & Hsets1 & _); try done.
    by exists s1.
  - rewrite Hcc -Hmap2. apply same_partition_same_groups; try done.
    by rewrite Hmap3 Hmap2.
Qed.

(** C5: after [try_run], [death_count_] is the number of kind indices
    that appear in the previous map and not in the proposed one, and
    [birth_count_] the number of those that appear in the proposed map and
    not in the previous one. In particular, when kind 0 loses all of its
    features and a kind that was empty gains a feature that belonged to
    kind 0, these being the kinds that change between occupied and empty,
    both counters are 1. *)
Theorem birth_death_counts (s : KindKernel) :
  sampler_contract →
  well_formed s →
  check_row_counts true s = Done tt s →
  proposal_contract s →
  let old := featureid_to_kindid (cross_cat_ s) in
  let new := (proposal_of s).1.1.1 in
  ∃ b s', try_run s = Done b s'
    ∧ death_count_ s' = size (only_in old new)
    ∧ birth_count_ s' = size (only_in new old)
    ∧ (∀ kindid, kindid ∈ only_in old new ↔ kindid ∈ old ∧ kindid ∉ new)
    ∧ (∀ kindid, kindid ∈ only_in new old ↔ kindid ∈ new ∧ kindid ∉ old)
    ∧ (∀ f born,
         old !! f = Some 0 →
         new !! f = Some born →
         0 ∉ new →
         born ∉ old →
         (∀ kindid, kindid ∈ old → kindid ≠ 0 → kindid ∈ new) →
         (∀ kindid, kindid ∈ new → kindid ≠ born → kindid ∈ old) →
         death_count_ s' = 1 ∧ birth_count_ s' = 1).
Proof.
  intros Hsampler Hwf Hrows Hcontract old new.
  destruct (try_run_Done s Hsampler Hwf Hrows Hcontract)
    as (moved & s' & _ & _ & _ & Hrun & _ & _ & Hdeath & Hbirth & _).
  fold old in Hrun, Hdeath, Hbirth. fold new in Hrun, Hdeath, Hbirth.
  assert (Hin : ∀ l l' k, k ∈ only_in l l' ↔ k ∈ l ∧ k ∉ l').
  { intros l l' k. unfold only_in.
    by rewrite elem_of_difference !elem_of_list_to_set. }
  eexists _, s'. split_and!; try done.
  intros f born Hf Hborn Hlost Hempty Hdeaths Hbirths.
  assert (0 ∈ old) as Hzero by (by eapply list_elem_of_lookup_2).
  assert (born ∈ new) as Hgained by (by eapply list_elem_of_lookup_2).
  assert (only_in old new = {[0]}) as Hd.
  { apply set_eq. intros k. rewrite Hin elem_of_singleton. split.
    - intros [Hk Hk']. destruct (decide (k = 0)) as [|Hne]; [done|].
      by specialize (Hdeaths k Hk Hne).
    - by intros ->. }
  assert (only_in new old = {[born]}) as Hb.
  { apply set_eq. intros k. rewrite Hin elem_of_singleton. split.
    - intros [Hk Hk']. destruct (decide (k = born)) as [|Hne]; [done|].
      by specialize (Hbirths k Hk Hne).
    - by intros ->. }
  rewrite Hdeath Hbirth Hd Hb. by rewrite !size_singleton.
Qed.

End KernelProofs.

(** * The kernel on the small instance *)

Section ExampleProofs.

Import Example.
#[local] Existing Instance collaborators.

Lemma example_sampler_contract : sampler_contract.
Proof.
  intros c n rng. simpl. split.
  - by rewrite length_fmap length_seq.
  - apply Forall_fmap, Forall_forall. intros row _. simpl.
    pose proof (Nat.mod_upper_bound row 2). lia.
Qed.

Lemma example_well_formed (proposer : Proposer) (cc : CrossCat) (a : Assignments) :
  image_is_occupied cc = true →
  owned_sets_agree cc = true →
  length (values a) = length (kinds cc) →
  forallb (fun column => length column =? length (keys a)) (values a) = true →
  (length (kinds cc) <? 1000) = true →
  well_formed (members proposer cc a).
Proof.
  intros Himg Hown Hlen Hcols Hsize. split; simpl.
  - by apply validate_sound.
  - split; simpl; [done|]. apply Forall_forall. intros col Hcol.
    rewrite forallb_forall in Hcols. by apply Nat.eqb_eq, Hcols, list_elem_of_In.
  - apply Nat.ltb_lt in Hsize. lia.
  - lia.
Qed.

(** Decide a closed proposition by evaluation. *)
Ltac by_evaluation :=
  match goal with
  | |- ?P => apply (@bool_decide_unpack P _); vm_compute; exact I
  end.

Lemma bijection_invariant_witness :
  ∃ s', init_featureless_kinds 2 (members (planned stay) empty_full_empty three_columns)
          = Done tt s'
        ∧ bijection (cross_cat_ s').
Proof.
  destruct (@bijection_invariant collaborators (planned stay))
    as (_ & _ & _ & _ & _ & _ & _ & _ & _ & Hinit).
  apply Hinit.
  - apply example_sampler_contract.
  - by apply example_well_formed.
Defined.

Lemma reservoir_invariant_witness :
  ∃ s', init_featureless_kinds 2 (members (planned stay) empty_full_empty three_columns)
          = Done tt s'
        ∧ featureless_kind_count (cross_cat_ s') = 2.
Proof.
  destruct (@reservoir_invariant collaborators (planned stay) example_sampler_contract)
    as (Hinit & _).
  apply Hinit. by apply example_well_formed.
Defined.

Lemma noop_transition_witness :
  ∃ s', @try_run _ (planned stay)
          (members (planned stay) full_empty_empty three_columns)
          = Done false s'
        ∧ change_count_ s' = 0 ∧ birth_count_ s' = 0 ∧ death_count_ s' = 0.
Proof.
  destruct (@noop_transition collaborators (planned stay)
              (members (planned stay) full_empty_empty three_columns))
    as (s' & Hrun & _ & _ & Hchange & Hbirth & Hdeath & _).
  - apply example_sampler_contract.
  - by apply example_well_formed.
  - reflexivity.
  - reflexivity.
  - by exists s'.
Defined.

Lemma example_proposal_contract :
  @proposal_contract _ (planned last_feature_to_1)
    (members (planned last_feature_to_1) full_empty_empty three_columns).
Proof.
  unfold proposal_contract. split_and!.
  - reflexivity.
  - by_evaluation.
  - by_evaluation.
Qed.

Lemma try_run_moves_witness :
  ∃ s' moved,
    @try_run _ (planned last_feature_to_1)
      (members (planned last_feature_to_1) full_empty_empty three_columns)
    = Done true s'
    ∧ change_count_ s' = 1 ∧ total_count_ s' = 3
    ∧ for_each [(2, 1)] call_move
        (@proposed _ (planned last_feature_to_1)
           (members (planned last_feature_to_1) full_empty_empty three_columns))
      = Done tt moved
    ∧ featureid_to_kindid (cross_cat_ moved) = [0; 0; 1].
Proof.
  destruct (@try_run_moves collaborators (planned last_feature_to_1)
              (members (planned last_feature_to_1) full_empty_empty three_columns))
    as (b & s' & Hrun & Hb & Hchange & _ & _ & Htotal & _ & _ & _
        & (moved & Hcalls & Hmap & _) & _).
  - apply example_sampler_contract.
  - by apply example_well_formed.
  - reflexivity.
  - apply example_proposal_contract.
  - exists s', moved. split_and!; [|done..].
    rewrite Hrun. f_equal. apply Hb. exists 2. split; [simpl; lia|done].
Defined.

Lemma synthetic_proposal_contract :
  @proposal_contract _ (planned first_feature_to_last)
    (members (planned first_feature_to_last) one_one_empty three_columns).
Proof.
  unfold proposal_contract. split_and!.
  - reflexivity.
  - by_evaluation.
  - by_evaluation.
Qed.

Lemma birth_death_counts_witness :
  ∃ b s', @try_run _ (planned first_feature_to_last)
            (members (planned first_feature_to_last) one_one_empty three_columns)
          = Done b s'
          ∧ featureid_to_kindid one_one_empty = [0; 1]
          ∧ (@proposal_of _ (planned first_feature_to_last)
               (members (planned first_feature_to_last) one_one_empty three_columns)
            ).1.1.1 = [2; 1]
          ∧ death_count_ s' = 1 ∧ birth_count_ s' = 1.
Proof.
  destruct (@birth_death_counts collaborators (planned first_feature_to_last)
              (members (planned first_feature_to_last) one_one_empty three_columns))
    as (b & s' & Hrun & _ & _ & _ & _ & Hcase).
  - apply example_sampler_contract.
  - by apply example_well_formed.
  - reflexivity.
  - apply synthetic_proposal_contract.
  - exists b, s'. split_and!; [done|reflexivity|reflexivity|..];
      apply (Hcase 0 2); try reflexivity; try by_evaluation;
      intros k Hk Hne; revert Hk Hne; simpl;
      rewrite !elem_of_cons elem_of_nil; intros Hk Hne; intuition lia.
Defined.

Lemma remove_nonempty_kind_is_fatal_witness :
  remove_featureless_kind 1 (members (planned stay) empty_full_empty three_columns)
  = Fatal "cannot remove nonempty kind"
      (members (planned stay) empty_full_empty three_columns).
Proof.
  destruct (@remove_nonempty_kind_is_fatal collaborators
              (members (planned stay) empty_full_empty three_columns)
              1 (kind_of [0; 1]) eq_refl) as (Hfatal & _).
  apply Hfatal. by_evaluation.
Defined.

Lemma remove_featureless_kind_renumbers_witness :
  ∃ s', remove_featureless_kind 0
          (members (planned stay) empty_full_empty three_columns) = Done tt s'
        ∧ length (kinds (cross_cat_ s')) = 2
        ∧ length (values (assignments_ s')) = 2.
Proof.
  destruct (@remove_featureless_kind_renumbers collaborators
              (members (planned stay) empty_full_empty three_columns)
              0 (kind_of []))
    as (s' & Hrun & _ & _ & Hkinds & Hvalues & _).
  - by apply validate_sound.
  - split; [reflexivity|by_evaluation].
  - reflexivity.
  - reflexivity.
  - by exists s'.
Defined.

Lemma add_featureless_kind_spec_witness :
  ∃ s' kind,
    add_featureless_kind (members (planned stay) one_kind three_rows) = Done tt s'
    ∧ kinds (cross_cat_ s') = kinds one_kind ++ [kind]
    ∧ featureids kind = ∅.
Proof.
  destruct (@add_featureless_kind_spec collaborators
              (members (planned stay) one_kind three_rows))
    as (s' & kind & rng1 & counts & Hrun & Hkinds & Hempty & _).
  - apply example_sampler_contract.
  - simpl. lia.
  - by exists s', kind.
Defined.

End ExampleProofs.

(** * Properties of the record stream *)

Section StreamProofs.

Import ProtobufStream.

Local Open Scope Z_scope.

Lemma Z_of_byte_of_Z z : Z_of_byte (byte_of_Z z) = z mod 256.
Proof.
  unfold Z_of_byte, byte_of_Z.
  pose proof (Z.mod_pos_bound z 256 ltac:(lia)) as Hz.
  destruct (Byte.of_N (Z.to_N (z mod 256))) as [b|] eqn:Hb.
  - apply Byte.to_of_N in Hb. rewrite Hb. lia.
  - apply Byte.of_N_None_iff in Hb. lia.
Qed.

Lemma testbit_byte v i n :
  0 ≤ n →
  Z.testbit (Z.shiftl (Z.shiftr v i mod 256) i) n =
    if decide (i ≤ n < i + 8) then Z.testbit v n else false.
Proof.
  intros Hn. rewrite Z.shiftl_spec; [done|].
  destruct (decide (i ≤ n < i + 8)) as [Hin|Hout].
  - change 256 with (2 ^ 8). rewrite Z.mod_pow2_bits_low; [lia|].
    rewrite Z.shiftr_spec; [lia|]. f_equal. lia.
  - destruct (decide (n < i)).
    + rewrite Z.testbit_neg_r; [lia|done].
    + change 256 with (2 ^ 8). rewrite Z.mod_pow2_bits_high; [lia|done].
Qed.

Lemma read_write_le32 (v : Z) (rest : list byte) :
  0 ≤ v < 2 ^ 32 →
  ReadLittleEndian32 (WriteLittleEndian32 v ++ rest) = (true, v, rest).
Proof.
  intros Hv. unfold WriteLittleEndian32, ReadLittleEndian32.
  rewrite (Z.mod_small v); [done|]. simpl app. cbv beta iota.
  rewrite !Z_of_byte_of_Z. do 2 f_equal.
  apply Z.bits_inj'. intros n Hn.
  rewrite -(Z.shiftl_0_r (v mod 256)) -{1}(Z.shiftr_0_r v).
  rewrite !Z.lor_spec !testbit_byte; [done..|].
  repeat case_decide; try lia; rewrite ?orb_false_r ?orb_false_l; try done.
  symmetry. rewrite -(Z.mod_small v (2 ^ 32)); [lia|].
  apply Z.mod_pow2_bits_high. lia.
Qed.

Context `{MessageType} `{Platform}.

Lemma length_WriteLittleEndian32 v : length (WriteLittleEndian32 v) = 4%nat.
Proof. done. Qed.


(** ** Writing *)

Lemma write_stream_Done (message : Message) (f : OutFile) :
  IsInitialized message = true →
  write_stream message f =
    Done tt {| out_filename_ := out_filename_ f;
               out_is_file_ := out_is_file_ f;
               written := written f ++ record (serialize message) |}.
Proof.
  intros Hinit. unfold write_stream, loom_assert1, loom_assert, bind, emit, modify, ret.
  rewrite Hinit. unfold record. simpl.
  case_decide; simpl; by rewrite -app_assoc.
Qed.


(** ** Reading *)

Lemma limited_record (payload rest : list byte) :
  Z.of_nat (length payload) < 2 ^ 31 →
  limited (int_of_uint32 (Z.of_nat (length payload))) (payload ++ rest) = payload.
Proof.
  intros Hlen. unfold limited, int_of_uint32.
  destruct (decide (Z.of_nat (length payload) < 2 ^ 31)); [|lia].
  destruct (decide (0 ≤ Z.of_nat (length payload))); [|lia].
  rewrite Nat2Z.id. by rewrite take_app_length.
Qed.

Lemma try_read_stream_record (message : Message) (rest : list byte) (f : InFile) :
  well_formed_message message →
  stream_ f = record (serialize message) ++ rest →
  try_read_stream f = Done (Some message) (advanced 1 rest f).
Proof.
  intros (_ & Hparse & Hlen) Hstream.
  unfold try_read_stream, bind, gets. rewrite Hstream. unfold record.
  rewrite -app_assoc read_write_le32; [lia|].
  rewrite limited_record; [done|]. rewrite Hparse.
  unfold set_stream, next_position, modify, ret, advanced. simpl.
  by rewrite drop_app_length.
Qed.

Lemma try_read_stream_end (f : InFile) :
  (length (stream_ f) < 4)%nat →
  try_read_stream f = Done None (advanced 0 [] f).
Proof.
  intros Hshort. unfold try_read_stream, bind, gets.
  destruct (stream_ f) as [|b0 [|b1 [|b2 [|b3 rest]]]]; simpl in *;
    first [done | lia].
Qed.


Lemma advanced_advanced n m rest rest' f :
  advanced n rest (advanced m rest' f) = advanced (n + m) rest f.
Proof. unfold advanced. simpl. by rewrite Nat.iter_add. Qed.


Lemma length_records_ge (payloads : list (list byte)) :
  (length payloads ≤ length (records payloads))%nat.
Proof.
  unfold records. induction payloads as [|r payloads IH]; [done|].
  rewrite fmap_cons. cbn [concat length]. rewrite length_app. unfold record at 1.
  rewrite length_app length_WriteLittleEndian32. lia.
Qed.

(** The loop of [protobuf_stream_load] never runs out of turns. *)
Lemma read_messages_total : ∀ turns f f',
  (length (stream_ f) ≤ turns)%nat →
  read_messages turns f ≠ Undefined f'.
Proof.
  induction turns as [|turns IH]; intros f f' Hturns.
  - simpl. unfold bind. rewrite try_read_stream_end; [lia|done].
  - simpl. unfold bind at 1.
    destruct (try_read_stream f) as [[m|] f1|msg f1|f1] eqn:Hread; try done.
    + assert (length (stream_ f1) ≤ turns)%nat as Hshorter.
      { revert Hread. unfold try_read_stream, bind, gets.
        destruct (stream_ f) as [|b0 [|b1 [|b2 [|b3 rest]]]] eqn:Hs; try done.
        simpl. destruct (parse _); [|done].
        unfold set_stream, next_position, modify, ret. intros [= _ <-].
        simpl. rewrite length_drop. simpl in Hturns. lia. }
      unfold bind.
      destruct (read_messages turns f1) as [ms f2|msg f2|f2] eqn:Hrest; try done.
      by apply IH in Hrest.
    + revert Hread. unfold try_read_stream, bind, gets.
      destruct (ReadLittleEndian32 (stream_ f)) as [[[] size] rest]; [|done].
      simpl. by destruct (parse _).
Qed.

(** ** Round trip *)


(** ** Positioning *)

Lemma records_app (l1 l2 : list (list byte)) :
  records (l1 ++ l2) = records l1 ++ records l2.
Proof. unfold records. by rewrite fmap_app concat_app. Qed.

Lemma records_cons (r : list byte) (l : list (list byte)) :
  records (r :: l) = record r ++ records l.
Proof. done. Qed.

Lemma iter_position (n : nat) (p : Z) :
  0 ≤ p → p + Z.of_nat n < 2 ^ 64 →
  Nat.iter n (fun p => (p + 1) mod 2 ^ 64) p = p + Z.of_nat n.
Proof.
  induction n as [|n IH]; intros Hp Hn; simpl; [lia|].
  rewrite IH; [lia..|]. rewrite Z.mod_small; lia.
Qed.

Lemma skip_record_Done (payload rest : list byte) (f : InFile) :
  Z.of_nat (length payload) < 2 ^ 31 →
  stream_ f = record payload ++ rest →
  skip_record f = Done tt (advanced 1 rest f).
Proof.
  intros Hlen Hstream. unfold skip_record, bind, gets.
  rewrite Hstream. unfold record. rewrite -app_assoc read_write_le32; [lia|].
  unfold Skip, int_of_uint32.
  destruct (decide (Z.of_nat (length payload) < 2 ^ 31)); [|lia].
  destruct (decide (Z.of_nat (length payload) < 0)); [lia|].
  rewrite decide_True; [rewrite length_app; lia|].
  unfold set_stream, loom_assert, next_position, modify, advanced. simpl.
  by rewrite Nat2Z.id drop_app_length.
Qed.


Lemma skip_records_Done (payloads : list (list byte)) : ∀ rest f,
  Forall (fun payload => Z.of_nat (length payload) < 2 ^ 31) payloads →
  stream_ f = records payloads ++ rest →
  skip_records (length payloads) f = Done tt (advanced (length payloads) rest f).
Proof.
  induction payloads as [|r payloads IH]; intros rest f Hall Hstream.
  - simpl. unfold ret. f_equal. destruct f. unfold advanced. simpl in *.
    by rewrite Hstream.
  - apply Forall_cons in Hall as [Hr Hall].
    rewrite records_cons -app_assoc in Hstream.
    simpl. unfold bind. rewrite (skip_record_Done r _ f Hr Hstream).
    rewrite (IH rest); [done..|]. rewrite advanced_advanced. do 2 f_equal. lia.
Qed.

Lemma skip_records_add (m n : nat) : ∀ g,
  skip_records (m + n) g = (skip_records m >> skip_records n) g.
Proof.
  induction m as [|m IH]; intros g; [done|].
  simpl. unfold bind at 1. unfold bind at 1. unfold bind at 1.
  by destruct (skip_record g) as [[] g1|?|?].
Qed.




End StreamProofs.

(** * The record stream on concrete bytes *)

Section StreamExampleProofs.

Import ProtobufStream ProtobufStream.StreamExample.
#[local] Existing Instance raw_messages.
#[local] Existing Instance plain.

Local Open Scope Z_scope.

Lemma two_records_short :
  Forall (fun payload : list byte => Z.of_nat (length payload) < 2 ^ 31) two_records.
Proof. repeat constructor; simpl; lia. Qed.






End StreamExampleProofs.


(** * More properties of the kind kernel *)

Section KernelMore.

Context `{Collaborators} `{!Proposer}.

(** ** What the constructor and [try_run] refuse *)

(** X1: The constructor fails fatally when [iterations] is 0 and when
    [empty_kind_count] is 0, with the partition and the row assignment
    table as they were handed in; when it returns, both are positive. *)
Theorem construct_rejects_zero (config : Config) (tare : ProductValue)
    (cc : CrossCat) (a : Assignments) (seed : Z) :
  let s0 := initial_members config tare cc a seed in
  (kind_iterations config = 0 →
     construct config tare cc a seed = Fatal "expected 0 < iterations_" s0)
  ∧ (0 < kind_iterations config → kind_empty_kind_count config = 0 →
       construct config tare cc a seed = Fatal "expected 0 < empty_kind_count_" s0)
  ∧ (∀ s, construct config tare cc a seed = Done tt s →
       0 < kind_iterations config ∧ 0 < kind_empty_kind_count config)
  ∧ cross_cat_ s0 = cc ∧ assignments_ s0 = a.
Proof.
  intros s0.
  assert (Hfirst : kind_iterations config = 0 →
            construct config tare cc a seed = Fatal "expected 0 < iterations_" s0).
  { intros Hiter. unfold construct. fold s0.
    unfold bind at 1. unfold gets at 1. unfold bind at 1. unfold loom_assert at 1.
    change (iterations_ s0) with (kind_iterations config). by rewrite Hiter. }
  assert (Hsecond : 0 < kind_iterations config → kind_empty_kind_count config = 0 →
            construct config tare cc a seed =
              Fatal "expected 0 < empty_kind_count_" s0).
  { intros Hiter Hekc. unfold construct. fold s0.
    unfold bind at 1. unfold gets at 1. unfold bind at 1. unfold loom_assert at 1.
    change (iterations_ s0) with (kind_iterations config).
    rewrite (proj2 (Nat.ltb_lt _ _) Hiter).
    unfold bind at 1. unfold gets at 1. unfold bind at 1. unfold loom_assert at 1.
    change (empty_kind_count_ s0) with (kind_empty_kind_count config).
    by rewrite Hekc. }
  split_and!; try done.
  intros s Hrun.
  destruct (decide (kind_iterations config = 0)) as [Hiter|Hiter].
  { by rewrite (Hfirst Hiter) in Hrun. }
  destruct (decide (kind_empty_kind_count config = 0)) as [Hekc|Hekc].
  { rewrite Hsecond in Hrun; [lia|done|done]. }
  lia.
Qed.

(** X2: With assertions of level 1 compiled in, [try_run] fails fatally, in
    the state it was called in, when the row assignment table and the
    mixture of kind 0 disagree on the number of rows, and when the
    proposer's mixture of kind 0 and the mixture of kind 0 do. *)
Theorem try_run_checks_row_counts (s : KindKernel) (kind0 : Kind)
    (proposed0 : ProposerKind) :
  1 ≤ LOOM_DEBUG_LEVEL →
  kinds (cross_cat_ s) !! 0 = Some kind0 →
  p_kinds (kind_proposer_ s) !! 0 = Some proposed0 →
  (row_count (assignments_ s) ≠ count_rows (mixture kind0) →
     try_run s = Fatal "expected assigned_row_count == cross_cat_row_count" s)
  ∧ (row_count (assignments_ s) = count_rows (mixture kind0) →
     count_rows (p_mixture proposed0) ≠ count_rows (mixture kind0) →
     try_run s = Fatal "expected proposer_row_count == cross_cat_row_count" s).
Proof.
  intros Hlevel Hkind0 Hproposed0.
  assert (Hcheck : check_row_counts true s =
            if row_count (assignments_ s) =? count_rows (mixture kind0)
            then if count_rows (p_mixture proposed0) =? count_rows (mixture kind0)
                 then Done tt s
                 else Fatal "expected proposer_row_count == cross_cat_row_count" s
            else Fatal "expected assigned_row_count == cross_cat_row_count" s).
  { unfold check_row_counts. rewrite decide_True; [done|].
    unfold bind at 1. unfold gets at 1.
    rewrite (bind_Done _ _ _ _ _ (kind_at_Some _ _ _ Hkind0)).
    unfold bind at 1. unfold proposed_kind_at at 1, in_bounds at 1.
    rewrite Hproposed0. unfold bind, loom_assert.
    by destruct (_ =? _). }
  split.
  - intros Hne. apply bind_Fatal. rewrite Hcheck.
    by rewrite (proj2 (Nat.eqb_neq _ _) Hne).
  - intros Heq Hne. apply bind_Fatal. rewrite Hcheck.
    rewrite (proj2 (Nat.eqb_eq _ _) Heq).
    by rewrite (proj2 (Nat.eqb_neq _ _) Hne).
Qed.

(** ** Moving a feature *)

(** X3: [move_feature_to_kind] to the kind the feature is in fails fatally and
    changes nothing; it returns only for another kind. *)
Theorem move_to_same_kind_is_fatal (s : KindKernel) (featureid new_kindid old_kindid : nat) :
  featureid_to_kindid (cross_cat_ s) !! featureid = Some old_kindid →
  (new_kindid = old_kindid →
     move_feature_to_kind featureid new_kindid s =
       Fatal "expected new_kindid != old_kindid" s)
  ∧ (∀ s', move_feature_to_kind featureid new_kindid s = Done tt s' →
       new_kindid ≠ old_kindid).
Proof.
  intros Hf.
  assert (Hsame : move_feature_to_kind featureid old_kindid s =
                  Fatal "expected new_kindid != old_kindid" s).
  { unfold move_feature_to_kind.
    unfold bind at 1. unfold kindid_of at 1, in_bounds at 1. rewrite Hf.
    unfold bind at 1. unfold loom_assert at 1.
    by rewrite bool_decide_eq_false_2; [intros Hne|]. }
  split.
  - by intros ->.
  - intros s' Hrun ->. by rewrite Hsame in Hrun.
Qed.


(** X4: What a move changes: the feature's entry of the map, the owned set of
    the kind it leaves and of the kind it joins; every other entry, every
    other owned set, the number of kinds, the row assignment table and the
    counters stay as they were. *)
Theorem move_feature_to_kind_effect (s : KindKernel)
    (featureid new_kindid old_kindid : nat) :
  bijection (cross_cat_ s) →
  Forall (fun column => length column = row_count (assignments_ s))
         (values (assignments_ s)) →
  featureid_to_kindid (cross_cat_ s) !! featureid = Some old_kindid →
  new_kindid ≠ old_kindid →
  new_kindid < length (kinds (cross_cat_ s)) →
  new_kindid < length (p_kinds (kind_proposer_ s)) →
  ∃ s', move_feature_to_kind featureid new_kindid s = Done tt s'
    ∧ featureid_to_kindid (cross_cat_ s') !! featureid = Some new_kindid
    ∧ (∀ other, other ≠ featureid →
         featureid_to_kindid (cross_cat_ s') !! other =
           featureid_to_kindid (cross_cat_ s) !! other)
    ∧ length (kinds (cross_cat_ s')) = length (kinds (cross_cat_ s))
    ∧ (∀ kindid X, owned_sets (cross_cat_ s) !! kindid = Some X →
         owned_sets (cross_cat_ s') !! kindid =
           Some (if decide (kindid = new_kindid) then {[featureid]} ∪ X
                 else if decide (kindid = old_kindid) then X ∖ {[featureid]}
                 else X))
    ∧ assignments_ s' = assignments_ s
    ∧ counters s' = counters s.
Proof.
  intros Hbij Hcols Hf Hne Hnew Hprop.
  destruct (move_feature_to_kind_Done featureid new_kindid old_kindid s)
    as (s' & Hrun & Hmap & Hsets & Has & _ & _ & Hcnt & _); try done.
  exists s'. split_and!; try done.
  - rewrite Hmap. apply list_lookup_insert_eq. by eapply lookup_lt_Some.
  - intros other Hother. rewrite Hmap. by apply list_lookup_insert_ne.
  - apply (f_equal length) in Hsets. unfold owned_sets in Hsets.
    by rewrite !length_alter !length_fmap in Hsets.
  - intros kindid X HX. rewrite Hsets.
    destruct (decide (kindid = new_kindid)) as [->|Hk].
    + rewrite list_lookup_alter_eq list_lookup_alter_ne; [done|]. by rewrite HX.
    + rewrite list_lookup_alter_ne; [done|].
      destruct (decide (kindid = old_kindid)) as [->|Hk'].
      * by rewrite list_lookup_alter_eq HX.
      * by rewrite list_lookup_alter_ne.
Qed.

(** X5: Moving a feature to another kind and back restores the map, every
    owned set and the row assignment table. *)
Theorem move_there_and_back (s : KindKernel)
    (featureid new_kindid old_kindid : nat) :
  bijection (cross_cat_ s) →
  Forall (fun column => length column = row_count (assignments_ s))
         (values (assignments_ s)) →
  featureid_to_kindid (cross_cat_ s) !! featureid = Some old_kindid →
  new_kindid ≠ old_kindid →
  new_kindid < length (kinds (cross_cat_ s)) →
  new_kindid < length (p_kinds (kind_proposer_ s)) →
  old_kindid < length (p_kinds (kind_proposer_ s)) →
  ∃ s1 s2,
    move_feature_to_kind featureid new_kindid s = Done tt s1
    ∧ move_feature_to_kind featureid old_kindid s1 = Done tt s2
    ∧ featureid_to_kindid (cross_cat_ s2) = featureid_to_kindid (cross_cat_ s)
    ∧ owned_sets (cross_cat_ s2) = owned_sets (cross_cat_ s)
    ∧ assignments_ s2 = assignments_ s.
Proof.
  intros Hbij Hcols Hf Hne Hnew Hprop Hpold.
  pose proof (lookup_lt_Some _ _ _ Hf) as Hflt.
  destruct (proj1 Hbij _ _ Hf) as (old_kind & Hold & Hin).
  pose proof (lookup_lt_Some _ _ _ Hold) as Holdlt.
  destruct (move_feature_to_kind_Done featureid new_kindid old_kindid s)
    as (s1 & Hrun1 & Hmap1 & Hsets1 & Has1 & Hpk1 & _ & _ & Hbij1); try done.
  assert (Hlen1 : length (kinds (cross_cat_ s1)) = length (kinds (cross_cat_ s))).
  { apply (f_equal length) in Hsets1. unfold owned_sets in Hsets1.
    by rewrite !length_alter !length_fmap in Hsets1. }
  destruct (move_feature_to_kind_Done featureid old_kindid new_kindid s1)
    as (s2 & Hrun2 & Hmap2 & Hsets2 & Has2 & _ & _ & _ & _); try done.
  { by rewrite Has1. }
  { rewrite Hmap1. by apply list_lookup_insert_eq. }
  { by rewrite Hlen1. }
  { by rewrite Hpk1. }
  exists s1, s2. split_and!; try done.
  - rewrite Hmap2 Hmap1 list_insert_insert_eq. by apply list_insert_id.
  - rewrite Hsets2 Hsets1. apply list_eq. intros k.
    rewrite !list_lookup_alter.
    destruct (decide (old_kindid = k)) as [<-|Hk].
    + rewrite decide_False; [done|]. rewrite decide_False; [done|].
      rewrite decide_True; [done|].
      unfold owned_sets. rewrite list_lookup_fmap Hold. simpl. f_equal.
      apply set_eq. intros x. rewrite elem_of_union elem_of_difference.
      rewrite elem_of_singleton. destruct (decide (x = featureid)); naive_solver.
    + destruct (decide (new_kindid = k)) as [<-|Hk']; [|done].
      rewrite decide_True; [done|]. rewrite decide_False; [done|].
      destruct (lookup_lt_is_Some_2 _ _ Hnew) as [nk Hnk].
      unfold owned_sets. rewrite list_lookup_fmap Hnk. simpl. f_equal.
      assert (featureid ∉ featureids nk).
      { intros HfX. pose proof (proj2 Hbij _ _ _ Hnk HfX) as Hf'. congruence. }
      apply set_eq. intros x. rewrite elem_of_difference elem_of_union.
      rewrite elem_of_singleton. naive_solver.
  - by rewrite Has2.
Qed.

(** ** Adding and removing a featureless kind *)

Lemma packed_remove_added {A} (l : list A) (x : A) :
  packed_remove (length l) (l ++ [x]) = l.
Proof.
  pose proof (packed_remove_last (l ++ [x])) as Hlast.
  rewrite length_app in Hlast. simpl in Hlast.
  replace (length l + 1 - 1) with (length l) in Hlast by lia.
  by rewrite Hlast take_app_length.
Qed.

Lemma added_values s :
  ∃ column, values (assignments_ (added s)) = values (assignments_ s) ++ [column].
Proof. by eexists. Qed.

(** X6: [remove_featureless_kind] on the kind that [add_featureless_kind] has
    just appended undoes the addition: the partition and the row
    assignment table are as before; only the random source has
    advanced. *)
Theorem add_then_remove (s : KindKernel) :
  sampler_contract →
  (0 ≤ empty_group_count_ s < 2 ^ 32)%Z →
  length (values (assignments_ s)) = length (kinds (cross_cat_ s)) →
  ∃ s1 s2,
    add_featureless_kind s = Done tt s1
    ∧ remove_featureless_kind (length (kinds (cross_cat_ s))) s1 = Done tt s2
    ∧ cross_cat_ s2 = cross_cat_ s
    ∧ assignments_ s2 = assignments_ s
    ∧ kind_proposer_ s2 = kind_proposer_ s
    ∧ settings s2 = settings s
    ∧ counters s2 = counters s.
Proof.
  intros Hsampler Hegc Hlen.
  exists (added s). eexists. split; [by apply add_featureless_kind_Done|].
  destruct (added_kinds s) as (kind & Hkinds & Hempty).
  destruct (added_values s) as (column & Hvalues).
  assert (Hkind : kinds (cross_cat_ (added s)) !! length (kinds (cross_cat_ s))
                  = Some kind).
  { rewrite Hkinds. by apply list_lookup_middle. }
  assert (Hcc : set_kinds (kinds (cross_cat_ s)) (cross_cat_ (added s))
                = cross_cat_ s).
  { unfold added. simpl. by destruct (cross_cat_ s). }
  assert (Has : set_values (values (assignments_ s)) (assignments_ (added s))
                = assignments_ s).
  { unfold added. simpl. by destruct (assignments_ s). }
  pose proof (added_frame s) as (Hset & Hcnt & Hprop & _).
  unfold remove_featureless_kind.
  rewrite (bind_Done _ _ _ _ _ (kind_at_Some _ _ _ Hkind)).
  unfold loom_assert. rewrite bool_decide_eq_true_2; [done|].
  cbv [bind modify gets in_bounds].
  change (values (assignments_ (with_cross_cat ?f (added s))))
    with (values (assignments_ (added s))).
  rewrite Hvalues -{1}Hlen list_lookup_middle; [done|].
  change (kinds (cross_cat_ (with_assignments ?g (with_cross_cat ?f (added s)))))
    with (packed_remove (length (kinds (cross_cat_ s)))
            (kinds (cross_cat_ (added s)))).
  rewrite Hkinds packed_remove_added.
  rewrite decide_False; [lia|].
  unfold ret. split; [done|].
  unfold with_assignments, with_cross_cat. cbn [cross_cat_ assignments_ kind_proposer_].
  rewrite Hkinds Hvalues packed_remove_added -Hlen packed_remove_added.
  split_and!.
  - exact Hcc.
  - exact Has.
  - exact Hprop.
  - exact Hset.
  - exact Hcnt.
Qed.

(** The counts a new kind's mixture is initialized from. *)

Lemma lookup_tallied (av : list Z) : ∀ (counts : list Z) (i : nat),
  Forall (fun g => (0 ≤ g < 2 ^ 31)%Z) av →
  tallied av counts !! i =
    (fun c => (c + Z.of_nat (length (filter (fun g => g = Z.of_nat i) av)))%Z)
      <$> counts !! i.
Proof.
  induction av as [|g av IH]; intros counts i Hall.
  - simpl. destruct (counts !! i); simpl; [f_equal; lia|done].
  - apply Forall_cons in Hall as [Hg Hall].
    unfold tallied. simpl. fold (tallied av (alter Z.succ (Z.to_nat (size_t_of_int g)) counts)).
    rewrite IH; [done|]. rewrite size_t_of_int_nonneg; [done|].
    rewrite filter_cons. rewrite list_lookup_alter.
    destruct (decide (Z.to_nat g = i)) as [Hi|Hi].
    + rewrite decide_True; [lia|]. subst i.
      destruct (counts !! Z.to_nat g); simpl; [f_equal; lia|done].
    + rewrite decide_False; [lia|done].
Qed.

Lemma sum_alter_succ (counts : list Z) : ∀ i,
  i < length counts →
  foldr Z.add 0%Z (alter Z.succ i counts) = (foldr Z.add 0%Z counts + 1)%Z.
Proof.
  induction counts as [|c counts IH]; intros i Hi; [simpl in Hi; lia|].
  destruct i as [|i]; simpl.
  - lia.
  - simpl in Hi. rewrite IH; lia.
Qed.

Lemma sum_tallied (av : list Z) : ∀ counts : list Z,
  Forall (fun g => (0 ≤ g < 2 ^ 31)%Z ∧ Z.to_nat g < length counts) av →
  foldr Z.add 0%Z (tallied av counts) =
    (foldr Z.add 0%Z counts + Z.of_nat (length av))%Z.
Proof.
  induction av as [|g av IH]; intros counts Hall.
  - simpl. lia.
  - apply Forall_cons in Hall as [[Hg Hlt] Hall].
    unfold tallied. simpl. fold (tallied av (alter Z.succ (Z.to_nat (size_t_of_int g)) counts)).
    rewrite size_t_of_int_nonneg; [done|].
    rewrite IH.
    { eapply Forall_impl; [done|]. intros g' [? ?]. by rewrite length_alter. }
    rewrite sum_alter_succ; [done|]. lia.
Qed.

Lemma sum_replicate_zero (n : nat) : foldr Z.add 0%Z (replicate n 0%Z) = 0%Z.
Proof. induction n as [|n IH]; simpl; [done|by rewrite IH]. Qed.

(** X7: [add_featureless_kind] initializes the mixture of the new kind from
    counts that tally the new column of the row assignment table: entry
    [g] is the number of rows assigned to group [g], every group a row is
    assigned to has an entry, the entries add up to the number of rows,
    and the last [empty_group_count_] entries are 0. *)
Theorem add_featureless_kind_counts (s : KindKernel) :
  sampler_contract →
  (0 ≤ empty_group_count_ s < 2 ^ 32)%Z →
  ∃ s' kind column counts rng1,
    add_featureless_kind s = Done tt s'
    ∧ kinds (cross_cat_ s') = kinds (cross_cat_ s) ++ [kind]
    ∧ values (assignments_ s') = values (assignments_ s) ++ [column]
    ∧ (mixture kind, rng_ s') = init_unobserved (model kind) counts rng1
    ∧ (∀ g c, counts !! g = Some c →
         c = Z.of_nat (length (filter (fun x => x = Z.of_nat g) column)))
    ∧ (∀ x, x ∈ column → (0 ≤ x)%Z ∧ Z.to_nat x < length counts)
    ∧ foldr Z.add 0%Z counts = Z.of_nat (row_count (assignments_ s))
    ∧ (∀ g c, (Z.of_nat (length counts) - empty_group_count_ s ≤ Z.of_nat g)%Z →
         counts !! g = Some c → c = 0%Z).
Proof.
  intros Hsampler Hegc.
  pose proof (add_featureless_kind_Done s Hsampler Hegc) as Hrun.
  set (grid_prior := hyper_prior_clustering (cross_cat_ s)).
  set (chosen :=
         if decide (length grid_prior ≠ 0)
         then sample_clustering_prior grid_prior (rng_ s)
         else (match kinds (cross_cat_ s) !! 0 with
               | Some kind0 => clustering (model kind0)
               | None => clustering (model_clear default_model)
               end, rng_ s)).
  set (sampled := sample_assignments chosen.1 (row_count (assignments_ s)) chosen.2).
  destruct (Hsampler chosen.1 (row_count (assignments_ s)) chosen.2) as [Hlen Hav].
  fold sampled in Hlen, Hav.
  destruct (max_group_count_spec sampled.1 Hav) as (Hmax & Hall & _ & _).
  set (group_count := (max_group_count sampled.1 + empty_group_count_ s)%Z).
  set (counts := tallied sampled.1 (replicate (Z.to_nat group_count) 0%Z)).
  set (m := {| clustering := chosen.1;
               features := features (model_clear default_model) |}).
  set (initialized := init_unobserved m counts sampled.2).
  assert (length counts = Z.to_nat group_count) as Hcounts.
  { unfold counts. by rewrite length_tallied length_replicate. }
  assert (Hadded : added s =
          set_rng initialized.2
            (with_assignments
               (fun a => set_values (packed_add sampled.1 (values a)) a)
               (with_cross_cat
                  (fun cc =>
                     set_kinds
                       (packed_add
                          {| model := m; mixture := initialized.1;
                             featureids := ∅ |}
                          (kinds cc))
                       cc)
                  s))).
  { unfold added. fold grid_prior. fold chosen. fold sampled.
    rewrite (Z.mod_small (max_group_count sampled.1 + empty_group_count_ s));
      [lia|]. done. }
  assert (Hslots : Forall (fun g => (0 ≤ g < 2 ^ 31)%Z
                                    ∧ Z.to_nat g < Z.to_nat group_count) sampled.1).
  { rewrite Forall_forall in Hav. rewrite Forall_forall in Hall.
    apply Forall_forall. intros g Hg. specialize (Hav g Hg). specialize (Hall g Hg).
    unfold group_count. split; [done|]. lia. }
  exists (added s), {| model := m; mixture := initialized.1; featureids := ∅ |},
         sampled.1, counts, sampled.2.
  rewrite Hadded. split_and!.
  - by rewrite -Hadded.
  - done.
  - done.
  - change (init_unobserved _ counts sampled.2) with initialized.
    by destruct initialized.
  - intros g c Hc. unfold counts in Hc. rewrite lookup_tallied in Hc; [done|].
    destruct (replicate _ _ !! g) as [z|] eqn:Hz; [|done].
    apply lookup_replicate in Hz as [-> _]. simpl in Hc. injection Hc as <-. lia.
  - intros x Hx. rewrite Forall_forall in Hslots. specialize (Hslots x Hx).
    rewrite Hcounts. split; [lia|]. by destruct Hslots.
  - unfold counts. rewrite sum_tallied.
    { eapply Forall_impl; [done|]. intros g [? ?]. by rewrite length_replicate. }
    rewrite sum_replicate_zero Hlen. lia.
  - intros g c Hg Hc. unfold counts in Hc. rewrite lookup_tallied in Hc; [done|].
    destruct (replicate _ _ !! g) as [z|] eqn:Hz; [|done].
    apply lookup_replicate in Hz as [-> _]. simpl in Hc. injection Hc as <-.
    rewrite Hcounts in Hg. unfold group_count in Hg.
    destruct (filter (fun x => x = Z.of_nat g) sampled.1) as [|x l] eqn:Hfilter;
      [done|].
    assert (x ∈ filter (fun x => x = Z.of_nat g) sampled.1) as Hx
      by (rewrite Hfilter; left).
    apply list_elem_of_filter in Hx as [-> Hx].
    rewrite Forall_forall in Hall. specialize (Hall _ Hx). lia.
Qed.

(** ** Transitions *)

(** X8: [try_run] leaves the kernel ready for the next transition: the state
    is well formed again, with the configuration, the rows and the number
    of features it had. *)
Theorem try_run_keeps_well_formed (s : KindKernel) :
  sampler_contract →
  well_formed s →
  check_row_counts true s = Done tt s →
  proposal_contract s →
  (Z.of_nat (empty_kind_count_ s + length (kinds (cross_cat_ s))) < 2 ^ 31)%Z →
  ∃ b s', try_run s = Done b s'
    ∧ well_formed s'
    ∧ settings s' = settings s
    ∧ keys (assignments_ s') = keys (assignments_ s)
    ∧ length (featureid_to_kindid (cross_cat_ s')) =
        length (featureid_to_kindid (cross_cat_ s)).
Proof.
  intros Hsampler Hwf Hrows Hcontract Hroom.
  destruct (try_run_steps s Hsampler Hwf Hrows Hcontract)
    as (moved & s3 & s' & Hrun & _ & _ & _ & _ & _ & Hbij3 & Hal3 & Hlen3 & _
        & Hset3 & Hkeys3 & Hmap3 & Hcc & Has & Hset & _).
  eexists _, s'. split_and!.
  - done.
  - split.
    + by rewrite Hcc.
    + destruct Hal3 as [? ?]. unfold aligned. by rewrite Hcc Has.
    + rewrite Hcc. lia.
    + assert (empty_group_count_ s' = empty_group_count_ s) as ->.
      { rewrite Hset3 in Hset. by injection Hset. }
      apply Hwf.
  - by rewrite Hset.
  - by rewrite Has.
  - by rewrite Hcc.
Qed.

(** X9: After [try_run] the features are grouped as the proposer proposed:
    two features are in the same kind exactly when their proposed kind
    indices are equal. The kinds may have been renumbered. *)
Theorem try_run_realizes_proposal (s : KindKernel) :
  sampler_contract →
  well_formed s →
  check_row_counts true s = Done tt s →
  proposal_contract s →
  let new := (proposal_of s).1.1.1 in
  ∃ b s', try_run s = Done b s'
    ∧ ∀ f g kf kg,
        new !! f = Some kf → new !! g = Some kg →
        ∃ kf' kg',
          featureid_to_kindid (cross_cat_ s') !! f = Some kf'
          ∧ featureid_to_kindid (cross_cat_ s') !! g = Some kg'
          ∧ (kf' = kg' ↔ kf = kg).
Proof.
  intros Hsampler Hwf Hrows Hcontract new.
  destruct (try_run_steps s Hsampler Hwf Hrows Hcontract)
    as (moved & s3 & s' & Hrun & Hmap & Hbij1 & _ & _ & _ & Hbij3 & _ & _ & Hpart
        & _ & _ & Hmap3 & Hcc & _).
  fold new in Hmap.
  destruct Hcontract as (Hlen & _ & _). fold new in Hlen.
  eexists _, s'. split; [done|]. rewrite Hcc. rewrite -Hmap.
  apply same_partition_same_groups; try done.
  by rewrite Hmap3 Hmap.
Qed.

(** X10: [init_featureless_kinds] regroups nothing: two features are in the
    same kind afterwards exactly when they were before, although kinds
    may have been renumbered; the rows, the counters, the proposer and
    the configuration are untouched. *)
Theorem init_featureless_kinds_keeps_grouping (s : KindKernel)
    (featureless_kind_count : nat) :
  sampler_contract →
  well_formed s →
  ∃ s', init_featureless_kinds featureless_kind_count s = Done tt s'
    ∧ (∀ f g kf kg,
         featureid_to_kindid (cross_cat_ s) !! f = Some kf →
         featureid_to_kindid (cross_cat_ s) !! g = Some kg →
         ∃ kf' kg',
           featureid_to_kindid (cross_cat_ s') !! f = Some kf'
           ∧ featureid_to_kindid (cross_cat_ s') !! g = Some kg'
           ∧ (kf' = kg' ↔ kf = kg))
    ∧ keys (assignments_ s') = keys (assignments_ s)
    ∧ counters s' = counters s
    ∧ kind_proposer_ s' = kind_proposer_ s
    ∧ settings s' = settings s.
Proof.
  intros Hsampler Hwf.
  destruct (init_featureless_kinds_Done featureless_kind_count s Hsampler Hwf)
    as (s' & Hrun & Hbij' & _ & _ & _ & Hpart & Hset & Hcnt & Hprop & Hkeys & Hlen).
  exists s'. split_and!; try done.
  apply same_partition_same_groups; try done. apply Hwf.
Qed.

(** ** The number of kinds *)

Lemma filter_ext_in {A} (P Q : A → Prop) `{∀ x, Decision (P x)}
    `{∀ x, Decision (Q x)} (l : list A) :
  (∀ x, x ∈ l → P x ↔ Q x) → filter P l = filter Q l.
Proof.
  induction l as [|x l IH]; intros Hext; [done|].
  rewrite !filter_cons.
  pose proof (Hext x ltac:(left)) as Hx.
  rewrite IH.
  { intros y Hy. apply Hext. by right. }
  destruct (decide (P x)), (decide (Q x)); tauto.
Qed.

Lemma length_filter_lookup {A} (P : A → Prop) `{∀ x, Decision (P x)} (l : list A) :
  length (filter P l) =
    length (filter (fun i => from_option P False (l !! i)) (seq 0 (length l))).
Proof.
  induction l as [|x l IH] using rev_ind; [done|].
  rewrite length_app. simpl. rewrite Nat.add_1_r seq_S !filter_app !length_app.
  simpl. f_equal.
  - rewrite IH. f_equal. apply filter_ext_in. intros i Hi.
    apply elem_of_seq in Hi. rewrite lookup_app_l; [lia|]. done.
  - rewrite !filter_cons !filter_nil. rewrite list_lookup_middle; [done|]. simpl.
    by destruct (decide (P x)).
Qed.

Lemma length_filter_complement {A} (P : A → Prop) `{∀ x, Decision (P x)}
    (l : list A) :
  length l = length (filter P l) + length (filter (fun x => ¬ P x) l).
Proof.
  induction l as [|x l IH]; [done|].
  rewrite !filter_cons. destruct (decide (P x)), (decide (¬ P x)); simpl; try tauto; lia.
Qed.

(** The kinds that own a feature are as many as the kind indices in the
    map. *)
Lemma occupied_count_image (cc : CrossCat) :
  bijection cc →
  length (filter (fun kind => ¬ featureids kind = ∅) (kinds cc)) =
    size (list_to_set (featureid_to_kindid cc) : gset nat).
Proof.
  intros [Hmap Hown]. rewrite length_filter_lookup.
  rewrite -(size_list_to_set (C := gset nat)).
  { apply NoDup_filter, NoDup_seq. }
  f_equal. apply set_eq. intros k.
  rewrite !elem_of_list_to_set list_elem_of_filter elem_of_seq. split.
  - intros [Hk _]. destruct (kinds cc !! k) as [kind|] eqn:Hkind; [|done].
    simpl in Hk. apply set_choose_L in Hk as [f Hf].
    apply list_elem_of_lookup. exists f. by eapply Hown.
  - intros Hk. apply list_elem_of_lookup in Hk as [f Hf].
    destruct (Hmap _ _ Hf) as (kind & Hkind & Hin).
    rewrite Hkind. simpl. split; [set_solver|].
    apply lookup_lt_Some in Hkind. lia.
Qed.

Lemma NoDup_occupied (sets : list (gset nat)) :
  (∀ i j X, ¬ X = ∅ → sets !! i = Some X → sets !! j = Some X → i = j) →
  NoDup (filter (fun X => ¬ X = ∅) sets).
Proof.
  induction sets as [|X sets IH]; intros Hinj.
  - constructor.
  - assert (NoDup (filter (fun X => ¬ X = ∅) sets)) as Htail.
    { apply IH. intros i j Y HY Hi Hj.
      assert (S i = S j) by (by eapply (Hinj (S i) (S j) Y)). lia. }
    rewrite filter_cons. destruct (decide (¬ X = ∅)) as [HX|]; [|done].
    constructor; [|done].
    intros Hin. apply list_elem_of_filter in Hin as [_ Hin].
    apply list_elem_of_lookup in Hin as [j Hj].
    by specialize (Hinj 0 (S j) X HX eq_refl Hj).
Qed.

Lemma occupied_count_same_partition (cc cc' : CrossCat) :
  bijection cc →
  bijection cc' →
  same_partition cc cc' →
  length (filter (fun kind => ¬ featureids kind = ∅) (kinds cc')) =
    length (filter (fun kind => ¬ featureids kind = ∅) (kinds cc)).
Proof.
  intros Hbij Hbij' Hpart.
  assert (Hnodup : ∀ c, bijection c →
            NoDup (filter (fun X : gset nat => ¬ X = ∅) (owned_sets c))).
  { intros c [_ Hown]. apply NoDup_occupied. intros i j X HX Hi Hj.
    unfold owned_sets in Hi, Hj. rewrite list_lookup_fmap in Hi.
    rewrite list_lookup_fmap in Hj.
    destruct (kinds c !! i) as [ki|] eqn:Hki; [|done].
    destruct (kinds c !! j) as [kj|] eqn:Hkj; [|done].
    simpl in Hi, Hj. injection Hi as Hi. injection Hj as Hj.
    apply set_choose_L in HX as [f Hf].
    assert (featureid_to_kindid c !! f = Some i) as Hfi
      by (apply (Hown _ ki); [done|by rewrite Hi]).
    assert (featureid_to_kindid c !! f = Some j) as Hfj
      by (apply (Hown _ kj); [done|by rewrite Hj]).
    congruence. }
  assert (Hsets : ∀ c,
            length (filter (fun kind => ¬ featureids kind = ∅) (kinds c)) =
              length (filter (fun X : gset nat => ¬ X = ∅) (owned_sets c))).
  { intros c. unfold owned_sets. induction (kinds c) as [|k ks IH]; [done|].
    rewrite fmap_cons !filter_cons.
    destruct (decide (¬ featureids k = ∅)); simpl; by rewrite IH. }
  rewrite !Hsets.
  apply Permutation_length, NoDup_Permutation.
  - by apply Hnodup.
  - by apply Hnodup.
  - intros X. rewrite !list_elem_of_filter. split.
    + intros [HX Hin]. split; [done|]. by apply Hpart.
    + intros [HX Hin]. split; [done|]. by apply Hpart.
Qed.

(** X11: After [try_run] the kind store holds one kind for every kind index
    that occurs in the proposal, and [empty_kind_count_] kinds that own
    nothing. *)
Theorem try_run_kind_count (s : KindKernel) :
  sampler_contract →
  well_formed s →
  check_row_counts true s = Done tt s →
  proposal_contract s →
  let new := (proposal_of s).1.1.1 in
  ∃ b s', try_run s = Done b s'
    ∧ length (kinds (cross_cat_ s')) =
        size (list_to_set new : gset nat) + empty_kind_count_ s.
Proof.
  intros Hsampler Hwf Hrows Hcontract new.
  destruct (try_run_steps s Hsampler Hwf Hrows Hcontract)
    as (moved & s3 & s' & Hrun & Hmap & Hbij1 & _ & _ & _ & Hbij3 & _ & _ & Hpart
        & _ & _ & Hmap3 & Hcc & _ & _ & _ & _ & _ & _ & Hcount).
  fold new in Hmap.
  eexists _, s'. split; [done|]. rewrite Hcc.
  rewrite (length_filter_complement (fun kind => featureids kind = ∅)
             (kinds (cross_cat_ s3))).
  fold (featureless_kind_count (cross_cat_ s3)). rewrite Hcount.
  rewrite (occupied_count_same_partition (cross_cat_ moved)); [done..|].
  rewrite occupied_count_image; [done|].
  rewrite Hmap. lia.
Qed.

(** ** The counters of a transition *)

Lemma size_list_to_set_le (l : list nat) :
  size (list_to_set l : gset nat) ≤ length l.
Proof.
  induction l as [|x l IH].
  - rewrite list_to_set_nil size_empty. simpl. lia.
  - rewrite list_to_set_cons size_union_alt size_singleton. simpl.
    pose proof (subseteq_size (list_to_set l ∖ {[x]}) (list_to_set l : gset nat)
                  ltac:(set_solver)).
    lia.
Qed.

Lemma only_in_differing (m m' old new : list nat) :
  length new = length old →
  (m = old ∧ m' = new) ∨ (m = new ∧ m' = old) →
  size (only_in m m') ≤ length (differing old new).
Proof.
  intros Hlen Hcase.
  pose proof (size_list_to_set_le
                ((fun f => default 0 (m !! f)) <$> differing old new)) as Hle.
  rewrite length_fmap in Hle.
  etrans; [|exact Hle].
  apply subseteq_size. intros k Hk. unfold only_in in Hk.
  apply elem_of_difference in Hk as [Hin Hout].
  apply elem_of_list_to_set in Hin.
  rewrite elem_of_list_to_set in Hout.
  apply list_elem_of_lookup in Hin as [f Hf].
  apply elem_of_list_to_set, list_elem_of_fmap. exists f. split; [by rewrite Hf|].
  apply elem_of_differing.
  pose proof (lookup_lt_Some _ _ _ Hf) as Hlt.
  destruct Hcase as [[-> ->]|[-> ->]].
  - split; [done|].
    destruct (lookup_lt_is_Some_2 new f) as [k' Hk']; [lia|].
    rewrite Hf Hk'. intros [= ->]. apply Hout. by eapply list_elem_of_lookup_2.
  - split; [lia|].
    destruct (lookup_lt_is_Some_2 old f) as [k' Hk']; [lia|].
    rewrite Hf Hk'. intros [= ->]. apply Hout. by eapply list_elem_of_lookup_2.
Qed.

(** X12: The counters [try_run] leaves are consistent: no more features change
    kind than there are features, and no more kinds are born, and no more
    die, than features change kind; a transition that returns false
    reports no birth and no death. *)
Theorem try_run_counters_bounded (s : KindKernel) :
  sampler_contract →
  well_formed s →
  check_row_counts true s = Done tt s →
  proposal_contract s →
  ∃ b s', try_run s = Done b s'
    ∧ change_count_ s' ≤ total_count_ s'
    ∧ birth_count_ s' ≤ change_count_ s'
    ∧ death_count_ s' ≤ change_count_ s'
    ∧ (b = false → change_count_ s' = 0 ∧ birth_count_ s' = 0 ∧ death_count_ s' = 0).
Proof.
  intros Hsampler Hwf Hrows Hcontract.
  destruct (try_run_steps s Hsampler Hwf Hrows Hcontract)
    as (moved & s3 & s' & Hrun & _ & _ & _ & _ & _ & _ & _ & _ & _
        & _ & _ & _ & _ & _ & _ & Hchange & Hdeath & Hbirth & Htotal & _).
  destruct Hcontract as (Hlen & _ & _).
  pose proof (only_in_differing _ _ _ _ Hlen (or_introl (conj eq_refl eq_refl)))
    as Hd.
  pose proof (only_in_differing _ _ _ _ Hlen (or_intror (conj eq_refl eq_refl)))
    as Hb.
  eexists _, s'. split_and!.
  - done.
  - rewrite Hchange Htotal. unfold differing.
    etrans; [apply length_filter|]. by rewrite length_seq.
  - by rewrite Hbirth Hchange.
  - by rewrite Hdeath Hchange.
  - intros Hfalse. apply bool_decide_eq_false in Hfalse.
    rewrite Hbirth Hdeath Hchange. lia.
Qed.

End KernelMore.

(** * More of the kernel on the small instance *)

Section ExampleMore.

Import Example.
#[local] Existing Instance collaborators.

(** Decide a closed proposition by evaluation. *)
Ltac evaluated :=
  match goal with
  | |- ?P => apply (@bool_decide_unpack P _); vm_compute; exact I
  end.

(** The kernel over one kind and two empty ones, once the proposer has
    mirrored the kinds. *)
Lemma mirrored_well_formed :
  bijection (cross_cat_ (@proposed _ (planned stay)
                           (members (planned stay) full_empty_empty three_columns)))
  ∧ Forall (fun column => length column = 3) (values three_columns).
Proof. split; [by apply validate_sound|evaluated]. Qed.

Lemma construct_rejects_zero_witness :
  @construct _ (planned stay) no_iterations tt one_kind three_rows 0
  = Fatal "expected 0 < iterations_"
      (@initial_members _ (planned stay) no_iterations tt one_kind three_rows 0).
Proof.
  destruct (@construct_rejects_zero collaborators (planned stay)
              no_iterations tt one_kind three_rows 0) as (Hzero & _).
  by apply Hzero.
Defined.

Lemma try_run_checks_row_counts_witness :
  @try_run checked watched miscounted
  = Fatal "expected assigned_row_count == cross_cat_row_count" miscounted.
Proof.
  destruct (@try_run_checks_row_counts checked watched miscounted
              {| model := @default_model checked; mixture := [2; 1]%Z;
                 featureids := list_to_set [0; 1; 2] |}
              {| p_model := @default_model checked; p_mixture := [2; 1]%Z |})
    as (Hrows & _).
  - simpl. lia.
  - reflexivity.
  - reflexivity.
  - apply Hrows. vm_compute. lia.
Defined.

Lemma move_to_same_kind_is_fatal_witness :
  move_feature_to_kind 2 0 (members (planned stay) full_empty_empty three_columns)
  = Fatal "expected new_kindid != old_kindid"
      (members (planned stay) full_empty_empty three_columns).
Proof.
  destruct (@move_to_same_kind_is_fatal collaborators
              (members (planned stay) full_empty_empty three_columns) 2 0 0 eq_refl)
    as (Hsame & _).
  by apply Hsame.
Defined.

Lemma move_feature_to_kind_effect_witness :
  ∃ s', move_feature_to_kind 2 1
          (@proposed _ (planned stay)
             (members (planned stay) full_empty_empty three_columns)) = Done tt s'
        ∧ featureid_to_kindid (cross_cat_ s') !! 2 = Some 1
        ∧ assignments_ s' = three_columns.
Proof.
  destruct (@move_feature_to_kind_effect collaborators
              (@proposed _ (planned stay)
                 (members (planned stay) full_empty_empty three_columns)) 2 1 0)
    as (s' & Hrun & Hmap & _ & _ & _ & Has & _).
  - apply mirrored_well_formed.
  - apply mirrored_well_formed.
  - reflexivity.
  - lia.
  - simpl. lia.
  - simpl. lia.
  - by exists s'.
Defined.

Lemma move_there_and_back_witness :
  ∃ s1 s2,
    move_feature_to_kind 2 1
      (@proposed _ (planned stay)
         (members (planned stay) full_empty_empty three_columns)) = Done tt s1
    ∧ move_feature_to_kind 2 0 s1 = Done tt s2
    ∧ featureid_to_kindid (cross_cat_ s2) = [0; 0; 0]
    ∧ owned_sets (cross_cat_ s2) = owned_sets full_empty_empty.
Proof.
  destruct (@move_there_and_back collaborators
              (@proposed _ (planned stay)
                 (members (planned stay) full_empty_empty three_columns)) 2 1 0)
    as (s1 & s2 & Hthere & Hback & Hmap & Hsets & _).
  - apply mirrored_well_formed.
  - apply mirrored_well_formed.
  - reflexivity.
  - lia.
  - simpl. lia.
  - simpl. lia.
  - simpl. lia.
  - by exists s1, s2.
Defined.

Lemma add_then_remove_witness :
  ∃ s1 s2,
    add_featureless_kind (members (planned stay) one_kind three_rows) = Done tt s1
    ∧ remove_featureless_kind 1 s1 = Done tt s2
    ∧ cross_cat_ s2 = one_kind
    ∧ assignments_ s2 = three_rows.
Proof.
  destruct (@add_then_remove collaborators
              (members (planned stay) one_kind three_rows))
    as (s1 & s2 & Hadd & Hremove & Hcc & Has & _).
  - apply example_sampler_contract.
  - simpl. lia.
  - reflexivity.
  - by exists s1, s2.
Defined.

Lemma add_featureless_kind_counts_witness :
  ∃ s' counts,
    add_featureless_kind (members (planned stay) one_kind three_rows) = Done tt s'
    ∧ foldr Z.add 0%Z counts = 3%Z.
Proof.
  destruct (@add_featureless_kind_counts collaborators
              (members (planned stay) one_kind three_rows))
    as (s' & kind & column & counts & rng1 & Hrun & _ & _ & _ & _ & _ & Hsum & _).
  - apply example_sampler_contract.
  - simpl. lia.
  - by exists s', counts.
Defined.

Lemma try_run_keeps_well_formed_witness :
  ∃ b s', @try_run _ (planned last_feature_to_1)
            (members (planned last_feature_to_1) full_empty_empty three_columns)
          = Done b s'
          ∧ well_formed s'.
Proof.
  destruct (@try_run_keeps_well_formed collaborators (planned last_feature_to_1)
              (members (planned last_feature_to_1) full_empty_empty three_columns))
    as (b & s' & Hrun & Hwf & _).
  - apply example_sampler_contract.
  - by apply example_well_formed.
  - reflexivity.
  - apply example_proposal_contract.
  - simpl. lia.
  - by exists b, s'.
Defined.

Lemma try_run_realizes_proposal_witness :
  ∃ b s' k0 k2,
    @try_run _ (planned last_feature_to_1)
      (members (planned last_feature_to_1) full_empty_empty three_columns)
    = Done b s'
    ∧ featureid_to_kindid (cross_cat_ s') !! 0 = Some k0
    ∧ featureid_to_kindid (cross_cat_ s') !! 2 = Some k2
    ∧ k0 ≠ k2.
Proof.
  destruct (@try_run_realizes_proposal collaborators (planned last_feature_to_1)
              (members (planned last_feature_to_1) full_empty_empty three_columns))
    as (b & s' & Hrun & Hgroups).
  - apply example_sampler_contract.
  - by apply example_well_formed.
  - reflexivity.
  - apply example_proposal_contract.
  - destruct (Hgroups 0 2 0 1 eq_refl eq_refl) as (k0 & k2 & H0 & H2 & Hiff).
    exists b, s', k0, k2. split_and!; [done..|].
    intros Heq. apply Hiff in Heq. lia.
Defined.

Lemma try_run_kind_count_witness :
  ∃ b s', @try_run _ (planned last_feature_to_1)
            (members (planned last_feature_to_1) full_empty_empty three_columns)
          = Done b s'
          ∧ length (kinds (cross_cat_ s')) = 4.
Proof.
  destruct (@try_run_kind_count collaborators (planned last_feature_to_1)
              (members (planned last_feature_to_1) full_empty_empty three_columns))
    as (b & s' & Hrun & Hcount).
  - apply example_sampler_contract.
  - by apply example_well_formed.
  - reflexivity.
  - apply example_proposal_contract.
  - exists b, s'. split; [done|]. rewrite Hcount. by vm_compute.
Defined.

Lemma try_run_counters_bounded_witness :
  ∃ b s', @try_run _ (planned last_feature_to_1)
            (members (planned last_feature_to_1) full_empty_empty three_columns)
          = Done b s'
          ∧ birth_count_ s' ≤ change_count_ s' ≤ total_count_ s'.
Proof.
  destruct (@try_run_counters_bounded collaborators (planned last_feature_to_1)
              (members (planned last_feature_to_1) full_empty_empty three_columns))
    as (b & s' & Hrun & Htotal & Hbirth & _).
  - apply example_sampler_contract.
  - by apply example_well_formed.
  - reflexivity.
  - apply example_proposal_contract.
  - by exists b, s'.
Defined.

Lemma init_featureless_kinds_keeps_grouping_witness :
  ∃ s' k0 k1,
    init_featureless_kinds 2 (members (planned stay) empty_full_empty three_columns)
    = Done tt s'
    ∧ featureid_to_kindid (cross_cat_ s') !! 0 = Some k0
    ∧ featureid_to_kindid (cross_cat_ s') !! 1 = Some k1
    ∧ k0 = k1.
Proof.
  destruct (@init_featureless_kinds_keeps_grouping collaborators
              (members (planned stay) empty_full_empty three_columns) 2)
    as (s' & Hrun & Hgroups & _).
  - apply example_sampler_contract.
  - by apply example_well_formed.
  - destruct (Hgroups 0 1 1 1 eq_refl eq_refl) as (k0 & k1 & H0 & H1 & Hiff).
    exists s', k0, k1. split_and!; [done..|]. by apply Hiff.
Defined.

End ExampleMore.

(** * More properties of the record stream *)

Section StreamMore.

Import ProtobufStream.

Local Open Scope Z_scope.

(** ** File name suffixes *)

Lemma substring_all (s : string) : String.substring 0 (String.length s) s = s.
Proof. induction s as [|c s IH]; simpl; [done|by rewrite IH]. Qed.

Lemma substring_app_r (p s : string) (m : nat) :
  String.substring (String.length p) m (p +:+ s) = String.substring 0 m s.
Proof. induction p as [|c p IH]; simpl; [done|apply IH]. Qed.

Lemma substring_split (s : string) : ∀ n,
  (n ≤ String.length s)%nat →
  s = String.substring 0 n s +:+ String.substring n (String.length s - n) s.
Proof.
  induction s as [|c s IH]; intros n Hn.
  - simpl in Hn. assert (n = 0%nat) as -> by lia. done.
  - destruct n as [|n].
    + simpl. by rewrite substring_all.
    + simpl in Hn. simpl. rewrite {1}(IH n); [lia|]. done.
Qed.

Lemma length_string_app (p s : string) :
  String.length (p +:+ s) = (String.length p + String.length s)%nat.
Proof. induction p as [|c p IH]; simpl; [done|by rewrite IH]. Qed.

(** X13: [endswith filename suffix] is true exactly when [filename] is some
    prefix followed by [suffix]. *)
Theorem endswith_spec (filename suffix : string) :
  endswith filename suffix = true ↔ ∃ prefix, filename = prefix +:+ suffix.
Proof.
  unfold endswith. rewrite andb_true_iff Nat.leb_le String.eqb_eq. split.
  - intros [Hle Hsub].
    exists (String.substring 0 (String.length filename - String.length suffix) filename).
    rewrite -{2}Hsub.
    rewrite {1}(substring_split filename
                  (String.length filename - String.length suffix)); [lia|].
    do 2 f_equal. lia.
  - intros [prefix ->]. rewrite length_string_app. split; [lia|].
    replace (String.length prefix + String.length suffix - String.length suffix)%nat
      with (String.length prefix) by lia.
    by rewrite substring_app_r substring_all.
Qed.

Context `{MessageType} `{Platform}.

(** ** Counting the records of a file *)

Lemma count_record_Done (payload rest : list byte) (stats : StreamStats)
    (after : StreamStats → M InFile StreamStats) (f : InFile) :
  Z.of_nat (length payload) < 2 ^ 31 →
  stream_ f = record payload ++ rest →
  count_record stats after f =
    after {| is_file := is_file stats;
             message_count := (message_count stats + 1) mod 2 ^ 64;
             max_message_size :=
               Z.max (max_message_size stats) (Z.of_nat (length payload)) |}
          (advanced 0 rest f).
Proof.
  intros Hlen Hstream. unfold count_record, bind, gets.
  rewrite Hstream. unfold record. rewrite -app_assoc read_write_le32; [lia|].
  unfold Skip, int_of_uint32.
  destruct (decide (Z.of_nat (length payload) < 2 ^ 31)); [|lia].
  destruct (decide (Z.of_nat (length payload) < 0)); [lia|].
  rewrite decide_True; [rewrite length_app; lia|].
  unfold set_stream, loom_assert, modify, advanced. simpl.
  by rewrite Nat2Z.id drop_app_length.
Qed.

Lemma count_record_end (stats : StreamStats)
    (after : StreamStats → M InFile StreamStats) (f : InFile) :
  (length (stream_ f) < 4)%nat →
  count_record stats after f = Done stats (advanced 0 [] f).
Proof.
  intros Hshort. unfold count_record, bind, gets.
  destruct (stream_ f) as [|b0 [|b1 [|b2 [|b3 rest]]]]; simpl in *;
    first [done | lia].
Qed.

Lemma max_size_nonneg (payloads : list (list byte)) : 0 ≤ max_size payloads.
Proof. induction payloads as [|r payloads IH]; simpl; lia. Qed.

Lemma count_records_Done (payloads : list (list byte)) (trailer : list byte) :
  ∀ turns stats f,
  Forall (fun payload => Z.of_nat (length payload) < 2 ^ 31) payloads →
  stream_ f = records payloads ++ trailer →
  (length trailer < 4)%nat →
  (length payloads ≤ turns)%nat →
  0 ≤ message_count stats →
  0 ≤ max_message_size stats →
  message_count stats + Z.of_nat (length payloads) < 2 ^ 64 →
  count_records turns stats f =
    Done {| is_file := is_file stats;
            message_count := message_count stats + Z.of_nat (length payloads);
            max_message_size :=
              Z.max (max_message_size stats) (max_size payloads) |}
         (advanced 0 [] f).
Proof.
  induction payloads as [|r payloads IH];
    intros turns stats f Hall Hstream Hshort Hturns Hcount Hmax Hbound.
  - assert (count_records turns stats f = Done stats (advanced 0 [] f)) as ->.
    { destruct turns; simpl; by apply count_record_end; rewrite Hstream. }
    f_equal. destruct stats as [b c m]. simpl in *. f_equal; lia.
  - apply Forall_cons in Hall as [Hr Hall].
    rewrite records_cons -app_assoc in Hstream.
    destruct turns as [|turns]; [simpl in Hturns; lia|].
    simpl. rewrite (count_record_Done r _ _ _ f Hr Hstream).
    simpl in Hturns, Hbound.
    rewrite (IH turns);
      [first [done | lia | simpl; rewrite ?Z.mod_small; lia] ..|].
    rewrite advanced_advanced. cbn [is_file message_count max_message_size].
    f_equal. f_equal.
    + rewrite Z.mod_small; lia.
    + cbn [max_size foldr]. fold (max_size payloads). lia.
Qed.

(** A record whose length prefix is 2 GiB or more stops the count with a
    fatal error, and so does a record whose payload is cut short on a
    stream that does not seek; on one that seeks, the record is counted
    and nothing is left to read. *)
Lemma count_record_short (size : Z) (partial : list byte) (stats : StreamStats)
    (after : StreamStats → M InFile StreamStats) (f : InFile) :
  0 ≤ size < 2 ^ 32 →
  stream_ f = WriteLittleEndian32 size ++ partial →
  (2 ^ 31 ≤ size →
     ∃ f', count_record stats after f = Fatal "failed to count" f')
  ∧ (Z.of_nat (length partial) < size < 2 ^ 31 → seekable f = false →
       ∃ f', count_record stats after f = Fatal "failed to count" f')
  ∧ (Z.of_nat (length partial) < size < 2 ^ 31 → seekable f = true →
       count_record stats after f =
         after {| is_file := is_file stats;
                  message_count := (message_count stats + 1) mod 2 ^ 64;
                  max_message_size := Z.max (max_message_size stats) size |}
               (advanced 0 [] f)).
Proof.
  intros Hsize Hstream. unfold count_record, bind, gets.
  rewrite Hstream read_write_le32; [done|].
  unfold Skip, int_of_uint32. split_and!.
  - intros Hbig. destruct (decide (size < 2 ^ 31)) as [|_]; [lia|].
    destruct (decide (size - 2 ^ 32 < 0)) as [_|]; [|lia]. by eexists.
  - intros Hcut ->. destruct (decide (size < 2 ^ 31)) as [_|]; [|lia].
    destruct (decide (size < 0)) as [|_]; [lia|].
    destruct (decide (size ≤ Z.of_nat (length partial))) as [|_]; [lia|].
    by eexists.
  - intros Hcut ->. destruct (decide (size < 2 ^ 31)) as [_|]; [|lia].
    destruct (decide (size < 0)) as [|_]; [lia|].
    destruct (decide (size ≤ Z.of_nat (length partial))) as [|_]; [lia|].
    done.
Qed.

Lemma seekable_advanced (n : nat) (rest : list byte) (f : InFile) :
  seekable (advanced n rest f) = seekable f.
Proof. done. Qed.

Lemma count_records_short (payloads : list (list byte)) (size : Z)
    (partial : list byte) :
  ∀ turns stats f,
  Forall (fun payload => Z.of_nat (length payload) < 2 ^ 31) payloads →
  0 ≤ size < 2 ^ 32 →
  2 ^ 31 ≤ size ∨ (Z.of_nat (length partial) < size ∧ seekable f = false) →
  stream_ f = records payloads ++ WriteLittleEndian32 size ++ partial →
  (length payloads ≤ turns)%nat →
  ∃ f', count_records turns stats f = Fatal "failed to count" f'.
Proof.
  induction payloads as [|r payloads IH];
    intros turns stats f Hall Hsize Hshort Hstream Hturns.
  - assert (∀ after, ∃ f', count_record stats after f = Fatal "failed to count" f')
      as Hfatal.
    { intros after.
      destruct (count_record_short size partial stats after f Hsize Hstream)
        as (Hbig & Hcut & _).
      destruct (decide (2 ^ 31 ≤ size)) as [|Hsmall]; [by apply Hbig|].
      destruct Hshort as [|[? ?]]; [done|]. apply Hcut; [lia|done]. }
    destruct turns; simpl; apply Hfatal.
  - apply Forall_cons in Hall as [Hr Hall].
    rewrite records_cons -app_assoc in Hstream.
    destruct turns as [|turns]; [simpl in Hturns; lia|].
    simpl. rewrite (count_record_Done r _ _ _ f Hr Hstream).
    apply IH; try done. simpl in Hturns. lia.
Qed.

Lemma count_records_cut (payloads : list (list byte)) (size : Z)
    (partial : list byte) :
  ∀ turns stats f,
  Forall (fun payload => Z.of_nat (length payload) < 2 ^ 31) payloads →
  Z.of_nat (length partial) < size < 2 ^ 31 →
  seekable f = true →
  stream_ f = records payloads ++ WriteLittleEndian32 size ++ partial →
  (length payloads + 1 ≤ turns)%nat →
  0 ≤ message_count stats →
  0 ≤ max_message_size stats →
  message_count stats + Z.of_nat (length payloads) + 1 < 2 ^ 64 →
  count_records turns stats f =
    Done {| is_file := is_file stats;
            message_count := message_count stats + Z.of_nat (length payloads) + 1;
            max_message_size :=
              Z.max (Z.max (max_message_size stats) (max_size payloads)) size |}
         (advanced 0 [] f).
Proof.
  induction payloads as [|r payloads IH];
    intros turns stats f Hall Hcut Hseeks Hstream Hturns Hcount Hmax Hbound.
  - destruct turns as [|turns]; [simpl in Hturns; lia|].
    destruct (count_record_short size partial stats (count_records turns) f)
      as (_ & _ & Hcounted); [lia|done|].
    simpl. rewrite Hcounted; [done..|].
    assert (∀ st g, (length (stream_ g) < 4)%nat →
              count_records turns st g = Done st (advanced 0 [] g)) as Hend.
    { intros st g Hg. destruct turns; simpl; by apply count_record_end. }
    rewrite Hend; [simpl; lia|]. rewrite advanced_advanced.
    simpl. f_equal. f_equal; [rewrite Z.mod_small; lia|lia].
  - apply Forall_cons in Hall as [Hr Hall].
    rewrite records_cons -app_assoc in Hstream.
    destruct turns as [|turns]; [simpl in Hturns; lia|].
    simpl. rewrite (count_record_Done r _ _ _ f Hr Hstream).
    simpl in Hturns, Hbound.
    rewrite (IH turns);
      [first [done | lia | simpl; rewrite ?Z.mod_small; lia] ..|].
    rewrite advanced_advanced. cbn [is_file message_count max_message_size].
    f_equal. f_equal.
    + rewrite Z.mod_small; lia.
    + cbn [max_size foldr]. fold (max_size payloads). lia.
Qed.

Lemma open_named_file (os : OS) (filename : string) (payloads : list (list byte))
    (trailer : list byte) :
  holds os filename payloads trailer →
  InFile_of_filename os filename =
    Done tt {| filename_ := filename; is_file_ := true;
               stream_ := records payloads ++ trailer; position_ := 0 |}.
Proof.
  intros ((Hne & Hin & Hingz) & contents & Hcontents & Hview).
  unfold InFile_of_filename, _open.
  rewrite decide_False; [done|]. rewrite decide_False; [done|].
  rewrite decide_False; [by intros [?|?]|].
  by rewrite Hcontents Hview.
Qed.

Lemma length_records_app_ge (payloads : list (list byte)) (trailer : list byte) :
  (length payloads ≤ length (records payloads ++ trailer))%nat.
Proof. rewrite length_app. pose proof (length_records_ge payloads). lia. Qed.

(** X14: [stream_stats] on a named file that holds records, possibly followed
    by up to three stray bytes, returns the number of records and the
    largest payload length, 0 for a file without records. *)
Theorem stream_stats_counts (os : OS) (filename : string)
    (payloads : list (list byte)) (trailer : list byte) :
  holds os filename payloads trailer →
  Forall (fun payload => Z.of_nat (length payload) < 2 ^ 31) payloads →
  (length trailer < 4)%nat →
  Z.of_nat (length payloads) < 2 ^ 64 →
  ∃ f, stream_stats os filename =
         Done {| is_file := true;
                 message_count := Z.of_nat (length payloads);
                 max_message_size := max_size payloads |} f
       ∧ stream_ f = [].
Proof.
  intros Hholds Hall Hshort Hbound.
  unfold stream_stats. rewrite (open_named_file _ _ _ _ Hholds).
  unfold and_then, bind, gets. cbn [is_file_ stream_].
  rewrite (count_records_Done payloads trailer); cbn; try done; try lia.
  { apply length_records_app_ge. }
  rewrite Z.add_0_l Z.max_r; [apply max_size_nonneg|].
  by eexists.
Qed.

(** X15: what [stream_stats] does with a file whose records are followed
    by a length prefix and fewer payload bytes than it announces. A prefix
    of 2 GiB or more is fatal. A shorter payload is fatal on a
    decompressed file; on a plain file the stream object seeks past the
    end of the file, and the record is counted with the size its prefix
    announces. *)
Theorem stream_stats_truncated (os : OS) (filename : string)
    (payloads : list (list byte)) (size : Z) (partial : list byte) :
  holds os filename payloads (WriteLittleEndian32 size ++ partial) →
  Forall (fun payload => Z.of_nat (length payload) < 2 ^ 31) payloads →
  0 ≤ size < 2 ^ 32 →
  Z.of_nat (length payloads) + 1 < 2 ^ 64 →
  (2 ^ 31 ≤ size →
     ∃ f, stream_stats os filename = Fatal "failed to count" f)
  ∧ (Z.of_nat (length partial) < size < 2 ^ 31 →
     endswith filename ".gz" = true →
     ∃ f, stream_stats os filename = Fatal "failed to count" f)
  ∧ (Z.of_nat (length partial) < size < 2 ^ 31 →
     endswith filename ".gz" = false →
     ∃ f, stream_stats os filename =
            Done {| is_file := true;
                    message_count := Z.of_nat (length payloads) + 1;
                    max_message_size := Z.max (max_size payloads) size |} f
          ∧ stream_ f = []).
Proof.
  intros Hholds Hall Hsize Hbound.
  unfold stream_stats. rewrite (open_named_file _ _ _ _ Hholds).
  unfold and_then, bind, gets. cbn [is_file_ stream_].
  pose proof (length_records_app_ge payloads (WriteLittleEndian32 size ++ partial))
    as Hturns.
  split_and!.
  - intros Hbig. eapply count_records_short; try done. by left.
  - intros Hcut Hgz. eapply count_records_short; try done.
    right. split; [lia|]. unfold seekable. simpl. by rewrite Hgz.
  - intros Hcut Hplain.
    rewrite (count_records_cut payloads size partial).
    + done.
    + done.
    + unfold seekable. simpl. by rewrite Hplain.
    + done.
    + rewrite !length_app length_WriteLittleEndian32.
      pose proof (length_records_ge payloads). lia.
    + simpl. lia.
    + simpl. lia.
    + simpl. lia.
    + cbn [is_file message_count max_message_size].
      rewrite Z.add_0_l (Z.max_r 0); [apply max_size_nonneg|]. by eexists.
Qed.

(** ** Loading a file that is not only records *)

Lemma read_messages_trailer (messages : list Message) (trailer : list byte) :
  ∀ turns f,
  Forall well_formed_message messages →
  stream_ f = records (serialize <$> messages) ++ trailer →
  (length trailer < 4)%nat →
  (length messages ≤ turns)%nat →
  read_messages turns f = Done messages (advanced (length messages) [] f).
Proof.
  induction messages as [|m messages IH]; intros turns f Hall Hstream Hshort Hturns.
  - destruct turns; simpl; unfold bind;
      rewrite try_read_stream_end; try (by rewrite Hstream); done.
  - apply Forall_cons in Hall as [Hm Hall].
    destruct turns as [|turns]; [simpl in Hturns; lia|].
    rewrite fmap_cons records_cons -app_assoc in Hstream.
    simpl. unfold bind at 1.
    rewrite (try_read_stream_record m _ f Hm Hstream).
    unfold bind. rewrite IH; [done|done|done|simpl in Hturns; lia|].
    unfold ret. rewrite advanced_advanced. do 2 f_equal. lia.
Qed.

Lemma try_read_stream_unparsed (payload rest : list byte) (f : InFile) :
  Z.of_nat (length payload) < 2 ^ 31 →
  parse payload = None →
  stream_ f = record payload ++ rest →
  try_read_stream f = Fatal "failed to parse message" (advanced 0 rest f).
Proof.
  intros Hlen Hparse Hstream.
  unfold try_read_stream, bind, gets. rewrite Hstream. unfold record.
  rewrite -app_assoc read_write_le32; [lia|].
  rewrite limited_record; [done|]. rewrite Hparse.
  unfold set_stream, loom_assert, modify, advanced. simpl.
  by rewrite drop_app_length.
Qed.

Lemma read_messages_unparsed (messages : list Message) (bad rest : list byte) :
  ∀ turns f,
  Forall well_formed_message messages →
  Z.of_nat (length bad) < 2 ^ 31 →
  parse bad = None →
  stream_ f = records (serialize <$> messages) ++ record bad ++ rest →
  read_messages turns f =
    Fatal "failed to parse message" (advanced (length messages) rest f)
  ∨ ∃ f', read_messages turns f = Undefined f'.
Proof.
  induction messages as [|m messages IH]; intros turns f Hall Hlen Hparse Hstream.
  - left. destruct turns; simpl; unfold bind;
      by rewrite (try_read_stream_unparsed bad rest).
  - apply Forall_cons in Hall as [Hm Hall].
    rewrite fmap_cons records_cons -app_assoc in Hstream.
    destruct turns as [|turns].
    + right. simpl. unfold bind.
      rewrite (try_read_stream_record m _ f Hm Hstream). by eexists.
    + destruct (IH turns (advanced 1 (records (serialize <$> messages)
                                       ++ record bad ++ rest) f)
                  Hall Hlen Hparse eq_refl) as [Hfatal|[f' Hundef]];
        [left|right; exists f']; simpl; unfold bind at 1;
        rewrite (try_read_stream_record m _ f Hm Hstream); unfold bind.
      * rewrite Hfatal advanced_advanced. do 2 f_equal. lia.
      * by rewrite Hundef.
Qed.

(** X16: [protobuf_stream_load] returns the messages of a file whose records
    are followed by fewer than four stray bytes: an incomplete length
    prefix is the end of the stream, not an error. In particular an empty
    file loads as the empty list. *)
Theorem load_ignores_short_trailer (os : OS) (filename : string)
    (messages : list Message) (trailer : list byte) :
  holds os filename (serialize <$> messages) trailer →
  Forall well_formed_message messages →
  (length trailer < 4)%nat →
  ∃ f, protobuf_stream_load os filename = Done messages f ∧ stream_ f = [].
Proof.
  intros Hholds Hall Hshort.
  unfold protobuf_stream_load. rewrite (open_named_file _ _ _ _ Hholds).
  unfold and_then, bind, gets. cbn [stream_].
  rewrite (read_messages_trailer messages trailer); try done.
  - etrans; [|apply length_records_app_ge]. by rewrite length_fmap.
  - by eexists.
Qed.

(** X17: [protobuf_stream_load] fails fatally for the empty file name, for a
    named file that does not exist, and at the first record that the
    message type does not parse; it returns no partial list. *)
Theorem load_errors (os : OS) (filename : string) :
  (∃ f, protobuf_stream_load os "" = Fatal "empty filename is not supported" f)
  ∧ (names_a_file filename → files os !! filename = None →
       ∃ f, protobuf_stream_load os filename = Fatal "failed to open input file" f)
  ∧ (∀ messages bad rest,
       holds os filename ((serialize <$> messages) ++ [bad]) rest →
       Forall well_formed_message messages →
       Z.of_nat (length bad) < 2 ^ 31 →
       parse bad = None →
       ∃ f, protobuf_stream_load os filename = Fatal "failed to parse message" f).
Proof.
  split_and!.
  - by eexists.
  - intros (Hne & Hin & Hingz) Hnone.
    unfold protobuf_stream_load, InFile_of_filename, _open.
    rewrite decide_False; [done|]. rewrite decide_False; [done|].
    rewrite decide_False; [by intros [?|?]|].
    rewrite Hnone. by eexists.
  - intros messages bad rest Hholds Hall Hlen Hparse.
    unfold protobuf_stream_load. rewrite (open_named_file _ _ _ _ Hholds).
    unfold and_then, bind, gets. cbn [stream_].
    set (f := {| filename_ := filename; is_file_ := true;
                 stream_ := records ((serialize <$> messages) ++ [bad]) ++ rest;
                 position_ := 0 |}).
    assert (stream_ f = records (serialize <$> messages) ++ record bad ++ rest)
      as Hstream.
    { unfold f. cbn [stream_]. rewrite records_app -app_assoc. f_equal.
      unfold records. simpl. by rewrite app_nil_r. }
    destruct (read_messages_unparsed messages bad rest
                (length (records ((serialize <$> messages) ++ [bad]) ++ rest)) f)
      as [->|[f' Hundef]]; try done.
    + by eexists.
    + by apply read_messages_total in Hundef.
Qed.

(** ** Positioning and reading *)

Lemma set_position_reaches (fs : gmap string (list byte))
    (payloads : list (list byte)) (p : nat) (target : Z) (f : InFile) :
  Forall (fun payload => Z.of_nat (length payload) < 2 ^ 31) payloads →
  stands_at payloads p f →
  0 ≤ target < 2 ^ 64 →
  (target < Z.of_nat p → file_of fs payloads f) →
  target ≤ Z.of_nat (length payloads) →
  ∃ f', set_position fs target f = Done tt f'
        ∧ stands_at payloads (Z.to_nat target) f'.
Proof.
  intros Hall (Hpos & Hstream & Hp) Htarget Hfile Hin.
  assert (∃ f0 p0,
            (let* q := gets position_ in
             if decide (target < q) then reopen fs else ret tt) f = Done tt f0
            ∧ stands_at payloads p0 f0
            ∧ Z.of_nat p0 ≤ target) as (f0 & p0 & Hfirst & (Hpos0 & Hstream0 & Hp0) & Hle).
  { unfold bind, gets. rewrite Hpos.
    destruct (decide (target < Z.of_nat p)) as [Hback|Hforth].
    - destruct (Hfile Hback) as ((Hne & Hnin & Hningz) & contents & Hcontents & Hview).
      unfold reopen, _open. simpl.
      rewrite decide_False; [done|]. rewrite decide_False; [by intros [?|?]|].
      rewrite Hcontents. eexists _, 0%nat. split; [done|].
      split; [|lia]. split_and!; simpl; [done|by rewrite Hview|lia].
    - exists f, p. split; [done|]. split; [done|lia]. }
  unfold set_position. rewrite (bind_Done _ _ _ _ _ Hfirst).
  unfold bind, gets. rewrite Hpos0.
  set (n := Z.to_nat (target - Z.of_nat p0)).
  assert (Hsplit : drop p0 payloads =
                   take n (drop p0 payloads) ++ drop (Z.to_nat target) payloads).
  { rewrite -{1}(take_drop n (drop p0 payloads)). f_equal.
    rewrite drop_drop. f_equal. lia. }
  assert (Hn : length (take n (drop p0 payloads)) = n).
  { rewrite length_take length_drop. lia. }
  rewrite Hsplit records_app in Hstream0.
  pose proof (skip_records_Done (take n (drop p0 payloads))
                (records (drop (Z.to_nat target) payloads)) f0) as Hskip.
  rewrite Hn in Hskip. rewrite Hskip; [|done|].
  { apply Forall_take, Forall_drop, Hall. }
  eexists. split; [done|]. split_and!; [|done|lia].
  unfold advanced. simpl. rewrite Hpos0 iter_position; lia.
Qed.

(** X18: Random access: [set_position target] followed by [try_read_stream]
    reads the message number [target] of the stream, counted from 0, and
    leaves the file at position [target + 1]. *)
Theorem read_at_position (fs : gmap string (list byte)) (messages : list Message)
    (p : nat) (target : Z) (message : Message) (f : InFile) :
  Forall well_formed_message messages →
  stands_at (serialize <$> messages) p f →
  (target < Z.of_nat p → file_of fs (serialize <$> messages) f) →
  0 ≤ target →
  Z.of_nat (length messages) < 2 ^ 64 →
  messages !! Z.to_nat target = Some message →
  ∃ f', (set_position fs target >> try_read_stream) f = Done (Some message) f'
        ∧ position f' = target + 1
        ∧ stands_at (serialize <$> messages) (Z.to_nat target + 1) f'.
Proof.
  intros Hall Hstands Hfile Htarget Hbound Hm.
  pose proof (lookup_lt_Some _ _ _ Hm) as Hlt.
  assert (Hshort : Forall (fun payload : list byte =>
                             Z.of_nat (length payload) < 2 ^ 31)
                          (serialize <$> messages)).
  { apply Forall_fmap. eapply Forall_impl; [done|]. by intros m (_ & _ & ?). }
  destruct (set_position_reaches fs (serialize <$> messages) p target f)
    as (f1 & Hset & Hpos1 & Hstream1 & Hp1); try done; [lia|rewrite length_fmap; lia|].
  unfold bind. rewrite Hset.
  rewrite (drop_S _ (serialize message)) in Hstream1.
  { by rewrite list_lookup_fmap Hm. }
  rewrite records_cons in Hstream1.
  assert (Hwf : well_formed_message message).
  { rewrite Forall_forall in Hall. apply Hall. by eapply list_elem_of_lookup_2. }
  rewrite (try_read_stream_record message _ f1 Hwf Hstream1).
  eexists. split; [done|].
  unfold position, advanced, stands_at. simpl. rewrite Hpos1.
  rewrite Z.mod_small; [lia|]. rewrite length_fmap.
  split_and!; [lia|lia| |lia].
  f_equal. f_equal. lia.
Qed.

Lemma skip_record_position (f f' : InFile) :
  skip_record f = Done tt f' → position_ f' = (position_ f + 1) mod 2 ^ 64.
Proof.
  unfold skip_record, bind, gets.
  destruct (ReadLittleEndian32 (stream_ f)) as [[[] size] rest]; [|done].
  simpl. destruct (Skip _ _ _) as [[] rest']; [|done].
  simpl. unfold next_position, modify. by intros [= <-].
Qed.

Lemma skip_records_position (n : nat) : ∀ f f',
  0 ≤ position_ f →
  position_ f + Z.of_nat n < 2 ^ 64 →
  skip_records n f = Done tt f' → position_ f' = position_ f + Z.of_nat n.
Proof.
  induction n as [|n IH]; intros f f' Hpos Hbound.
  - simpl. unfold ret. intros [= <-]. lia.
  - simpl. unfold bind.
    destruct (skip_record f) as [[] f1|?|?] eqn:Hskip; [|done..].
    apply skip_record_position in Hskip.
    rewrite Z.mod_small in Hskip; [lia|].
    intros Hrest. apply IH in Hrest; lia.
Qed.

(** X19: Forward positioning composes: from a position not beyond [a], going
    to [a] and then to [b] is going to [b], whatever the stream holds,
    failures included. *)
Theorem set_position_forward (fs : gmap string (list byte)) (a b : Z) (f : InFile) :
  0 ≤ position_ f →
  position_ f ≤ a →
  a ≤ b →
  b < 2 ^ 64 →
  (set_position fs a >> set_position fs b) f = set_position fs b f.
Proof.
  intros Hpos Ha Hb Hbound.
  assert (Hstart : ∀ target, position_ f ≤ target →
            set_position fs target f =
              skip_records (Z.to_nat (target - position_ f)) f).
  { intros target Hle. unfold set_position, bind, gets.
    rewrite decide_False; [lia|]. done. }
  rewrite (Hstart b); [lia|].
  unfold bind at 1. rewrite (Hstart a); [lia|].
  replace (Z.to_nat (b - position_ f))
    with (Z.to_nat (a - position_ f) + Z.to_nat (b - a))%nat by lia.
  rewrite skip_records_add. unfold bind.
  destruct (skip_records (Z.to_nat (a - position_ f)) f) as [[] f1|?|?] eqn:Hskip;
    [|done..].
  apply skip_records_position in Hskip; [|lia..].
  unfold set_position, bind, gets. rewrite decide_False; [lia|].
  unfold ret. do 2 f_equal. lia.
Qed.

(** ** Cyclic reading *)

Lemma reopen_named_file (fs : gmap string (list byte))
    (payloads : list (list byte)) (f g : InFile) :
  file_of fs payloads f →
  filename_ g = filename_ f →
  reopen fs g =
    Done tt {| filename_ := filename_ f; is_file_ := true;
               stream_ := records payloads; position_ := 0 |}.
Proof.
  intros ((Hne & Hin & Hingz) & contents & Hcontents & Hview) Hname.
  unfold reopen, _open. simpl. rewrite Hname.
  rewrite decide_False; [done|]. rewrite decide_False; [by intros [?|?]|].
  by rewrite Hcontents Hview.
Qed.

Lemma loom_assert2_true {S} (msg : string) (s : S) :
  loom_assert2 true msg s = Done tt s.
Proof. unfold loom_assert2. by case_decide. Qed.

(** X20: [cyclic_read_stream] on a named file of messages reads the next
    message, and at the end of the file starts again with the first one:
    from position [p] it returns message [p mod n] of the [n] in the file
    and leaves the file after it. *)
Theorem cyclic_read_stream_wraps (fs : gmap string (list byte))
    (messages : list Message) (p : nat) (f : InFile) :
  is_file_ f = true →
  file_of fs (serialize <$> messages) f →
  stands_at (serialize <$> messages) p f →
  Forall well_formed_message messages →
  messages ≠ [] →
  Z.of_nat (length messages) < 2 ^ 64 →
  let next := (p mod length messages)%nat in
  ∃ message f',
    cyclic_read_stream fs f = Done message f'
    ∧ messages !! next = Some message
    ∧ stands_at (serialize <$> messages) (next + 1) f'.
Proof.
  intros Hfile Hfs (Hpos & Hstream & Hp) Hall Hne Hbound next.
  rewrite length_fmap in Hp.
  assert (0 < length messages)%nat as Hn by (destruct messages; [done|simpl; lia]).
  unfold cyclic_read_stream, bind, gets. rewrite Hfile loom_assert2_true.
  destruct (decide (p < length messages)%nat) as [Hlt|Hend].
  - assert (next = p) as -> by (by apply Nat.mod_small).
    destruct (lookup_lt_is_Some_2 messages p Hlt) as [m Hm].
    rewrite (drop_S _ (serialize m)) in Hstream.
    { by rewrite list_lookup_fmap Hm. }
    rewrite records_cons in Hstream.
    assert (Hwf : well_formed_message m).
    { rewrite Forall_forall in Hall. apply Hall. by eapply list_elem_of_lookup_2. }
    rewrite (try_read_stream_record m _ f Hwf Hstream).
    exists m. eexists. split_and!; [done|done|].
    unfold stands_at, advanced. simpl. rewrite Hpos length_fmap.
    rewrite Z.mod_small; [lia|].
    split_and!; [lia| |lia]. do 2 f_equal. lia.
  - assert (p = length messages) as -> by lia.
    assert (next = 0%nat) as -> by (by apply Nat.Div0.mod_same).
    rewrite drop_ge in Hstream; [by rewrite length_fmap|].
    rewrite try_read_stream_end; [rewrite Hstream; simpl; lia|].
    rewrite (reopen_named_file fs (serialize <$> messages) f); [done|done|].
    destruct messages as [|m messages]; [done|].
    apply Forall_cons in Hall as [Hwf Hall].
    rewrite (try_read_stream_record m (records (serialize <$> messages))); [done|done|].
    exists m. eexists. split_and!; [done|done|].
    unfold stands_at, advanced. simpl.
    split_and!; [done|done|lia].
Qed.

(** X21: [cyclic_read_stream] fails fatally on a stream that is not a named
    file, when assertions of level 2 are compiled in, before it reads
    anything; and on a named file without a record, with "stream is
    empty". *)
Theorem cyclic_read_stream_errors (fs : gmap string (list byte)) (f : InFile) :
  ((2 ≤ DEBUG_LEVEL)%nat → is_file_ f = false →
     cyclic_read_stream fs f = Fatal "only files support cyclic_read_stream" f)
  ∧ (is_file_ f = true → file_of fs [] f → (length (stream_ f) < 4)%nat →
       ∃ f', cyclic_read_stream fs f = Fatal "stream is empty" f').
Proof.
  split.
  - intros Hlevel Hfile. unfold cyclic_read_stream, bind, gets.
    rewrite Hfile. unfold loom_assert2. by rewrite decide_True.
  - intros Hfile Hfs Hshort. unfold cyclic_read_stream, bind, gets.
    rewrite Hfile loom_assert2_true try_read_stream_end; [done|].
    rewrite (reopen_named_file fs [] f); [done|done|].
    rewrite try_read_stream_end; [simpl; lia|]. by eexists.
Qed.

(** ** The raw overloads *)

Lemma Z_of_byte_bound (b : byte) : 0 ≤ Z_of_byte b < 256.
Proof. unfold Z_of_byte. pose proof (Byte.to_N_bounded b). lia. Qed.

Lemma byte_of_Z_eq (z : Z) (b : byte) : z mod 256 = Z_of_byte b → byte_of_Z z = b.
Proof.
  intros Hz. unfold byte_of_Z. rewrite Hz. unfold Z_of_byte.
  by rewrite N2Z.id Byte.of_to_N.
Qed.

Lemma testbit_shifted_byte (b : byte) (i n : Z) :
  0 ≤ i → 0 ≤ n →
  Z.testbit (Z.shiftl (Z_of_byte b) i) n =
    if decide (i ≤ n < i + 8) then Z.testbit (Z_of_byte b) (n - i) else false.
Proof.
  intros Hi Hn. rewrite Z.shiftl_spec; [done|].
  destruct (decide (i ≤ n < i + 8)) as [Hin|Hout]; [done|].
  destruct (decide (n < i)).
  - rewrite Z.testbit_neg_r; [lia|done].
  - pose proof (Z_of_byte_bound b) as Hb.
    rewrite -(Z.mod_small (Z_of_byte b) (2 ^ 8)); [lia|].
    rewrite Z.mod_pow2_bits_high; [lia|done].
Qed.

(** Four bytes read as a little-endian number and written back are the
    same four bytes. *)
Lemma write_read_le32 (b0 b1 b2 b3 : byte) (rest : list byte) :
  ∃ v, ReadLittleEndian32 (b0 :: b1 :: b2 :: b3 :: rest) = (true, v, rest)
       ∧ 0 ≤ v < 2 ^ 32
       ∧ WriteLittleEndian32 v = [b0; b1; b2; b3].
Proof.
  eexists. split; [done|].
  set (v := Z.lor _ _).
  assert (Hbits : ∀ n, 0 ≤ n →
            Z.testbit v n =
              if decide (n < 8) then Z.testbit (Z_of_byte b0) n
              else if decide (n < 16) then Z.testbit (Z_of_byte b1) (n - 8)
              else if decide (n < 24) then Z.testbit (Z_of_byte b2) (n - 16)
              else if decide (n < 32) then Z.testbit (Z_of_byte b3) (n - 24)
              else false).
  { intros n Hn. unfold v. rewrite -(Z.shiftl_0_r (Z_of_byte b0)).
    rewrite !Z.lor_spec !testbit_shifted_byte; [lia..|].
    repeat case_decide; try lia;
      rewrite ?orb_false_r ?orb_false_l ?Z.sub_0_r; done. }
  assert (Hmod : v mod 2 ^ 32 = v).
  { apply Z.bits_inj'. intros n Hn.
    destruct (decide (n < 32)).
    - rewrite Z.mod_pow2_bits_low; [lia|done].
    - rewrite Z.mod_pow2_bits_high; [lia|]. rewrite Hbits; [done|].
      repeat case_decide; try lia; done. }
  split.
  { rewrite -Hmod. apply Z.mod_pos_bound. lia. }
  unfold WriteLittleEndian32. rewrite Hmod.
  assert (Hbyte : ∀ i b,
            0 ≤ i →
            (∀ n, 0 ≤ n < 8 → Z.testbit v (n + i) = Z.testbit (Z_of_byte b) n) →
            byte_of_Z (Z.shiftr v i) = b).
  { intros i b Hi Hb. apply byte_of_Z_eq. apply Z.bits_inj'. intros n Hn.
    pose proof (Z_of_byte_bound b) as Hbound.
    destruct (decide (n < 8)).
    - change 256 with (2 ^ 8). rewrite Z.mod_pow2_bits_low; [lia|].
      rewrite Z.shiftr_spec; [lia|]. apply Hb. lia.
    - change 256 with (2 ^ 8). rewrite Z.mod_pow2_bits_high; [lia|].
      rewrite -(Z.mod_small (Z_of_byte b) (2 ^ 8)); [lia|].
      rewrite Z.mod_pow2_bits_high; [lia|done]. }
  rewrite -{1}(Z.shiftr_0_r v).
  rewrite (Hbyte 0 b0); [lia| |].
  { intros n Hn. rewrite Hbits; [lia|]. rewrite Z.add_0_r.
    by rewrite decide_True; [lia|]. }
  rewrite (Hbyte 8 b1); [lia| |].
  { intros n Hn. rewrite Hbits; [lia|]. rewrite decide_False; [lia|].
    rewrite decide_True; [lia|]. f_equal. lia. }
  rewrite (Hbyte 16 b2); [lia| |].
  { intros n Hn. rewrite Hbits; [lia|]. rewrite decide_False; [lia|].
    rewrite decide_False; [lia|]. rewrite decide_True; [lia|]. f_equal. lia. }
  rewrite (Hbyte 24 b3); [lia| |].
  { intros n Hn. rewrite Hbits; [lia|]. rewrite decide_False; [lia|].
    rewrite decide_False; [lia|]. rewrite decide_False; [lia|].
    rewrite decide_True; [lia|]. f_equal. lia. }
  done.
Qed.

Lemma write_stream_raw_Done (raw : list byte) (g : OutFile) :
  write_stream_raw raw g =
    Done tt {| out_filename_ := out_filename_ g;
               out_is_file_ := out_is_file_ g;
               written := written g ++ record raw |}.
Proof.
  unfold write_stream_raw, bind, emit, modify, record. simpl.
  by rewrite -app_assoc.
Qed.

(** X22: A record written by the raw [write_stream] is read back by the raw
    [try_read_stream] as the bytes that were written, for fewer than
    2 GiB of them; so are the bytes of a message written by the typed
    [write_stream]. *)
Theorem raw_roundtrip (raw rest : list byte) (g : OutFile) (f : InFile) :
  Z.of_nat (length raw) < 2 ^ 31 →
  stream_ f = record raw ++ rest →
  (∃ g', write_stream_raw raw g = Done tt g'
         ∧ written g' = written g ++ record raw)
  ∧ try_read_stream_raw f = Done (Some raw) (advanced 1 rest f)
  ∧ (∀ message, IsInitialized message = true → serialize message = raw →
       ∃ g', write_stream message g = Done tt g'
             ∧ written g' = written g ++ record raw).
Proof.
  intros Hlen Hstream. split_and!.
  - rewrite write_stream_raw_Done. by eexists.
  - unfold try_read_stream_raw, bind, gets. rewrite Hstream. unfold record.
    rewrite -app_assoc read_write_le32; [lia|].
    cbv zeta. rewrite limited_record; [done|].
    unfold int_of_uint32.
    destruct (decide (Z.of_nat (length raw) < 2 ^ 31)); [|lia].
    destruct (decide (Z.of_nat (length raw) < 0)); [lia|].
    unfold set_stream, loom_assert, next_position, modify, ret, advanced. simpl.
    rewrite bool_decide_eq_true_2; [done|]. by rewrite drop_app_length.
  - intros message Hinit <-. rewrite write_stream_Done; [done|]. by eexists.
Qed.

(** X23: Whatever the stream holds, a raw read that returns true has consumed
    exactly one record, the length prefix of the bytes it returns and
    those bytes; writing them with the raw [write_stream] reproduces what
    was consumed, byte for byte. *)
Theorem raw_copy_preserves_bytes (f f' : InFile) (raw : list byte) (g : OutFile) :
  try_read_stream_raw f = Done (Some raw) f' →
  stream_ f = record raw ++ stream_ f'
  ∧ position_ f' = (position_ f + 1) mod 2 ^ 64
  ∧ Z.of_nat (length raw) < 2 ^ 31
  ∧ ∃ g', write_stream_raw raw g = Done tt g'
          ∧ written g' ++ stream_ f' = written g ++ stream_ f.
Proof.
  unfold try_read_stream_raw, bind, gets.
  destruct (stream_ f) as [|b0 [|b1 [|b2 [|b3 rest]]]] eqn:Hstream; try done.
  destruct (write_read_le32 b0 b1 b2 b3 rest) as (v & -> & Hv & Hwrite).
  cbv zeta. cbv beta iota.
  destruct (decide (int_of_uint32 v < 0)) as [|Hsize]; [done|].
  unfold set_stream, loom_assert, next_position, modify, ret. cbn [stream_ position_].
  destruct (bool_decide _) eqn:Hvisible; [|done].
  apply bool_decide_eq_true in Hvisible.
  intros [= <- <-]. cbn [stream_ position_].
  assert (Hsmall : v < 2 ^ 31).
  { unfold int_of_uint32 in Hsize. case_decide; lia. }
  assert (Hint : int_of_uint32 v = v).
  { unfold int_of_uint32. by rewrite decide_True. }
  rewrite Hint in Hvisible.
  assert (Hrecord : b0 :: b1 :: b2 :: b3 :: rest =
                    record (limited (int_of_uint32 v) rest)
                    ++ drop (length (limited (int_of_uint32 v) rest)) rest).
  { unfold record. rewrite Hint Hvisible Hwrite. simpl. do 4 f_equal.
    unfold limited. rewrite decide_True; [lia|].
    rewrite length_take. rewrite -{1}(take_drop (Z.to_nat v) rest). f_equal.
    f_equal. unfold limited in Hvisible. rewrite decide_True in Hvisible; [lia|].
    rewrite length_take in Hvisible. lia. }
  split_and!; [done|done|rewrite Hint; lia|].
  rewrite write_stream_raw_Done. eexists. split; [done|].
  cbn [written]. by rewrite -app_assoc Hrecord.
Qed.

(** ** A single message per file *)


(** ** What the writer checks *)




End StreamMore.

(** * More of the record stream on concrete bytes *)

Section StreamExampleMore.

Import ProtobufStream ProtobufStream.StreamExample.
#[local] Existing Instance raw_messages.

Local Open Scope Z_scope.

Lemma two_records_well_formed :
  Forall (@well_formed_message raw_messages) two_records.
Proof. repeat constructor; simpl; lia. Qed.

Lemma stream_stats_counts_witness :
  ∃ f, @stream_stats plain (disk "records.pbs") "records.pbs" =
         Done {| is_file := true; message_count := 2; max_message_size := 2 |} f.
Proof.
  destruct (@stream_stats_counts plain (disk "records.pbs") "records.pbs"
              two_records []) as (f & Hstats & _).
  - split; [by split_and!|]. exists (records two_records). split; [done|].
    by rewrite app_nil_r.
  - apply two_records_short.
  - simpl. lia.
  - simpl. lia.
  - by exists f.
Defined.

Lemma stream_stats_truncated_witness :
  ∃ f, @stream_stats plain cut_short "records.pbs" =
         Done {| is_file := true; message_count := 2; max_message_size := 2 |} f.
Proof.
  destruct (@stream_stats_truncated plain cut_short "records.pbs"
              [[Byte.x01]] 2 [Byte.x03]) as (_ & _ & Hcounted).
  - split; [by split_and!|]. eexists. split; [done|]. done.
  - repeat constructor; simpl; lia.
  - lia.
  - simpl. lia.
  - destruct Hcounted as (f & Hstats & _); [simpl; lia|done|]. by exists f.
Defined.

Lemma load_ignores_short_trailer_witness :
  ∃ f, @protobuf_stream_load raw_messages plain stray "records.pbs"
       = Done two_records f.
Proof.
  destruct (@load_ignores_short_trailer raw_messages plain stray "records.pbs"
              two_records [Byte.x07]) as (f & Hload & _).
  - split; [by split_and!|]. eexists. split; [done|]. done.
  - apply two_records_well_formed.
  - simpl. lia.
  - by exists f.
Defined.

Lemma load_errors_witness :
  ∃ f, @protobuf_stream_load raw_messages plain (disk "records.pbs") "missing.pbs"
       = Fatal "failed to open input file" f.
Proof.
  destruct (@load_errors raw_messages plain (disk "records.pbs") "missing.pbs")
    as (_ & Hmissing & _).
  apply Hmissing; [by split_and!|done].
Defined.

Lemma read_at_position_witness :
  ∃ f', (@set_position plain (files (disk "records.pbs")) 1
         >> @try_read_stream raw_messages) at_end
        = Done (Some [Byte.x02; Byte.x03]) f'
        ∧ position f' = 2.
Proof.
  destruct (@read_at_position raw_messages plain (files (disk "records.pbs"))
              two_records 2 1 [Byte.x02; Byte.x03] at_end)
    as (f' & Hrun & Hpos & _).
  - apply two_records_well_formed.
  - by split_and!.
  - intros _. split; [by split_and!|].
    exists (records two_records). split; [done|done].
  - lia.
  - simpl. lia.
  - done.
  - by exists f'.
Defined.

Lemma set_position_forward_witness :
  (@set_position plain ∅ 1 >> @set_position plain ∅ 2) at_start
  = @set_position plain ∅ 2 at_start.
Proof. apply (@set_position_forward plain ∅ 1 2 at_start); simpl; lia. Defined.

Lemma cyclic_read_stream_wraps_witness :
  ∃ f', @cyclic_read_stream raw_messages plain (files (disk "records.pbs")) at_end
        = Done [Byte.x01] f'
        ∧ position f' = 1.
Proof.
  destruct (@cyclic_read_stream_wraps raw_messages plain
              (files (disk "records.pbs")) two_records 2 at_end)
    as (m & f' & Hrun & Hm & Hpos & _).
  - done.
  - split; [by split_and!|].
    exists (records two_records). split; [done|done].
  - by split_and!.
  - apply two_records_well_formed.
  - done.
  - simpl. lia.
  - exists f'. injection Hm as <-. by split.
Defined.

Lemma cyclic_read_stream_errors_witness :
  ∃ f0, @InFile_of_fid strict pipe = Done tt f0
        ∧ @cyclic_read_stream raw_messages strict ∅ f0
          = Fatal "only files support cyclic_read_stream" f0.
Proof.
  eexists. split; [done|].
  destruct (@cyclic_read_stream_errors raw_messages strict ∅
              {| filename_ := ""; is_file_ := false;
                 stream_ := records two_records; position_ := 0 |})
    as (Hpipe & _).
  apply Hpipe; [simpl; lia|done].
Defined.

Lemma raw_roundtrip_witness :
  @try_read_stream_raw at_start
  = Done (Some [Byte.x01]) (advanced 1 (record [Byte.x02; Byte.x03]) at_start).
Proof.
  destruct (@raw_roundtrip raw_messages plain [Byte.x01] (record [Byte.x02; Byte.x03])
              {| out_filename_ := "copy.pbs"; out_is_file_ := true; written := [] |}
              at_start) as (_ & Hread & _).
  - simpl. lia.
  - reflexivity.
  - done.
Defined.

Lemma raw_copy_preserves_bytes_witness :
  ∃ g', write_stream_raw [Byte.x01]
          {| out_filename_ := "copy.pbs"; out_is_file_ := true; written := [] |}
        = Done tt g'
        ∧ written g' ++ record [Byte.x02; Byte.x03] = records two_records.
Proof.
  destruct (raw_copy_preserves_bytes at_start
              (advanced 1 (record [Byte.x02; Byte.x03]) at_start) [Byte.x01]
              {| out_filename_ := "copy.pbs"; out_is_file_ := true; written := [] |})
    as (_ & _ & _ & g' & Hwrite & Hbytes).
  - done.
  - exists g'. split; [done|]. by rewrite Hbytes.
Defined.



End StreamExampleMore.
